(** * todo-playground: a shallow embedding of the todo CLI and its properties

    The development follows the layout of the TypeScript sources:

    - [JS]: the fragment of the JavaScript runtime the sources rely on
      (UTF-16 strings, IEEE 754 binary64 numbers, [Math.round],
      [String.prototype.repeat], [Number(string)]);
    - [Effect]: exits of effectful computations, and the [Schedule] and
      [retry] combinators of the effect library used by [TodoService];
    - [Todo]: src/domain/Todo.ts;
    - [ProgressBarService]: src/service/ProgressBarService.ts;
    - [DatabaseService]: src/service/DatabaseService.ts over a model of the
      [todos] table;
    - [TodoService]: the retry schedule of src/service/TodoService.ts;
    - [SyncTodos]: src/cmd/syncTodos.ts, the concurrency schema and the
      batch synchronisation;
    - [DatabaseTable], [Commands], [TodoFetch]: the operations over the
      whole table, the handlers of the commands [get], [list], [create],
      [clear] and [init], and the remote fetch of one todo;
    - [DatabaseFile], [FileCommands], [SyncFile]: the methods of the
      database service, the commands and the batch over a file that may
      not hold the table yet.

    Definitions come first, the theorems about them follow. *)

From Stdlib Require Import ZArith QArith Qround Qpower Qreduction.
From Stdlib Require Import Lia Lqa Ascii String Decimal DecimalPos DecimalZ.
From Stdlib Require Import SpecFloat.
From stdpp Require Import list gmap sorting.

Local Open Scope Z_scope.

(* ================================================================== *)
(** * Part I: the embedding                                             *)
(* ================================================================== *)

(** ** The JavaScript runtime *)

Module JS.

(** A JavaScript string is a sequence of UTF-16 code units; [length] is
    its [.length]. *)
Definition jsstring := list N.

(** ASCII literals. *)
Definition u (s : string) : jsstring :=
  N_of_ascii <$> list_ascii_of_string s.

(** *** Numbers

    A JavaScript number is an IEEE 754 binary64 value.  A finite value is
    kept as the exact rational it denotes; every arithmetic operation
    computes the exact rational result and rounds it to the nearest
    binary64 value, ties to the even significand ([binary64]).  The
    sign of zero is not tracked: [-0] and [+0] are both [Finite 0]. *)

Inductive number :=
  | NaN
  | Infinity (negative : bool)
  | Finite (q : Q).

(** [ilog2 q] is the integer [l] with [2^l <= q < 2^(l+1)], for [0 < q]. *)
Definition ilog2 (q : Q) : Z :=
  let l := Z.log2 (Qnum q) - Z.log2 (Zpos (Qden q)) in
  if Qle_bool (2 ^ l) q then l else l - 1.

(** Nearest integer, ties to even. *)
Definition round_even (q : Q) : Z :=
  let f := Qfloor q in
  match (q - inject_Z f ?= 1 # 2)%Q with
  | Lt => f
  | Gt => f + 1
  | Eq => if Z.even f then f else f + 1
  end.

(** Rounding of a positive rational: 53 significant bits, least exponent
    [-1074] (subnormal numbers), overflow to [Infinity] from [2^1024]. *)
Definition binary64_pos (q : Q) : number :=
  let e := Z.max (ilog2 q - 52) (-1074) in
  let r := (inject_Z (round_even (q / 2 ^ e)) * 2 ^ e)%Q in
  if Qle_bool (2 ^ 1024) r then Infinity false else Finite (Qred r).

Definition negate (x : number) : number :=
  match x with
  | NaN => NaN
  | Infinity s => Infinity (negb s)
  | Finite q => Finite (Qred (- q))
  end.

Definition binary64 (q : Q) : number :=
  match (q ?= 0)%Q with
  | Eq => Finite 0
  | Gt => binary64_pos q
  | Lt => negate (binary64_pos (- q))
  end.

(** An integer literal or integer-valued variable. *)
Definition ofZ (z : Z) : number := binary64 (inject_Z z).

Definition is_neg (q : Q) : bool := Qnum q <? 0.

(** [x / y] *)
Definition div (x y : number) : number :=
  match x, y with
  | NaN, _ | _, NaN => NaN
  | Infinity _, Infinity _ => NaN
  | Infinity s, Finite b => Infinity (xorb s (is_neg b))
  | Finite _, Infinity _ => Finite 0
  | Finite a, Finite b =>
      if Qeq_bool b 0 then
        if Qeq_bool a 0 then NaN else Infinity (is_neg a)
      else binary64 (a / b)
  end.

(** [x * y] *)
Definition mul (x y : number) : number :=
  match x, y with
  | NaN, _ | _, NaN => NaN
  | Infinity s, Infinity s' => Infinity (xorb s s')
  | Infinity s, Finite b | Finite b, Infinity s =>
      if Qeq_bool b 0 then NaN else Infinity (xorb s (is_neg b))
  | Finite a, Finite b => binary64 (a * b)
  end.

(** [x - y] *)
Definition sub (x y : number) : number :=
  match x, y with
  | NaN, _ | _, NaN => NaN
  | Infinity s, Infinity s' => if Bool.eqb s s' then NaN else Infinity s
  | Infinity s, Finite _ => Infinity s
  | Finite _, Infinity s => Infinity (negb s)
  | Finite a, Finite b => binary64 (a - b)
  end.

(** [Math.round(x)]: the nearest integer, a tie going towards
    [+Infinity]. *)
Definition Math_round (x : number) : number :=
  match x with
  | Finite q => Finite (inject_Z (Qfloor (q + (1 # 2))))
  | _ => x
  end.

(** [x > y] and [x >= y]; both are false when an operand is [NaN]. *)
Definition gt (x y : number) : bool :=
  match x, y with
  | NaN, _ | _, NaN => false
  | Infinity s, Infinity s' => negb s && s'
  | Infinity s, Finite _ => negb s
  | Finite _, Infinity s => s
  | Finite a, Finite b => negb (Qle_bool a b)
  end.

Definition ge (x y : number) : bool :=
  match x, y with
  | NaN, _ | _, NaN => false
  | Infinity s, Infinity s' => negb s || s'
  | Infinity s, Finite _ => negb s
  | Finite _, Infinity s => s
  | Finite a, Finite b => Qle_bool b a
  end.

(** [Number.isSafeInteger(x)] *)
Definition isSafeInteger (x : number) : bool :=
  match x with
  | Finite q =>
      Qeq_bool q (inject_Z (Qfloor q)) && (Z.abs (Qfloor q) <=? 2 ^ 53 - 1)
  | _ => false
  end.

(** The integer an integer-valued number denotes. *)
Definition toZ (x : number) : Z :=
  match x with
  | Finite q => Qfloor q
  | _ => 0
  end.

(** *** Printing and repeating *)

Definition digit_unit (d : N) : N := (48 + d)%N.

Fixpoint uint_units (d : Decimal.uint) : jsstring :=
  match d with
  | Nil => []
  | D0 d => digit_unit 0 :: uint_units d
  | D1 d => digit_unit 1 :: uint_units d
  | D2 d => digit_unit 2 :: uint_units d
  | D3 d => digit_unit 3 :: uint_units d
  | D4 d => digit_unit 4 :: uint_units d
  | D5 d => digit_unit 5 :: uint_units d
  | D6 d => digit_unit 6 :: uint_units d
  | D7 d => digit_unit 7 :: uint_units d
  | D8 d => digit_unit 8 :: uint_units d
  | D9 d => digit_unit 9 :: uint_units d
  end.

(** The decimal digits of an integer, as [Number.prototype.toString]
    prints an integer-valued number below [10^21]. *)
Definition Z_toString (z : Z) : jsstring :=
  match Z.to_int z with
  | Decimal.Pos d => uint_units d
  | Decimal.Neg d => u "-" ++ uint_units d
  end.

(** [String(x)] as used by template literals.  Only [NaN], the
    infinities and integer-valued numbers below [10^21] are printed the
    way JavaScript prints them; the sources print nothing else. *)
Definition Number_toString (x : number) : jsstring :=
  match x with
  | NaN => u "NaN"
  | Infinity false => u "Infinity"
  | Infinity true => u "-Infinity"
  | Finite q => Z_toString (Qfloor q)
  end.

(** [ToIntegerOrInfinity] followed by the range check of
    [String.prototype.repeat]: [None] stands for the [RangeError] thrown
    for a negative or infinite count. *)
Definition repeat_count (count : number) : option nat :=
  match count with
  | NaN => Some 0%nat
  | Infinity _ => None
  | Finite q =>
      let n := if is_neg q then Qceiling q else Qfloor q in
      if n <? 0 then None else Some (Z.to_nat n)
  end.

Definition String_repeat (s : jsstring) (count : number) : option jsstring :=
  n ← repeat_count count; Some (concat (replicate n s)).

(** *** [Number(string)]

    The string is trimmed of white space and line terminators; what is
    left must be empty (zero), a binary, octal or hexadecimal integer
    literal, or an optionally signed decimal literal or [Infinity].  The
    exact decimal value is rounded to binary64. *)

Definition is_white_space (c : N) : bool :=
  bool_decide (c ∈ [9; 10; 11; 12; 13; 32; 160; 5760; 8232; 8233; 8239;
                    8287; 12288; 65279]%N)
  || ((8192 <=? c) && (c <=? 8202))%N.

Fixpoint trim_start (s : jsstring) : jsstring :=
  match s with
  | c :: rest => if is_white_space c then trim_start rest else s
  | [] => []
  end.

Definition trim (s : jsstring) : jsstring :=
  reverse (trim_start (reverse (trim_start s))).

Definition decimal_digit (c : N) : option (Decimal.uint -> Decimal.uint) :=
  if (c =? 48)%N then Some D0 else if (c =? 49)%N then Some D1
  else if (c =? 50)%N then Some D2 else if (c =? 51)%N then Some D3
  else if (c =? 52)%N then Some D4 else if (c =? 53)%N then Some D5
  else if (c =? 54)%N then Some D6 else if (c =? 55)%N then Some D7
  else if (c =? 56)%N then Some D8 else if (c =? 57)%N then Some D9
  else None.

(** The longest prefix of decimal digits, and what follows it. *)
Fixpoint take_digits (s : jsstring) : Decimal.uint * jsstring :=
  match s with
  | c :: rest =>
      match decimal_digit c with
      | Some d => let '(ds, tail) := take_digits rest in (d ds, tail)
      | None => (Nil, s)
      end
  | [] => (Nil, [])
  end.

Definition is_Nil (d : Decimal.uint) : bool :=
  match d with Nil => true | _ => false end.

Definition radix_digit (c : N) : option Z :=
  if ((48 <=? c) && (c <=? 57))%N then Some (Z.of_N c - 48)
  else if ((97 <=? c) && (c <=? 102))%N then Some (Z.of_N c - 87)
  else if ((65 <=? c) && (c <=? 70))%N then Some (Z.of_N c - 55)
  else None.

Fixpoint radix_value (radix : Z) (s : jsstring) (acc : Z) : option Z :=
  match s with
  | [] => Some acc
  | c :: rest =>
      match radix_digit c with
      | Some d =>
          if d <? radix then radix_value radix rest (acc * radix + d)
          else None
      | None => None
      end
  end.

(** [0b...], [0o...] and [0x...] literals. *)
Definition non_decimal_literal (s : jsstring) : option Z :=
  match s with
  | c :: p :: (_ :: _) as digits =>
      if negb (c =? 48)%N then None
      else if bool_decide (p ∈ [98; 66]%N) then radix_value 2 digits 0
      else if bool_decide (p ∈ [111; 79]%N) then radix_value 8 digits 0
      else if bool_decide (p ∈ [120; 88]%N) then radix_value 16 digits 0
      else None
  | _ => None
  end.

(** A leading [+] or [-]. *)
Definition take_sign (s : jsstring) : bool * jsstring :=
  match s with
  | c :: rest =>
      if (c =? 45)%N then (true, rest)
      else if (c =? 43)%N then (false, rest)
      else (false, s)
  | [] => (false, s)
  end.

Inductive literal :=
  | NotALiteral
  | InfinityLiteral
  | DecimalLiteral (value : Q).

Definition decimal_value (int_part frac_part : Decimal.uint) (exponent : Z)
  : Q :=
  (inject_Z (Z.of_uint (Decimal.app int_part frac_part))
   * 10 ^ (exponent - Z.of_nat (Decimal.nb_digits frac_part)))%Q.

Definition unsigned_decimal_literal (s : jsstring) : literal :=
  if bool_decide (s = u "Infinity") then InfinityLiteral else
  let '(int_part, after_int) := take_digits s in
  let '(frac_part, after_frac) :=
    match after_int with
    | c :: rest => if (c =? 46)%N then take_digits rest else (Nil, after_int)
    | [] => (Nil, after_int)
    end in
  if is_Nil int_part && is_Nil frac_part then NotALiteral else
  match after_frac with
  | [] => DecimalLiteral (decimal_value int_part frac_part 0)
  | c :: rest =>
      if bool_decide (c ∈ [101; 69]%N) then
        let '(negative, digits) := take_sign rest in
        let '(e, tail) := take_digits digits in
        if is_Nil e || negb (bool_decide (tail = [])) then NotALiteral
        else DecimalLiteral
               (decimal_value int_part frac_part
                  (if negative then - Z.of_uint e else Z.of_uint e))
      else NotALiteral
  end.

(** [Number(s)] *)
Definition StringToNumber (s : jsstring) : number :=
  let t := trim s in
  if bool_decide (t = []) then Finite 0 else
  match non_decimal_literal t with
  | Some z => ofZ z
  | None =>
      let '(negative, rest) := take_sign t in
      match unsigned_decimal_literal rest with
      | NotALiteral => NaN
      | InfinityLiteral => Infinity negative
      | DecimalLiteral q => binary64 (if negative then - q else q)
      end
  end.

(** A string is truthy unless it is empty. *)
Definition truthy_string (s : jsstring) : bool := negb (bool_decide (s = [])).

(** *** Values of unknown type: what a schema may be asked to decode. *)
#[local] Unset Elimination Schemes.
Inductive unknown :=
  | UUndefined
  | UNull
  | UBoolean (b : bool)
  | UNumber (x : number)
  | UString (s : jsstring)
  | UObject (props : list (jsstring * unknown))
  | UArray (items : list unknown).
#[local] Set Elimination Schemes.

(** Own property lookup. *)
Fixpoint get_property (name : jsstring) (props : list (jsstring * unknown))
  : option unknown :=
  match props with
  | [] => None
  | (k, v) :: rest =>
      if bool_decide (k = name) then Some v else get_property name rest
  end.

End JS.

(** ** Effects *)

Module Effect.

(** What a thrown exception becomes inside [Effect.fn]: a defect. *)
Inductive defect := RangeError.

(** The exit of an effect: a value, a typed failure, or a defect. *)
Inductive Exit (E A : Type) :=
  | Success (a : A)
  | Failure (e : E)
  | Die (d : defect).
Arguments Success {E A} a.
Arguments Failure {E A} e.
Arguments Die {E A} d.

Definition isSuccess {E A} (x : Exit E A) : bool :=
  match x with Success _ => true | _ => false end.

End Effect.

(** ** src/service/ProgressBarService.ts *)

Module ProgressBarService.
Import JS Effect.

(** The hourglass (U+23F3) and the full block (U+2588). *)
Definition hourglass : jsstring := [9203%N].
Definition block : jsstring := [9608%N].
Definition space : jsstring := u " ".

Definition barWidth : number := ofZ 30.

Definition percentage (completed total : number) : number :=
  Math_round (mul (div completed total) (ofZ 100)).

Definition filledWidth (completed total : number) : number :=
  Math_round (mul (div completed total) barWidth).

Definition emptyWidth (completed total : number) : number :=
  sub barWidth (filledWidth completed total).

(** The bar between the brackets; [None] when a [repeat] throws. *)
Definition bar (completed total : number) : option jsstring :=
  filledBar ← String_repeat block (filledWidth completed total);
  emptyBar ← String_repeat space (emptyWidth completed total);
  Some (filledBar ++ emptyBar).

(** [createSyncProgressMessage(completed, total)] *)
Definition createSyncProgressMessage {E} (completed total : number)
  : Exit E jsstring :=
  match bar completed total with
  | None => Die RangeError
  | Some b =>
      Success (hourglass ++ u " Progress: [" ++ b ++ u "] "
               ++ Number_toString completed ++ u "/" ++ Number_toString total
               ++ u " (" ++ Number_toString (percentage completed total)
               ++ u "%)")
  end.

(** The terminal is the sequence of strings displayed so far. *)
Definition terminal := list jsstring.

Definition display (s : jsstring) (t : terminal) : terminal := t ++ [s].

Definition carriage_return : jsstring := [13%N].
Definition line_feed : jsstring := [10%N].

Definition initializeProgress {E} (completed total : number) (t : terminal)
  : terminal * Exit E unit :=
  match createSyncProgressMessage completed total with
  | Success initialProgress => (display initialProgress t, Success tt)
  | Failure e => (t, Failure e)
  | Die d => (t, Die d)
  end.

Definition updateProgress {E} (completed total : number) (t : terminal)
  : terminal * Exit E unit :=
  match createSyncProgressMessage completed total with
  | Success progressMessage =>
      let t := display (carriage_return ++ progressMessage) t in
      if ge completed total
      then (display line_feed t, Success tt)
      else (t, Success tt)
  | Failure e => (t, Failure e)
  | Die d => (t, Die d)
  end.

End ProgressBarService.

(** ** src/domain/Todo.ts *)

Module Todo.
Import JS.

(** [Schema.Int]: a number that is a safe integer.  The brands
    [UserId] and [TodoId] add nothing at run time. *)
Definition Int (v : unknown) : option Z :=
  match v with
  | UNumber x => if isSafeInteger x then Some (toZ x) else None
  | _ => None
  end.

Definition UserId := Int.
Definition TodoId := Int.

(** [Schema.Literal("completed", "pending")] *)
Inductive CompletionStatus := status_completed | status_pending.

Definition status_text (s : CompletionStatus) : jsstring :=
  match s with
  | status_completed => u "completed"
  | status_pending => u "pending"
  end.

(** [CompletedField]: the transformation between the boolean and the
    stored text. *)
Definition CompletedField_decode (b : bool) : CompletionStatus :=
  if b then status_completed else status_pending.

Definition CompletedField_encode (status : CompletionStatus) : bool :=
  bool_decide (status_text status = u "completed").

Definition CompletedField (v : unknown) : option CompletionStatus :=
  match v with
  | UBoolean b => Some (CompletedField_decode b)
  | _ => None
  end.

(** [Schema.NonEmptyString.pipe(Schema.maxLength(255))] *)
Definition TodoTitle (v : unknown) : option jsstring :=
  match v with
  | UString s =>
      if (1 <=? length s)%nat && (length s <=? 255)%nat then Some s else None
  | _ => None
  end.

(** A decoded instance of the class [Todo]. *)
Record Todo := {
  userId : Z;
  id : Z;
  title : jsstring;
  completed : CompletionStatus;
}.

(** [Schema.decodeUnknown(Todo)]: [None] stands for a [ParseError]. *)
Definition decodeUnknown (input : unknown) : option Todo :=
  match input with
  | UObject props =>
      userId ← get_property (u "userId") props ≫= UserId;
      id ← get_property (u "id") props ≫= TodoId;
      title ← get_property (u "title") props ≫= TodoTitle;
      completed ← get_property (u "completed") props ≫= CompletedField;
      Some {| userId := userId; id := id; title := title;
              completed := completed |}
  | _ => None
  end.

End Todo.

(** ** src/service/DatabaseService.ts

    The [todos] table of the SQLite file: rows keyed by [id], and the
    [sqlite_sequence] counter of the [AUTOINCREMENT] key.  The value of
    [CURRENT_TIMESTAMP] is passed in as [now].  This module gives what
    the statements of each method do to the table once it exists, the
    connection being taken to work; the module [DatabaseFile] below
    gives the methods on a file that may not hold the table yet, where
    their statements fail. *)

Module DatabaseService.
Import JS Effect Todo.

Record row := {
  user_id : Z;
  row_title : jsstring;
  row_completed : CompletionStatus;
  created_at : Z;
  updated_at : Z;
}.

Record database := {
  todos : gmap Z row;
  sqlite_sequence : Z;
}.

(** The text of an error message, kept as the template that built it;
    [SqlErrorText] is the message of the [SqlError] a statement fails
    with. *)
Inductive message :=
  | ParseErrorText
  | SqlErrorText
  | NotFoundText (id : Z)
  | QueryErrorText (inner : message)
  | SchemaDecodeText (id : Z) (inner : message)
  | FailedToCreateText (inner : message)
  | FailedToClearText (inner : message)
  | FailedToSaveText (id : Z) (inner : message).

Inductive error :=
  | DatabaseError (msg : message)
  | TodoNotFound (id : Z).

Definition error_message (e : error) : message :=
  match e with
  | DatabaseError m => m
  | TodoNotFound id => NotFoundText id
  end.

(** [getTodoById] *)
Definition getTodoById (id : Z) (db : database) : Exit error Todo :=
  match todos db !! id with
  | None => Failure (TodoNotFound id)
  | Some r =>
      let todoData :=
        UObject [ (u "userId", UNumber (ofZ (user_id r)));
                  (u "id", UNumber (ofZ id));
                  (u "title", UString (row_title r));
                  (u "completed",
                   UBoolean (bool_decide
                     (status_text (row_completed r) = u "completed"))) ] in
      match decodeUnknown todoData with
      | Some todo => Success todo
      | None => Failure (DatabaseError (SchemaDecodeText id ParseErrorText))
      end
  end.

(** The key SQLite gives a row inserted without an [id]. *)
Definition max_rowid (m : gmap Z row) : Z :=
  map_fold (fun k _ acc => Z.max k acc) 0 m.

Definition next_rowid (db : database) : Z :=
  Z.max (sqlite_sequence db) (max_rowid (todos db)) + 1.

(** [INSERT INTO todos (id, user_id, title, completed)]: both
    timestamps default to [now]. *)
Definition insert_row (now id userId : Z) (title : jsstring)
    (status : CompletionStatus) (db : database) : database :=
  {| todos := <[ id := {| user_id := userId; row_title := title;
                          row_completed := status;
                          created_at := now; updated_at := now |} ]>
              (todos db);
     sqlite_sequence := Z.max (sqlite_sequence db) id |}.

(** [UPDATE todos SET user_id, title, completed, updated_at WHERE id]. *)
Definition update_row (now id userId : Z) (title : jsstring)
    (status : CompletionStatus) (db : database) : database :=
  {| todos := alter (fun r =>
                {| user_id := userId; row_title := title;
                   row_completed := status;
                   created_at := created_at r; updated_at := now |})
              id (todos db);
     sqlite_sequence := sqlite_sequence db |}.

Record createData := {
  data_userId : Z;
  data_title : jsstring;
  data_completed : option bool;
}.

Definition catchAll {A} (wrap : message -> message) (x : Exit error A)
  : Exit error A :=
  match x with
  | Failure e => Failure (DatabaseError (wrap (error_message e)))
  | _ => x
  end.

(** [createTodo] *)
Definition createTodo (now : Z) (data : createData) (db : database)
  : database * Exit error Todo :=
  let completedStatus :=
    match data_completed data with
    | Some true => status_completed
    | _ => status_pending
    end in
  let newId := next_rowid db in
  let db := insert_row now newId (data_userId data) (data_title data)
              completedStatus db in
  (db, catchAll FailedToCreateText (getTodoById newId db)).

(** [clearAllTodos] *)
Definition clearAllTodos (db : database) : database * Exit error unit :=
  ({| todos := ∅; sqlite_sequence := sqlite_sequence db |}, Success tt).

(** [saveTodo].  The field [completed] of a decoded [Todo] is the text
    ["completed"] or ["pending"], and the conditional tests that text
    for truthiness. *)
Definition saveTodo (now : Z) (todo : Todo) (db : database)
  : database * Exit error Todo :=
  let completedStatus :=
    if truthy_string (status_text (completed todo))
    then status_completed else status_pending in
  let count := match todos db !! id todo with Some _ => 1 | None => 0 end in
  let db :=
    if 0 <? count
    then update_row now (id todo) (userId todo) (title todo)
           completedStatus db
    else insert_row now (id todo) (userId todo) (title todo)
           completedStatus db in
  (db, catchAll (FailedToSaveText (id todo)) (getTodoById (id todo) db)).

End DatabaseService.

(** ** The [Schedule] combinators of the effect library

    A schedule is a state machine stepped at every failure with the
    clock reading [now]; it asks for another recurrence not before
    [start], or is done.  Durations and clock readings are in
    milliseconds. *)

Module Schedule.

Inductive Decision :=
  | Continue (start : Z)
  | Done.

Record Schedule (S Out : Type) := {
  initial : S;
  step : Z -> S -> S * Out * Decision;
}.
Arguments initial {S Out} _.
Arguments step {S Out} _ _ _.

(** [Schedule.exponential(base, factor)]: the [i]-th recurrence is
    delayed by [base * factor^i] and the schedule never ends. *)
Definition exponential (base factor : Z) : Schedule Z Z := {|
  initial := 0;
  step now i :=
    let delay := base * factor ^ i in
    (i + 1, delay, Continue (now + delay));
|}.

(** [Schedule.elapsed]: the time since the first step. *)
Definition elapsed : Schedule (option Z) Z := {|
  initial := None;
  step now st :=
    match st with
    | None => (Some now, 0, Continue now)
    | Some start => (Some start, now - start, Continue now)
    end;
|}.

(** [Schedule.whileOutput(self, f)] *)
Definition whileOutput {S Out} (self : Schedule S Out) (f : Out -> bool)
  : Schedule S Out := {|
  initial := initial self;
  step now st :=
    match step self now st with
    | (st', out, Continue start) =>
        if f out then (st', out, Continue start) else (st', out, Done)
    | r => r
    end;
|}.

(** [Schedule.recurUpTo(duration)] *)
Definition recurUpTo (duration : Z) : Schedule (option Z) Z :=
  whileOutput elapsed (fun e => e <? duration).

(** [Schedule.intersect(self, that)]: recurs while both do, after the
    later of the two starts. *)
Definition intersect {S1 O1 S2 O2} (self : Schedule S1 O1)
    (that : Schedule S2 O2) : Schedule (S1 * S2) (O1 * O2) := {|
  initial := (initial self, initial that);
  step now st :=
    let '(s1, o1, d1) := step self now (fst st) in
    let '(s2, o2, d2) := step that now (snd st) in
    match d1, d2 with
    | Continue a, Continue b => ((s1, s2), (o1, o2), Continue (Z.max a b))
    | _, _ => ((s1, s2), (o1, o2), Done)
    end;
|}.

(** [Schedule.zipLeft(self, that)] *)
Definition zipLeft {S1 O1 S2 O2} (self : Schedule S1 O1)
    (that : Schedule S2 O2) : Schedule (S1 * S2) O1 := {|
  initial := initial (intersect self that);
  step now st :=
    let '(st', out, d) := step (intersect self that) now st in
    (st', fst out, d);
|}.

(** [Schedule.upTo(self, duration)] *)
Definition upTo {S Out} (self : Schedule S Out) (duration : Z)
  : Schedule (S * option Z) Out :=
  zipLeft self (recurUpTo duration).

(** [Effect.retry(effect, { schedule, while })].  The effect is run
    again and again; [attempts] lists, for each run, how long it takes
    and how it ends.  The result is [None] when every listed attempt was
    used up and a further one would be made. *)
Record retried (S E A : Type) := {
  result : option (E + A);
  waits : list Z;
  finished : Z;
  final : S;
}.
Arguments result {S E A} _.
Arguments waits {S E A} _.
Arguments finished {S E A} _.
Arguments final {S E A} _.

Fixpoint retry_from {S Out E A} (schedule : Schedule S Out)
    (while : E -> bool) (attempts : list (Z * (E + A)))
    (now : Z) (st : S) (slept : list Z) : retried S E A :=
  match attempts with
  | [] => {| result := None; waits := slept; finished := now; final := st |}
  | (duration, outcome) :: rest =>
      let now := now + duration in
      match outcome with
      | inr a =>
          {| result := Some (inr a); waits := slept;
             finished := now; final := st |}
      | inl e =>
          if while e then
            match step schedule now st with
            | (st', _, Continue start) =>
                let delay := Z.max 0 (start - now) in
                retry_from schedule while rest (now + delay) st'
                  (slept ++ [delay])
            | (st', _, Done) =>
                {| result := Some (inl e); waits := slept;
                   finished := now; final := st' |}
            end
          else
            {| result := Some (inl e); waits := slept;
               finished := now; final := st |}
      end
  end.

Definition retry {S Out E A} (schedule : Schedule S Out)
    (while : E -> bool) (attempts : list (Z * (E + A))) (now : Z)
  : retried S E A :=
  retry_from schedule while attempts now (initial schedule) [].

End Schedule.

(** ** src/service/TodoService.ts *)

Module TodoService.
Import JS Todo Schedule.

(** [Schedule.exponential("100 millis", 2).pipe(Schedule.upTo("5 seconds"))] *)
Definition retrySchedule : Schedule (Z * option Z) Z :=
  upTo (exponential 100 2) 5000.

(** [HttpClient.retryTransient({ schedule })] around one request; which
    failures are transient is decided by the HTTP client
    ([isTransient]). *)
Definition execute {E A} (isTransient : E -> bool)
    (attempts : list (Z * (E + A))) (now : Z) :=
  retry retrySchedule isTransient attempts now.

(** [GetTodoByIdError]: the failure of [getTodoById], carrying the id. *)
Record GetTodoByIdError := { error_id : Z }.

End TodoService.

(** ** src/cmd/syncTodos.ts: the concurrency schema *)

Module ConcurrencySchema.
Import JS.

(** The decoded concurrency: the literal ["unbounded"] or a number. *)
Inductive Concurrency :=
  | unbounded
  | level (n : Z).

(** [Number.parse] of the effect library, behind
    [Schema.NumberFromString]. *)
Definition Number_parse (s : jsstring) : option number :=
  if bool_decide (s = u "NaN") then Some NaN
  else if bool_decide (s = u "Infinity") then Some (Infinity false)
  else if bool_decide (s = u "-Infinity") then Some (Infinity true)
  else if bool_decide (trim s = []) then None
  else match StringToNumber s with
       | NaN => None
       | n => Some n
       end.

Definition NumberFromString (input : unknown) : option number :=
  match input with
  | UString s => Number_parse s
  | _ => None
  end.

(** [Schema.Int.pipe(Schema.positive())] *)
Definition positiveInt (x : number) : option Z :=
  if isSafeInteger x && gt x (Finite 0) then Some (toZ x) else None.

(** [Schema.decodeUnknown(ConcurrencySchema)]: [None] stands for the
    [ParseError]. *)
Definition decode (input : unknown) : option Concurrency :=
  match input with
  | UString s =>
      if bool_decide (s = u "unbounded") then Some unbounded
      else x ← NumberFromString input; n ← positiveInt x; Some (level n)
  | _ => None
  end.

End ConcurrencySchema.

(** ** src/cmd/syncTodos.ts: the [sync] command *)

Module SyncTodos.
Import JS Effect Todo ProgressBarService ConcurrencySchema.

Inductive error :=
  | FetchError (e : TodoService.GetTodoByIdError)
  | StoreError (e : DatabaseService.error).

(** What the command reads and writes: the database, the terminal (both
    [Console.log] and [terminal.display] write to it) and the local
    variable [completed]. *)
Record state := {
  database : DatabaseService.database;
  output : terminal;
  completed : Z;
}.

Definition Console_log (msg : jsstring) (st : state) : state :=
  {| database := database st;
     output := display (msg ++ line_feed) (output st);
     completed := completed st |}.

Definition cross_mark : jsstring := [10060%N].
Definition satellite_antenna : jsstring := [55357%N; 56545%N].
Definition party_popper : jsstring := [55356%N; 57225%N].

Definition mode (concurrency : Concurrency) : jsstring :=
  match concurrency with
  | level 1 => u "sequential"
  | unbounded => u "unbounded"
  | level n => u "parallel (" ++ Z_toString n ++ u ")"
  end.

Section Run.

(** The outcome of [TodoService.getTodoById(id)] and the timestamp the
    database reads during the write that follows [k] completed items. *)
Variable remote : Z -> Exit TodoService.GetTodoByIdError Todo.
Variable now : Z -> Z.

(** [syncTodo(id)] *)
Definition syncTodo (total : Z) (id : Z) (st : state)
  : state * Exit error unit :=
  match remote id with
  | Failure e => (st, Failure (FetchError e))
  | Die d => (st, Die d)
  | Success apiTodo =>
      let '(db, saved) :=
        DatabaseService.saveTodo (now (completed st)) apiTodo (database st) in
      match saved with
      | Failure e =>
          ({| database := db; output := output st;
              completed := completed st |}, Failure (StoreError e))
      | Die d =>
          ({| database := db; output := output st;
              completed := completed st |}, Die d)
      | Success _ =>
          let completed := completed st + 1 in
          let '(out, shown) :=
            updateProgress (ofZ completed) (ofZ total) (output st) in
          ({| database := db; output := out; completed := completed |},
           shown)
      end
  end.

(** [Effect.forEach(ids, f, { concurrency: 1 })]: one id after the
    other, stopping at the first that does not succeed. *)
Fixpoint forEach_sequential (f : Z -> state -> state * Exit error unit)
    (ids : list Z) (st : state) : state * Exit error unit :=
  match ids with
  | [] => (st, Success tt)
  | id :: rest =>
      match f id st with
      | (st, Success _) => forEach_sequential f rest st
      | failed => failed
      end
  end.

(** The handler of the [sync] command with the default concurrency. *)
Definition syncTodoCommand_sequential (ids : list Z) (st : state)
  : state * Exit error unit :=
  if bool_decide (ids = []) then
    (Console_log (cross_mark ++ u " Please provide at least one todo ID to sync")
       st, Success tt)
  else
    let count := Z.of_nat (length ids) in
    let st :=
      Console_log (satellite_antenna ++ u " Syncing " ++ Z_toString count
                   ++ u " todo(s) from API (" ++ mode (level 1) ++ u ")...")
        st in
    let total := count in
    let st := {| database := database st; output := output st;
                 completed := 0 |} in
    match initializeProgress (ofZ (completed st)) (ofZ total) (output st) with
    | (out, Success _) =>
        let st := {| database := database st; output := out;
                     completed := completed st |} in
        match forEach_sequential (syncTodo total) ids st with
        | (st, Success _) =>
            (Console_log (party_popper ++ u " Successfully synced "
                          ++ Z_toString count
                          ++ u " todo(s) to local database!") st,
             Success tt)
        | failed => failed
        end
    | (out, Failure e) =>
        ({| database := database st; output := out;
            completed := completed st |}, Failure e)
    | (out, Die d) =>
        ({| database := database st; output := out;
            completed := completed st |}, Die d)
    end.

End Run.

(** *** Any concurrency: the interleavings of [Effect.forEach]

    Every id runs in a fiber of its own.  A fiber is suspended while it
    awaits the fetch, the write to the database, or the terminal taking
    a string; between two suspensions its code runs without
    interruption, JavaScript being single threaded.  So the code that
    follows the write to the database is one step ([saved]):
    [completed++], the building of the progress line for the count just
    read, and the handing of that line to the terminal.  The fiber then
    awaits the terminal, and hands it the line feed when its count is
    the total ([displayed_last]).  The store is abstracted to the
    outcome of the write. *)

Inductive phase :=
  | Queued
  | Fetching
  | Saving
  | Displaying (n : Z)
  | Terminating (n : Z)
  | Finished (n : Z)
  | Died (n : Z)
  | Failed
  | Interrupted.

Record fibers := {
  phases : list phase;
  counter : Z;
  shown : terminal;
  aborted : bool;
}.

Definition in_flight (p : phase) : bool :=
  match p with
  | Fetching | Saving | Displaying _ | Terminating _ => true
  | _ => false
  end.

(** The completion count a fiber was given by its [completed++]. *)
Definition attributed (p : phase) : option Z :=
  match p with
  | Displaying n | Terminating n | Finished n | Died n => Some n
  | _ => None
  end.

Definition set_phase (i : nat) (p : phase) (s : fibers) : fibers :=
  {| phases := <[ i := p ]> (phases s); counter := counter s;
     shown := shown s; aborted := aborted s |}.

(** The number of fibers [Effect.forEach] keeps running at once. *)
Definition within_limit (concurrency : Concurrency) (running : nat) : Prop :=
  match concurrency with
  | unbounded => True
  | level n => (Z.of_nat running < n)%Z
  end.

Inductive step (concurrency : Concurrency) (total : Z) : fibers -> fibers -> Prop :=
  | launch i s :
      aborted s = false ->
      phases s !! i = Some Queued ->
      (forall j, (j < i)%nat -> phases s !! j <> Some Queued) ->
      within_limit concurrency (length (filter (fun p => in_flight p = true) (phases s))) ->
      step concurrency total s (set_phase i Fetching s)
  | fetched i s :
      phases s !! i = Some Fetching ->
      step concurrency total s (set_phase i Saving s)
  | fetch_failed i s :
      phases s !! i = Some Fetching ->
      step concurrency total s
        {| phases := <[ i := Failed ]> (phases s); counter := counter s;
           shown := shown s; aborted := true |}
  | saved i msg s :
      phases s !! i = Some Saving ->
      createSyncProgressMessage (E := error) (ofZ (counter s + 1)) (ofZ total)
        = Success msg ->
      step concurrency total s
        {| phases := <[ i := Displaying (counter s + 1) ]> (phases s);
           counter := counter s + 1;
           shown := display (carriage_return ++ msg) (shown s);
           aborted := aborted s |}
  | saved_died i d s :
      phases s !! i = Some Saving ->
      createSyncProgressMessage (E := error) (ofZ (counter s + 1)) (ofZ total)
        = Die d ->
      step concurrency total s
        {| phases := <[ i := Died (counter s + 1) ]> (phases s);
           counter := counter s + 1;
           shown := shown s; aborted := true |}
  | save_failed i s :
      phases s !! i = Some Saving ->
      step concurrency total s
        {| phases := <[ i := Failed ]> (phases s); counter := counter s;
           shown := shown s; aborted := true |}
  | displayed i n s :
      phases s !! i = Some (Displaying n) ->
      ge (ofZ n) (ofZ total) = false ->
      step concurrency total s (set_phase i (Finished n) s)
  | displayed_last i n s :
      phases s !! i = Some (Displaying n) ->
      ge (ofZ n) (ofZ total) = true ->
      step concurrency total s
        {| phases := <[ i := Terminating n ]> (phases s); counter := counter s;
           shown := display line_feed (shown s); aborted := aborted s |}
  | terminated i n s :
      phases s !! i = Some (Terminating n) ->
      step concurrency total s (set_phase i (Finished n) s)
  | interrupted i p s :
      aborted s = true ->
      phases s !! i = Some p ->
      p = Fetching \/ p = Saving ->
      step concurrency total s (set_phase i Interrupted s).

(** The fibers when [Effect.forEach] starts: every id queued, the
    counter at [0], the initial bar displayed. *)
Definition start (ids : list Z) (out : terminal) : fibers :=
  {| phases := replicate (length ids) Queued; counter := 0;
     shown := out; aborted := false |}.

End SyncTodos.

(** ** Vocabulary of the specification *)

Module Spec.
Import JS Effect ProgressBarService.

(** The number [x] is exactly the integer [z]. *)
Definition represents (x : number) (z : Z) : Prop :=
  exists q, x = Finite q /\ (q == inject_Z z)%Q.

(** The number [x] is at least the integer [K], [+Infinity] included. *)
Definition at_least (K : Z) (x : number) : Prop :=
  match x with
  | Infinity false => True
  | Finite r => (inject_Z K <= r)%Q
  | _ => False
  end.

(** [k] is an integer nearest to the fraction [n / d]. *)
Definition nearest (k n d : Z) : Prop :=
  - d <= 2 * d * k - 2 * n <= d.

(** The nearest integer to [n / d], a tie going up. *)
Definition round_half_up (n d : Z) : Z := (2 * n + d) / (2 * d).

(** The nearest integer to [n / d], a tie going to the even neighbour. *)
Definition round_half_even (n d : Z) : Z :=
  let q := n / d in
  let r := n mod d in
  if 2 * r <? d then q
  else if d <? 2 * r then q + 1
  else if Z.even q then q else q + 1.

(** The layout of the progress line: [filled] blocks, then blanks up to
    30 cells, then the counts and the percentage. *)
Definition progress_text (filled c t p : Z) : jsstring :=
  hourglass ++ u " Progress: ["
  ++ concat (replicate (Z.to_nat filled) block)
  ++ concat (replicate (Z.to_nat (30 - filled)) space)
  ++ u "] " ++ Z_toString c ++ u "/" ++ Z_toString t
  ++ u " (" ++ Z_toString p ++ u "%)".

(** The progress line as specified with the rounding rule [round]. *)
Definition renders_with (round : Z -> Z -> Z) : Prop :=
  forall c t, 0 <= c <= t -> 0 < t ->
    createSyncProgressMessage (E := False) (ofZ c) (ofZ t)
    = Success (progress_text (round (30 * c) t) c t (round (100 * c) t)).

(** "The precondition [completed <= total] is necessary": the builder
    succeeds on no pair that violates it. *)
Definition bound_is_necessary : Prop :=
  forall c t : Z, 0 < t -> 0 <= c ->
    isSuccess (createSyncProgressMessage (E := False) (ofZ c) (ofZ t)) = true ->
    c <= t.

(** A value of the Standard Library's specification of IEEE 754
    arithmetic, read as a [number]. *)
Definition of_spec_float (f : spec_float) : number :=
  match f with
  | S754_zero _ => Finite 0
  | S754_infinity s => Infinity s
  | S754_nan => NaN
  | S754_finite s m e =>
      Finite (Qred ((if s then -1 else 1) * inject_Z (Zpos m) * 2 ^ e))
  end.

Definition spec_float_of_Z (z : Z) : spec_float :=
  binary_normalize 53 1024 z 0 false.

Definition same_number (x y : number) : bool :=
  match x, y with
  | NaN, NaN => true
  | Infinity s, Infinity s' => Bool.eqb s s'
  | Finite a, Finite b => Qeq_bool a b
  | _, _ => false
  end.

(** [(c / t) * w] computed by [JS] and by [SpecFloat] agree. *)
Definition agrees_with_SpecFloat (w c t : Z) : bool :=
  same_number
    (mul (div (ofZ c) (ofZ t)) (ofZ w))
    (of_spec_float
       (SFmul 53 1024
          (SFdiv 53 1024 (spec_float_of_Z c) (spec_float_of_Z t))
          (spec_float_of_Z w))).

(** *** The store *)

(** What [get] and [list] show of a row: everything but [updated_at]. *)
Definition observable (r : DatabaseService.row)
  : Z * jsstring * Todo.CompletionStatus * Z :=
  (DatabaseService.user_id r, DatabaseService.row_title r,
   DatabaseService.row_completed r, DatabaseService.created_at r).

(** The row [saveTodo] writes for [todo]: the status column is the one
    the code computes, ["completed"] for every [Todo]. *)
Definition written_row (now created : Z) (todo : Todo.Todo)
  : DatabaseService.row :=
  {| DatabaseService.user_id := Todo.userId todo;
     DatabaseService.row_title := Todo.title todo;
     DatabaseService.row_completed := Todo.status_completed;
     DatabaseService.created_at := created;
     DatabaseService.updated_at := now |}.

(** The row an upsert of [todo] is specified to leave: the user id, the
    title and the status of [todo] itself. *)
Definition saved_row (now created : Z) (todo : Todo.Todo)
  : DatabaseService.row :=
  {| DatabaseService.user_id := Todo.userId todo;
     DatabaseService.row_title := Todo.title todo;
     DatabaseService.row_completed := Todo.completed todo;
     DatabaseService.created_at := created;
     DatabaseService.updated_at := now |}.

(** A todo that is not completed. *)
Definition pending_todo : Todo.Todo :=
  {| Todo.userId := 1; Todo.id := 9; Todo.title := u "later";
     Todo.completed := Todo.status_pending |}.

(** The object literal a [Todo] is decoded from. *)
Definition todo_object (userId id : Z) (title : jsstring) (completed : bool)
  : unknown :=
  UObject [ (u "userId", UNumber (ofZ userId)); (u "id", UNumber (ofZ id));
            (u "title", UString title); (u "completed", UBoolean completed) ].

Definition row_object (id : Z) (r : DatabaseService.row) : unknown :=
  todo_object (DatabaseService.user_id r) id (DatabaseService.row_title r)
    (bool_decide (Todo.status_text (DatabaseService.row_completed r)
                  = u "completed")).

Definition empty_database : DatabaseService.database :=
  {| DatabaseService.todos := ∅; DatabaseService.sqlite_sequence := 0 |}.

(** *** The concurrency token *)

(** A decimal digit, as a code unit. *)
Definition is_digit (c : N) : Prop := is_Some (decimal_digit c).

(** A string with no decimal digit in it. *)
Definition digit_free (s : jsstring) : Prop :=
  Forall (fun c => decimal_digit c = None) s.

(** *** The retry schedule *)

(** The delay the specification gives the [k]-th wait. *)
Definition capped_backoff (k : nat) : Z := Z.min 5000 (100 * 2 ^ Z.of_nat k).

(** The retry policy as specified: every wait is the capped backoff, and
    a failure ends the retries only when it is not transient. *)
Definition retries_as_specified (E A : Type) : Prop :=
  forall (isTransient : E -> bool) (attempts : list (Z * (E + A))) (now : Z),
    let r := TodoService.execute isTransient attempts now in
    (forall k d, Schedule.waits r !! k = Some d -> d = capped_backoff k) /\
    (forall e, Schedule.result r = Some (inl e) -> isTransient e = false).

(** The retry policy as amended, as a loop over the attempts: a success
    or a failure that is not transient ends it; so does a transient
    failure 5000 ms or more after the first failure; any other transient
    failure is followed by a wait of [100 * 2^k] ms, [k] counting the
    waits made, and by the next attempt.  The loop gives the result
    ([None] when the attempts listed are used up), the waits made and the
    time it ends. *)
Fixpoint retries_until_elapsed {E A} (isTransient : E -> bool)
    (attempts : list (Z * (E + A))) (now : Z) (k : nat) (first : option Z)
  : option (E + A) * list Z * Z :=
  match attempts with
  | [] => (None, [], now)
  | (duration, outcome) :: rest =>
      let now := now + duration in
      match outcome with
      | inr a => (Some (inr a), [], now)
      | inl e =>
          let first := default now first in
          if isTransient e && (now - first <? 5000) then
            let delay := 100 * 2 ^ Z.of_nat k in
            let '(r, ws, fin) :=
              retries_until_elapsed isTransient rest (now + delay) (S k)
                (Some first) in
            (r, delay :: ws, fin)
          else (Some (inl e), [], now)
      end
  end.

(** A run in which the second attempt fails 5500 ms after the first
    failure and a third attempt would succeed. *)
Definition slow_run : list (Z * (bool + unit)) :=
  [ (0, inl true); (5400, inl true); (0, inr tt) ].

(** What holds of the schedule's state between two attempts: [i] waits
    were made, the [k]-th of [100 * 2^k] ms, and the clock has advanced
    by at least their sum since the first failure. *)
Definition between_attempts (now i : Z) (started : option Z) (slept : list Z)
  : Prop :=
  0 <= i <= 6 /\ length slept = Z.to_nat i /\
  (forall k d, slept !! k = Some d -> d = 100 * 2 ^ Z.of_nat k) /\
  ((i = 0 /\ started = None) \/
   (0 < i /\ exists s, started = Some s /\ 100 * (2 ^ i - 1) <= now - s)).

(** *** The batch synchronisation *)

(** The completion counts given out so far, in the order of the ids. *)
Definition counts (s : SyncTodos.fibers) : list Z :=
  omap SyncTodos.attributed (SyncTodos.phases s).

(** The counter and the counts given out agree. *)
Definition counted_once (s : SyncTodos.fibers) : Prop :=
  0 <= SyncTodos.counter s /\ counts s ≡ₚ seqZ 1 (SyncTodos.counter s).

(** Failures are isolated: whatever else fails, an id whose fetch
    succeeds ends up in the database. *)
Definition isolates_failures : Prop :=
  forall (remote : Z -> Exit TodoService.GetTodoByIdError Todo.Todo)
         (now : Z -> Z) (ids : list Z) (st : SyncTodos.state) (id : Z)
         (todo : Todo.Todo),
    id ∈ ids -> remote id = Success todo ->
    is_Some (DatabaseService.todos
               (SyncTodos.database
                  (fst (SyncTodos.syncTodoCommand_sequential remote now ids st)))
             !! Todo.id todo).

Definition initial_state : SyncTodos.state :=
  {| SyncTodos.database := empty_database; SyncTodos.output := [];
     SyncTodos.completed := 0 |}.

(** The remote source of the end-to-end scenario: id [1] cannot be
    fetched, every other id can. *)
Definition first_fails (id : Z)
  : Exit TodoService.GetTodoByIdError Todo.Todo :=
  if id =? 1 then Failure {| TodoService.error_id := 1 |}
  else Success {| Todo.userId := 1; Todo.id := id; Todo.title := u "todo";
                  Todo.completed := Todo.status_pending |}.

End Spec.

(** ** src/service/DatabaseService.ts: the table as a whole

    [initializeDatabase] takes the file as it finds it, [None] when the
    table does not exist yet, and [getAllTodos] reads the rows in order
    of [id]. *)

Module DatabaseTable.
Import JS Effect Todo DatabaseService.

(** The sample rows of [initializeDatabase]. *)
Definition sampleData : list (Z * jsstring * CompletionStatus) :=
  [ (1, u "Learn Effect", status_pending);
    (1, u "Build a CLI app", status_completed);
    (2, u "Master TypeScript", status_pending);
    (1, u "Use SQLite with Effect", status_pending);
    (2, u "Write documentation", status_completed) ].

(** [initializeDatabase]: [CREATE TABLE IF NOT EXISTS], then the
    samples when the table holds no row.  The rows of one [INSERT] share
    the timestamp [now] and take the next keys in turn. *)
Definition initializeDatabase (now : Z) (file : option database)
  : database * Exit error unit :=
  let db := default {| todos := ∅; sqlite_sequence := 0 |} file in
  let count := Z.of_nat (size (todos db)) in
  let db :=
    if count =? 0 then
      foldl (fun db '(userId, title, status) =>
               insert_row now (next_rowid db) userId title status db)
        db sampleData
    else db in
  (db, Success tt).

(** The error of [getAllTodos]: the message of whatever failed, behind
    the text "Failed to fetch todos". *)
Inductive message := FailedToFetchText (inner : DatabaseService.message).
Inductive error := DatabaseError (msg : message).

(** [SELECT id, user_id, title, completed FROM todos ORDER BY id] *)
Definition by_id (x y : Z * row) : Prop := fst x <= fst y.

#[global] Instance by_id_dec : RelDecision by_id :=
  fun x y => decide (fst x <= fst y).

Definition select_all (db : database) : list (Z * row) :=
  merge_sort by_id (map_to_list (todos db)).

(** [getAllTodos]: the rows are decoded one after the other, and the
    first that does not pass the schema fails the call. *)
Definition getAllTodos (db : database) : Exit error (list Todo) :=
  let rows := select_all db in
  match
    mapM (fun '(id, row) =>
            decodeUnknown
              (UObject [ (u "userId", UNumber (ofZ (user_id row)));
                         (u "id", UNumber (ofZ id));
                         (u "title", UString (row_title row));
                         (u "completed",
                          UBoolean (bool_decide
                            (status_text (row_completed row) = u "completed"))) ]))
      rows
  with
  | Some todos => Success todos
  | None => Failure (DatabaseError (FailedToFetchText ParseErrorText))
  end.

End DatabaseTable.

(** ** Vocabulary for the store *)

Module Store.
Import JS Effect Todo DatabaseService.

(** An integer in the range of [Number.isSafeInteger]. *)
Definition safe (z : Z) : Prop := Z.abs z <= 2 ^ 53 - 1.

(** A title the schema accepts: 1 to 255 code units. *)
Definition valid_title (t : jsstring) : Prop := (1 <= length t <= 255)%nat.

(** A row whose columns the schema of [Todo] accepts. *)
Definition readable (id : Z) (r : row) : Prop :=
  safe id /\ safe (user_id r) /\ valid_title (row_title r).

#[global] Instance safe_dec (z : Z) : Decision (safe z) :=
  decide (Z.abs z <= 2 ^ 53 - 1).

#[global] Instance valid_title_dec (t : jsstring) : Decision (valid_title t) :=
  decide ((1 <= length t)%nat /\ (length t <= 255)%nat).

#[global] Instance readable_dec (id : Z) (r : row) : Decision (readable id r) :=
  decide (safe id /\ safe (user_id r) /\ valid_title (row_title r)).

(** The [Todo] a row is read as. *)
Definition todo_of_row (id : Z) (r : row) : Todo :=
  {| userId := user_id r; Todo.id := id; title := row_title r;
     completed := row_completed r |}.

(** What can be observed of a file: whether it holds the table, the
    columns of every row but [updated_at], and the key counter. *)
Definition visible (f : option database)
  : option (gmap Z (Z * jsstring * CompletionStatus * Z) * Z) :=
  (fun db => (Spec.observable <$> todos db, sqlite_sequence db)) <$> f.

(** The key counter is not below a stored key, as in every table that
    only [INSERT], [UPDATE] and [DELETE] have touched. *)
Definition consistent (db : database) : Prop :=
  forall k r, todos db !! k = Some r -> k <= sqlite_sequence db.

End Store.

(** ** The commands over the local database

    src/cmd/getLocalTodo.ts, listLocalTodos.ts, createTodo.ts,
    clearTodos.ts and initDb.ts.  A command reads and writes the
    database and writes lines to the console.  [Todo.pretty] is the
    printer [Pretty.make(Todo)] derives from the schema. *)

Module Commands.
Import JS Effect Todo ProgressBarService DatabaseService DatabaseTable.

(** The floppy disk (U+1F4BE) and the check mark (U+2705). *)
Definition floppy_disk : jsstring := [55357%N; 56510%N].
Definition check_mark : jsstring := [9989%N].

(** [Console.log(msg)] *)
Definition Console_log (msg : jsstring) (out : terminal) : terminal :=
  display (msg ++ line_feed) out.

Section Pretty.

Variable pretty : Todo -> jsstring.

(** The handler of [get], with its [Effect.catchTag("TodoNotFound", ...)]. *)
Definition getLocalTodoCommand (id : Z) (db : database) (out : terminal)
  : terminal * Exit DatabaseService.error unit :=
  match getTodoById id db with
  | Success todo =>
      let out := Console_log (floppy_disk ++ u " From Local Database:") out in
      let out := Console_log (pretty todo) out in
      (out, Success tt)
  | Failure (TodoNotFound id) =>
      (Console_log (SyncTodos.cross_mark ++ u " Todo "
                    ++ Number_toString (ofZ id)
                    ++ u " not found in local database") out,
       Success tt)
  | Failure e => (out, Failure e)
  | Die d => (out, Die d)
  end.

(** The handler of [list]. *)
Definition listLocalTodosCommand (db : database) (out : terminal)
  : terminal * Exit DatabaseTable.error unit :=
  match getAllTodos db with
  | Success todos =>
      let out :=
        Console_log (floppy_disk ++ u " All Todos from Local Database:") out in
      (foldl (fun out todo =>
                Console_log (u "---") (Console_log (pretty todo) out))
         out todos,
       Success tt)
  | Failure e => (out, Failure e)
  | Die d => (out, Die d)
  end.

(** The handler of [create]. *)
Definition createTodoCommand (now : Z) (userId : Z) (title : jsstring)
    (completed : option bool) (db : database) (out : terminal)
  : database * terminal * Exit DatabaseService.error unit :=
  let '(db, created) :=
    createTodo now {| data_userId := userId; data_title := title;
                      data_completed := Some (default false completed) |}
      db in
  match created with
  | Success todo =>
      let out := Console_log (check_mark ++ u " Created new todo:") out in
      let out := Console_log (pretty todo) out in
      (db, out, Success tt)
  | Failure e => (db, out, Failure e)
  | Die d => (db, out, Die d)
  end.

(** The handler of [clear]. *)
Definition clearTodosCommand (db : database) (out : terminal)
  : database * terminal * Exit DatabaseService.error unit :=
  let '(db, cleared) := clearAllTodos db in
  match cleared with
  | Success _ =>
      (db, Console_log (check_mark ++ u " Cleared all todos") out, Success tt)
  | Failure e => (db, out, Failure e)
  | Die d => (db, out, Die d)
  end.

(** The handler of [init]. *)
Definition initDbCommand (now : Z) (file : option database) (out : terminal)
  : database * terminal * Exit DatabaseService.error unit :=
  let '(db, initialized) := initializeDatabase now file in
  match initialized with
  | Success _ =>
      (db, Console_log (check_mark ++ u " Database initialized successfully!")
             out, Success tt)
  | Failure e => (db, out, Failure e)
  | Die d => (db, out, Die d)
  end.

End Pretty.

End Commands.

(** ** Vocabulary for a run of the [sync] command *)

Module Batch.
Import JS Effect Todo ProgressBarService Store.

(** The progress line for [k] of [n] items. *)
Definition progress_line (k n : Z) : jsstring :=
  match createSyncProgressMessage (E := False) (ofZ k) (ofZ n) with
  | Success msg => msg
  | _ => []
  end.

(** Every id of the batch is fetched, and what is fetched has passed the
    schema of [Todo], as [TodoService.getTodoById] decodes it. *)
Definition all_fetched (remote : Z -> Exit TodoService.GetTodoByIdError Todo)
    (ids : list Z) : Prop :=
  forall id, id ∈ ids ->
    exists todo, remote id = Success todo /\
      safe (Todo.id todo) /\ safe (userId todo) /\ valid_title (title todo).

(** After the batch, every fetched todo has a row under its own [id],
    holding the user id and the title of a fetched todo of that [id],
    and the status the code stores. *)
Definition stored (remote : Z -> Exit TodoService.GetTodoByIdError Todo)
    (ids : list Z) (db : DatabaseService.database) : Prop :=
  forall id todo, id ∈ ids -> remote id = Success todo ->
    exists r id' todo',
      DatabaseService.todos db !! Todo.id todo = Some r /\
      id' ∈ ids /\ remote id' = Success todo' /\
      Todo.id todo' = Todo.id todo /\
      DatabaseService.user_id r = userId todo' /\
      DatabaseService.row_title r = title todo' /\
      DatabaseService.row_completed r = status_completed.

(** The rows under the other keys are as they were. *)
Definition untouched (remote : Z -> Exit TodoService.GetTodoByIdError Todo)
    (ids : list Z) (db db' : DatabaseService.database) : Prop :=
  forall k,
    (forall id todo, id ∈ ids -> remote id = Success todo -> Todo.id todo <> k) ->
    DatabaseService.todos db' !! k = DatabaseService.todos db !! k.

(** A remote source on which every fetch succeeds: the todo of each id,
    titled ["todo"] and pending. *)
Definition always_found (id : Z) : Exit TodoService.GetTodoByIdError Todo :=
  Success {| userId := 1; Todo.id := id; title := u "todo";
             completed := status_pending |}.

(** The lines [updateProgress] writes for the counts [ks] of [total]. *)
Definition updates (total : Z) (ks : list Z) : terminal :=
  ks ≫= fun k => (carriage_return ++ progress_line k total)
                 :: (if bool_decide (k = total) then [line_feed] else []).

(** The progress lines handed to the terminal for the counts [1] to
    [c], in that order. *)
Definition reports (total c : Z) : terminal :=
  (fun k => carriage_return ++ progress_line k total) <$> seqZ 1 c.

(** Some fiber handed the line feed to the terminal: it was given the
    count [total]. *)
Definition fed (total : Z) (s : SyncTodos.fibers) : Prop :=
  exists j, SyncTodos.phases s !! j = Some (SyncTodos.Terminating total)
            \/ SyncTodos.phases s !! j = Some (SyncTodos.Finished total).

(** What the terminal shows during a batch: what it showed before, the
    progress lines of the counts given out, in order, and the line feed
    once the last count was displayed. *)
Definition reported (total : Z) (out : terminal) (s : SyncTodos.fibers) : Prop :=
  exists feed,
    SyncTodos.shown s = out ++ reports total (SyncTodos.counter s) ++ feed /\
    (feed = [] \/
     (feed = [line_feed] /\ SyncTodos.counter s = total /\ fed total s)).

(** A fiber that is neither waiting nor in flight. *)
Definition settled (p : SyncTodos.phase) : Prop :=
  SyncTodos.in_flight p = false /\ p <> SyncTodos.Queued.

End Batch.

(** ** src/service/TodoService.ts: [getTodoById]

    What the HTTP client hands back once its retries are over: a
    transport failure, or a response with its status and, when the body
    is JSON, the value parsed from it. *)

Module TodoFetch.
Import JS Effect Todo.

Inductive fetched :=
  | RequestFailed
  | Response (status : Z) (json : option unknown).

(** [HttpClient.filterStatusOk]: a status from 200 to 299. *)
Definition statusOk (status : Z) : bool := (200 <=? status) && (status <? 300).

(** [getTodoById(id)]: every failure becomes a [GetTodoByIdError] that
    carries the id asked for. *)
Definition getTodoById (id : Z) (r : fetched)
  : Exit TodoService.GetTodoByIdError Todo :=
  match r with
  | RequestFailed => Failure {| TodoService.error_id := id |}
  | Response status json =>
      if statusOk status then
        match json with
        | Some jsonData =>
            match decodeUnknown jsonData with
            | Some todo => Success todo
            | None => Failure {| TodoService.error_id := id |}
            end
        | None => Failure {| TodoService.error_id := id |}
        end
      else Failure {| TodoService.error_id := id |}
  end.

End TodoFetch.

(** ** src/service/DatabaseService.ts: the methods on the file

    The file [todos.db] holds the table [todos] only once
    [initializeDatabase] has created it.  On a file without the table
    every statement on [todos] fails with an [SqlError]; the [catchAll]
    of the method turns it into the [DatabaseError] of that method, and
    nothing is written.  On a file with the table the statements run as
    [DatabaseService] and [DatabaseTable] give them. *)

Module DatabaseFile.
Import JS Effect Todo DatabaseService.

(** The file: [None] before the table is created. *)
Definition file := option database.

(** A method that writes: its first statement fails on a file without
    the table, and [wrap] is the text its [catchAll] puts before the
    message. *)
Definition on_table {A} (wrap : message -> message)
    (method : database -> database * Exit error A) (f : file)
  : file * Exit error A :=
  match f with
  | None => (None, Failure (DatabaseError (wrap SqlErrorText)))
  | Some db => let '(db, exit) := method db in (Some db, exit)
  end.

(** [getTodoById]: the [SELECT] has a [catchAll] of its own. *)
Definition getTodoById (id : Z) (f : file) : Exit error Todo :=
  match f with
  | None => Failure (DatabaseError (QueryErrorText SqlErrorText))
  | Some db => DatabaseService.getTodoById id db
  end.

(** [getAllTodos] *)
Definition getAllTodos (f : file) : Exit DatabaseTable.error (list Todo) :=
  match f with
  | None =>
      Failure (DatabaseTable.DatabaseError
                 (DatabaseTable.FailedToFetchText SqlErrorText))
  | Some db => DatabaseTable.getAllTodos db
  end.

(** [createTodo] *)
Definition createTodo (now : Z) (data : createData)
  : file -> file * Exit error Todo :=
  on_table FailedToCreateText (DatabaseService.createTodo now data).

(** [clearAllTodos] *)
Definition clearAllTodos : file -> file * Exit error unit :=
  on_table FailedToClearText DatabaseService.clearAllTodos.

(** [saveTodo] *)
Definition saveTodo (now : Z) (todo : Todo) : file -> file * Exit error Todo :=
  on_table (FailedToSaveText (id todo)) (DatabaseService.saveTodo now todo).

(** [initializeDatabase]: [CREATE TABLE IF NOT EXISTS] comes first, so
    the file holds the table afterwards. *)
Definition initializeDatabase (now : Z) (f : file) : file * Exit error unit :=
  let '(db, exit) := DatabaseTable.initializeDatabase now f in (Some db, exit).

End DatabaseFile.

(** ** The commands over the file

    The handlers of [get], [list], [create] and [clear] as in
    [Commands], over a file that may not hold the table. *)

Module FileCommands.
Import JS Effect Todo ProgressBarService DatabaseService.

Section Pretty.

Variable pretty : Todo -> jsstring.

(** The handler of [get], with its [Effect.catchTag("TodoNotFound", ...)]. *)
Definition getLocalTodoCommand (id : Z) (f : DatabaseFile.file) (out : terminal)
  : terminal * Exit DatabaseService.error unit :=
  match DatabaseFile.getTodoById id f with
  | Success todo =>
      let out :=
        Commands.Console_log
          (Commands.floppy_disk ++ u " From Local Database:") out in
      let out := Commands.Console_log (pretty todo) out in
      (out, Success tt)
  | Failure (TodoNotFound id) =>
      (Commands.Console_log
         (SyncTodos.cross_mark ++ u " Todo " ++ Number_toString (ofZ id)
          ++ u " not found in local database") out,
       Success tt)
  | Failure e => (out, Failure e)
  | Die d => (out, Die d)
  end.

(** The handler of [list]. *)
Definition listLocalTodosCommand (f : DatabaseFile.file) (out : terminal)
  : terminal * Exit DatabaseTable.error unit :=
  match DatabaseFile.getAllTodos f with
  | Success todos =>
      let out :=
        Commands.Console_log
          (Commands.floppy_disk ++ u " All Todos from Local Database:") out in
      (foldl (fun out todo =>
                Commands.Console_log (u "---")
                  (Commands.Console_log (pretty todo) out))
         out todos,
       Success tt)
  | Failure e => (out, Failure e)
  | Die d => (out, Die d)
  end.

(** The handler of [create]. *)
Definition createTodoCommand (now : Z) (userId : Z) (title : jsstring)
    (completed : option bool) (f : DatabaseFile.file) (out : terminal)
  : DatabaseFile.file * terminal * Exit DatabaseService.error unit :=
  let '(f, created) :=
    DatabaseFile.createTodo now
      {| data_userId := userId; data_title := title;
         data_completed := Some (default false completed) |} f in
  match created with
  | Success todo =>
      let out :=
        Commands.Console_log (Commands.check_mark ++ u " Created new todo:")
          out in
      let out := Commands.Console_log (pretty todo) out in
      (f, out, Success tt)
  | Failure e => (f, out, Failure e)
  | Die d => (f, out, Die d)
  end.

(** The handler of [clear]. *)
Definition clearTodosCommand (f : DatabaseFile.file) (out : terminal)
  : DatabaseFile.file * terminal * Exit DatabaseService.error unit :=
  let '(f, cleared) := DatabaseFile.clearAllTodos f in
  match cleared with
  | Success _ =>
      (f, Commands.Console_log (Commands.check_mark ++ u " Cleared all todos")
            out, Success tt)
  | Failure e => (f, out, Failure e)
  | Die d => (f, out, Die d)
  end.

End Pretty.

End FileCommands.

(** ** src/cmd/syncTodos.ts: the [sync] command over the file

    [syncTodo] and the handler of [sync] with the default concurrency,
    as in [SyncTodos], over a file that may not hold the table. *)

Module SyncFile.
Import JS Effect Todo ProgressBarService ConcurrencySchema.

Record state := {
  file : DatabaseFile.file;
  output : terminal;
  completed : Z;
}.

Definition Console_log (msg : jsstring) (st : state) : state :=
  {| file := file st;
     output := display (msg ++ line_feed) (output st);
     completed := completed st |}.

(** The state of [SyncTodos] for a file that holds the table. *)
Definition on_table (st : SyncTodos.state) : state :=
  {| file := Some (SyncTodos.database st); output := SyncTodos.output st;
     completed := SyncTodos.completed st |}.

Section Run.

Variable remote : Z -> Exit TodoService.GetTodoByIdError Todo.
Variable now : Z -> Z.

(** [syncTodo(id)] *)
Definition syncTodo (total : Z) (id : Z) (st : state)
  : state * Exit SyncTodos.error unit :=
  match remote id with
  | Failure e => (st, Failure (SyncTodos.FetchError e))
  | Die d => (st, Die d)
  | Success apiTodo =>
      let '(f, saved) :=
        DatabaseFile.saveTodo (now (completed st)) apiTodo (file st) in
      match saved with
      | Failure e =>
          ({| file := f; output := output st; completed := completed st |},
           Failure (SyncTodos.StoreError e))
      | Die d =>
          ({| file := f; output := output st; completed := completed st |},
           Die d)
      | Success _ =>
          let completed := completed st + 1 in
          let '(out, shown) :=
            updateProgress (ofZ completed) (ofZ total) (output st) in
          ({| file := f; output := out; completed := completed |}, shown)
      end
  end.

(** [Effect.forEach(ids, f, { concurrency: 1 })] *)
Fixpoint forEach_sequential
    (f : Z -> state -> state * Exit SyncTodos.error unit)
    (ids : list Z) (st : state) : state * Exit SyncTodos.error unit :=
  match ids with
  | [] => (st, Success tt)
  | id :: rest =>
      match f id st with
      | (st, Success _) => forEach_sequential f rest st
      | failed => failed
      end
  end.

(** The handler of the [sync] command with the default concurrency. *)
Definition syncTodoCommand_sequential (ids : list Z) (st : state)
  : state * Exit SyncTodos.error unit :=
  if bool_decide (ids = []) then
    (Console_log
       (SyncTodos.cross_mark ++ u " Please provide at least one todo ID to sync")
       st, Success tt)
  else
    let count := Z.of_nat (length ids) in
    let st :=
      Console_log (SyncTodos.satellite_antenna ++ u " Syncing "
                   ++ Z_toString count ++ u " todo(s) from API ("
                   ++ SyncTodos.mode (level 1) ++ u ")...")
        st in
    let total := count in
    let st := {| file := file st; output := output st; completed := 0 |} in
    match initializeProgress (ofZ (completed st)) (ofZ total) (output st) with
    | (out, Success _) =>
        let st := {| file := file st; output := out;
                     completed := completed st |} in
        match forEach_sequential (syncTodo total) ids st with
        | (st, Success _) =>
            (Console_log (SyncTodos.party_popper ++ u " Successfully synced "
                          ++ Z_toString count
                          ++ u " todo(s) to local database!") st,
             Success tt)
        | failed => failed
        end
    | (out, Failure e) =>
        ({| file := file st; output := out; completed := completed st |},
         Failure e)
    | (out, Die d) =>
        ({| file := file st; output := out; completed := completed st |},
         Die d)
    end.

End Run.

End SyncFile.

(* ================================================================== *)
(** * Part II: properties                                               *)
(* ================================================================== *)

(** ** Rounding to binary64 *)

Module NumberFacts.
Import JS Spec.
Local Open Scope Q_scope.

Lemma pow2_pos (e : Z) : 0 < 2 ^ e.
Proof. apply Qpower_0_lt. reflexivity. Qed.

Lemma pow2_add (a b : Z) : 2 ^ (a + b) == 2 ^ a * 2 ^ b.
Proof. apply Qpower_plus. discriminate. Qed.

Lemma pow2_succ (a : Z) : 2 ^ (a + 1) == 2 * 2 ^ a.
Proof. rewrite pow2_add. change (2 ^ 1) with 2. ring. Qed.

Lemma pow2_pred (a : Z) : 2 * 2 ^ (a - 1) == 2 ^ a.
Proof.
  rewrite <- pow2_succ. replace (a - 1 + 1)%Z with a by lia. reflexivity.
Qed.

Lemma pow2_Z (n : Z) : (0 <= n)%Z -> inject_Z (2 ^ n) == 2 ^ n.
Proof. intros. apply (Zpower_Qpower 2 n). assumption. Qed.

Lemma pow2_le (a b : Z) : (a <= b)%Z -> 2 ^ a <= 2 ^ b.
Proof. intros. apply Qpower_le_compat_l; [assumption | lra]. Qed.

Lemma Q_as_fraction (q : Q) :
  q * inject_Z (Zpos (Qden q)) == inject_Z (Qnum q).
Proof. destruct q as [n d]. unfold Qeq, Qmult, inject_Z. simpl. lia. Qed.

Lemma Qnum_pos (q : Q) : 0 < q -> (0 < Qnum q)%Z.
Proof. destruct q as [n d]. unfold Qlt. simpl. lia. Qed.

(** [ilog2] brackets its argument between two consecutive powers of 2. *)
Lemma ilog2_spec (q : Q) :
  0 < q -> 2 ^ ilog2 q <= q /\ q < 2 ^ (ilog2 q + 1).
Proof.
  intros Hq. unfold ilog2.
  set (n := Qnum q). set (d := Zpos (Qden q)).
  assert (Hn : (0 < n)%Z) by (apply Qnum_pos; assumption).
  assert (Hd : (0 < d)%Z) by (subst d; lia).
  destruct (Z.log2_spec n Hn) as [Hn1 Hn2].
  destruct (Z.log2_spec d Hd) as [Hd1 Hd2].
  set (a := Z.log2 n) in *. set (b := Z.log2 d) in *.
  assert (Ha : (0 <= a)%Z) by apply Z.log2_nonneg.
  assert (Hb : (0 <= b)%Z) by apply Z.log2_nonneg.
  pose proof (Q_as_fraction q) as Hfrac. fold n d in Hfrac.
  assert (Qn1 : 2 ^ a <= inject_Z n)
    by (rewrite <- pow2_Z by lia; rewrite <- Zle_Qle; lia).
  assert (Qn2 : inject_Z n < 2 * 2 ^ a).
  { rewrite <- pow2_succ, <- pow2_Z by lia. rewrite <- Zlt_Qlt.
    replace (a + 1)%Z with (Z.succ a) by lia. lia. }
  assert (Qd1 : 2 ^ b <= inject_Z d)
    by (rewrite <- pow2_Z by lia; rewrite <- Zle_Qle; lia).
  assert (Qd2 : inject_Z d < 2 * 2 ^ b).
  { rewrite <- pow2_succ, <- pow2_Z by lia. rewrite <- Zlt_Qlt.
    replace (b + 1)%Z with (Z.succ b) by lia. lia. }
  assert (Hab : 2 ^ a == 2 ^ (a - b) * 2 ^ b).
  { rewrite <- pow2_add. replace (a - b + b)%Z with a by lia. reflexivity. }
  pose proof (pow2_pos (a - b)) as Hl. pose proof (pow2_pos b) as Hpb.
  pose proof (pow2_pos a) as Hpa.
  assert (Hlo : 2 ^ (a - b - 1) <= q).
  { assert (2 * 2 ^ (a - b - 1) == 2 ^ (a - b)) by apply pow2_pred.
    assert (2 ^ (a - b) * 2 ^ b <= q * inject_Z d)
      by (rewrite <- Hab, Hfrac; exact Qn1).
    nra. }
  assert (Hhi : q < 2 ^ (a - b + 1)).
  { rewrite pow2_succ.
    assert (q * inject_Z d < 2 * (2 ^ (a - b) * 2 ^ b))
      by (rewrite <- Hab, Hfrac; exact Qn2).
    nra. }
  destruct (Qle_bool (2 ^ (a - b)) q) eqn:E.
  - apply Qle_bool_iff in E. split; assumption.
  - assert (~ 2 ^ (a - b) <= q) by (rewrite <- Qle_bool_iff; congruence).
    split; [assumption |].
    replace (a - b - 1 + 1)%Z with (a - b)%Z by lia. lra.
Qed.

Lemma ilog2_lt (q : Q) (n : Z) : 0 < q -> q < 2 ^ n -> (ilog2 q < n)%Z.
Proof.
  intros Hq Hn. destruct (ilog2_spec q Hq) as [H1 _].
  destruct (Z_lt_le_dec (ilog2 q) n) as [|Hc]; [assumption|].
  exfalso. pose proof (pow2_le _ _ Hc). lra.
Qed.

Lemma ilog2_ge (q : Q) (n : Z) : 0 < q -> 2 ^ n <= q -> (n <= ilog2 q)%Z.
Proof.
  intros Hq Hn. destruct (ilog2_spec q Hq) as [_ H2].
  destruct (Z_lt_le_dec (ilog2 q) n) as [Hc|]; [|assumption].
  exfalso. assert (2 ^ (ilog2 q + 1) <= 2 ^ n) by (apply pow2_le; lia). lra.
Qed.

(** [round_even] is within one half of its argument and never crosses
    an integer. *)
Lemma round_even_near (y : Q) :
  y - (1 # 2) <= inject_Z (round_even y) /\
  inject_Z (round_even y) <= y + (1 # 2).
Proof.
  unfold round_even.
  pose proof (Qfloor_le y) as H1. pose proof (Qlt_floor y) as H2.
  rewrite inject_Z_plus in H2. change (inject_Z 1) with 1 in H2.
  destruct (Qcompare_spec (y - inject_Z (Qfloor y)) (1 # 2)) as [E|E|E].
  - destruct (Z.even (Qfloor y)); rewrite ?inject_Z_plus;
      change (inject_Z 1) with 1; lra.
  - lra.
  - rewrite inject_Z_plus; change (inject_Z 1) with 1; lra.
Qed.

Lemma round_even_le (y : Q) (K : Z) :
  y <= inject_Z K -> (round_even y <= K)%Z.
Proof.
  intros H. unfold round_even.
  pose proof (Qfloor_resp_le _ _ H) as Hf. rewrite Qfloor_Z in Hf.
  pose proof (Qfloor_le y) as H1.
  destruct (Z.eq_dec (Qfloor y) K) as [->|Hne].
  - destruct (Qcompare_spec (y - inject_Z K) (1 # 2)) as [E|E|E];
      [lra | lia | lra].
  - destruct (y - inject_Z (Qfloor y) ?= 1 # 2);
      [destruct (Z.even _) | |]; lia.
Qed.

Lemma round_even_ge (y : Q) (K : Z) :
  inject_Z K <= y -> (K <= round_even y)%Z.
Proof.
  intros H. unfold round_even.
  pose proof (Qfloor_resp_le _ _ H) as Hf. rewrite Qfloor_Z in Hf.
  destruct (y - inject_Z (Qfloor y) ?= 1 # 2);
    [destruct (Z.even _) | |]; lia.
Qed.

Lemma scaled_integer (K e : Z) :
  (e <= 0)%Z -> inject_Z (K * 2 ^ (- e)) * 2 ^ e == inject_Z K.
Proof.
  intros He. rewrite inject_Z_mult, pow2_Z by lia.
  rewrite <- Qmult_assoc, <- pow2_add. replace (- e + e)%Z with 0%Z by lia.
  change (2 ^ 0) with 1. ring.
Qed.

(** Rounding a positive rational below [2^53]: the result is finite,
    stays on the same side of every integer, and in the normal range is
    within a relative error of [2^-53]. *)
Lemma binary64_pos_small (q : Q) :
  0 < q -> q < 2 ^ 53 ->
  exists r, binary64_pos q = Finite r /\
    (forall K : Z, q <= inject_Z K -> r <= inject_Z K) /\
    (forall K : Z, inject_Z K <= q -> inject_Z K <= r) /\
    (2 ^ (-1022) <= q ->
     q - q * 2 ^ (-53) <= r /\ r <= q + q * 2 ^ (-53)).
Proof.
  intros Hq Hhi.
  destruct (ilog2_spec q Hq) as [Hl1 Hl2].
  pose proof (ilog2_lt q 53 Hq Hhi) as Hlt.
  unfold binary64_pos.
  set (e := Z.max (ilog2 q - 52) (-1074)).
  assert (He0 : (e <= 0)%Z) by (subst e; lia).
  set (m := round_even (q / 2 ^ e)).
  pose proof (pow2_pos e) as He.
  assert (Hy : q / 2 ^ e * 2 ^ e == q) by (field; lra).
  set (r := inject_Z m * 2 ^ e) in *.
  assert (Hup : forall K : Z, q <= inject_Z K -> r <= inject_Z K).
  { intros K HKq. unfold r. rewrite <- (scaled_integer K e He0).
    apply Qmult_le_compat_r; [| lra]. rewrite <- Zle_Qle.
    apply round_even_le. apply Qmult_le_r with (z := 2 ^ e); [assumption|].
    rewrite Hy, scaled_integer; assumption. }
  assert (Hdn : forall K : Z, inject_Z K <= q -> inject_Z K <= r).
  { intros K HKq. unfold r. rewrite <- (scaled_integer K e He0).
    apply Qmult_le_compat_r; [| lra]. rewrite <- Zle_Qle.
    apply round_even_ge. apply Qmult_le_r with (z := 2 ^ e); [assumption|].
    rewrite Hy, scaled_integer; assumption. }
  assert (Hr53 : r <= 2 ^ 53).
  { rewrite <- (pow2_Z 53) by lia. apply Hup. rewrite pow2_Z by lia. lra. }
  assert (Herr : 2 ^ (-1022) <= q -> 2 ^ e * (1 # 2) <= q * 2 ^ (-53)).
  { intros Hn. pose proof (ilog2_ge q (-1022) Hq Hn) as Hge.
    assert (Ee : e = (ilog2 q - 52)%Z) by (subst e; lia).
    assert (E1 : 2 ^ ilog2 q == 2 ^ e * 2 ^ 52).
    { rewrite <- pow2_add, Ee.
      replace (ilog2 q - 52 + 52)%Z with (ilog2 q) by lia. reflexivity. }
    assert (E2 : 2 ^ 52 * 2 ^ (-53) == 1 # 2) by reflexivity.
    assert (H3 : 2 ^ ilog2 q * 2 ^ (-53) <= q * 2 ^ (-53)).
    { apply Qmult_le_compat_r; [assumption | apply Qlt_le_weak, pow2_pos]. }
    rewrite E1 in H3. rewrite <- Qmult_assoc, E2 in H3. exact H3. }
  destruct (round_even_near (q / 2 ^ e)) as [Hm1 Hm2]. fold m in Hm1, Hm2.
  assert (Hlo' : q - 2 ^ e * (1 # 2) <= r).
  { assert ((q / 2 ^ e - (1 # 2)) * 2 ^ e <= inject_Z m * 2 ^ e)
      by (apply Qmult_le_compat_r; lra).
    assert ((q / 2 ^ e - (1 # 2)) * 2 ^ e == q - 2 ^ e * (1 # 2))
      by (field; lra).
    unfold r. lra. }
  assert (Hhi' : r <= q + 2 ^ e * (1 # 2)).
  { assert (inject_Z m * 2 ^ e <= (q / 2 ^ e + (1 # 2)) * 2 ^ e)
      by (apply Qmult_le_compat_r; lra).
    assert ((q / 2 ^ e + (1 # 2)) * 2 ^ e == q + 2 ^ e * (1 # 2))
      by (field; lra).
    unfold r. lra. }
  exists (Qred r). split; [| split; [| split]].
  - destruct (Qle_bool (2 ^ 1024) r) eqn:E; [| reflexivity].
    apply Qle_bool_iff in E. exfalso.
    assert (2 ^ 53 < 2 ^ 1024) by reflexivity. lra.
  - intros K HK. rewrite Qred_correct. auto.
  - intros K HK. rewrite Qred_correct. auto.
  - intros Hn. specialize (Herr Hn). rewrite Qred_correct. lra.
Qed.

Lemma binary64_pos_lower (q : Q) (K : Z) :
  0 < q -> (K <= 2 ^ 53)%Z -> inject_Z K <= q -> at_least K (binary64_pos q).
Proof.
  intros Hq HK HKq.
  destruct (Qlt_le_dec q (2 ^ 53)) as [Hs|Hb].
  - destruct (binary64_pos_small q Hq Hs) as (r & -> & _ & Hdn & _).
    simpl. auto.
  - destruct (ilog2_spec q Hq) as [Hl1 Hl2].
    pose proof (ilog2_ge q 53 Hq Hb) as Hge.
    unfold binary64_pos. rewrite Z.max_l by lia.
    set (e := (ilog2 q - 52)%Z). set (m := round_even (q / 2 ^ e)).
    pose proof (pow2_pos e) as He.
    assert (E1 : 2 ^ ilog2 q == 2 ^ 52 * 2 ^ e).
    { rewrite <- pow2_add. subst e.
      replace (52 + (ilog2 q - 52))%Z with (ilog2 q) by lia. reflexivity. }
    assert (Hm : (2 ^ 52 <= m)%Z).
    { apply round_even_ge. rewrite pow2_Z by lia.
      apply Qmult_le_r with (z := 2 ^ e); [assumption|].
      assert (q / 2 ^ e * 2 ^ e == q) by (field; lra). lra. }
    assert (Hr : 2 ^ 53 <= inject_Z m * 2 ^ e).
    { assert (2 ^ 1 <= 2 ^ e) by (apply pow2_le; subst e; lia).
      change (2 ^ 1) with 2 in H.
      assert (2 ^ 52 <= inject_Z m)
        by (rewrite <- pow2_Z by lia; rewrite <- Zle_Qle; assumption).
      assert (2 ^ 53 == 2 ^ 52 * 2) by reflexivity.
      assert (0 < 2 ^ 52) by apply pow2_pos. nra. }
    destruct (Qle_bool _ _); simpl; [exact I|].
    rewrite Qred_correct.
    assert (inject_Z K <= 2 ^ 53)
      by (rewrite <- pow2_Z by lia; rewrite <- Zle_Qle; assumption).
    lra.
Qed.

Lemma binary64_small (q : Q) :
  0 <= q -> q < 2 ^ 53 ->
  exists r, binary64 q = Finite r /\
    (forall K : Z, q <= inject_Z K -> r <= inject_Z K) /\
    (forall K : Z, inject_Z K <= q -> inject_Z K <= r) /\
    (2 ^ (-1022) <= q ->
     q - q * 2 ^ (-53) <= r /\ r <= q + q * 2 ^ (-53)).
Proof.
  intros H0 Hhi. unfold binary64.
  destruct (Qcompare_spec q 0) as [E|E|E].
  - exists 0. split; [reflexivity|]. rewrite E. repeat split; intros; lra.
  - lra.
  - apply binary64_pos_small; assumption.
Qed.

Lemma binary64_exact (q : Q) (k : Z) :
  q == inject_Z k -> (Z.abs k < 2 ^ 53)%Z -> represents (binary64 q) k.
Proof.
  intros Hq Hk. unfold binary64.
  assert (Hk' : - 2 ^ 53 < inject_Z k /\ inject_Z k < 2 ^ 53).
  { rewrite <- (pow2_Z 53) by lia. rewrite <- inject_Z_opp, <- !Zlt_Qlt. lia. }
  destruct (Qcompare_spec q 0) as [E|E|E].
  - exists 0. split; [reflexivity|]. rewrite <- Hq, E. reflexivity.
  - assert (Hp : 0 < - q) by lra. assert (Hs : - q < 2 ^ 53) by lra.
    destruct (binary64_pos_small (- q) Hp Hs) as (r & -> & Hup & Hdn & _).
    exists (Qred (- r)). split; [reflexivity|]. rewrite Qred_correct.
    specialize (Hup (- k)%Z). specialize (Hdn (- k)%Z).
    rewrite inject_Z_opp in Hup, Hdn. 
    assert (r <= - inject_Z k) by (apply Hup; lra).
    assert (- inject_Z k <= r) by (apply Hdn; lra). lra.
  - assert (Hs : q < 2 ^ 53) by lra.
    destruct (binary64_pos_small q E Hs) as (r & -> & Hup & Hdn & _).
    exists r. split; [reflexivity|].
    assert (r <= inject_Z k) by (apply Hup; lra).
    assert (inject_Z k <= r) by (apply Hdn; lra). lra.
Qed.

Lemma ofZ_represents (z : Z) : (Z.abs z < 2 ^ 53)%Z -> represents (ofZ z) z.
Proof. intros. apply binary64_exact; [reflexivity | assumption]. Qed.

Lemma Qfloor_unique (y : Q) (n : Z) :
  inject_Z n <= y -> y < inject_Z n + 1 -> Qfloor y = n.
Proof.
  intros H1 H2. pose proof (Qfloor_le y) as H3. pose proof (Qlt_floor y) as H4.
  rewrite inject_Z_plus in H4. change (inject_Z 1) with 1 in H4.
  assert (inject_Z n < inject_Z (Qfloor y) + 1) by lra.
  assert (inject_Z (Qfloor y) < inject_Z n + 1) by lra.
  change 1 with (inject_Z 1) in *. rewrite <- inject_Z_plus in *.
  rewrite <- Zlt_Qlt in *. lia.
Qed.

Lemma Qfloor_represented (q : Q) (z : Z) : q == inject_Z z -> Qfloor q = z.
Proof. intros H. apply Qfloor_unique; lra. Qed.

(** The quotient of a count by a total at least as large lies in [0,1]. *)
Lemma div_unit_interval (x y : number) (c t : Z) :
  represents x c -> represents y t -> (0 <= c <= t)%Z -> (0 < t)%Z ->
  exists r, div x y = Finite r /\ 0 <= r /\ r <= 1 /\ r <= inject_Z c /\
    ((0 < c)%Z -> (t < 2 ^ 32)%Z ->
      2 ^ (-33) <= r /\
      (r - r * 2 ^ (-52)) * inject_Z t <= inject_Z c /\
      inject_Z c <= (r + r * 2 ^ (-52)) * inject_Z t).
Proof.
  intros (a & -> & Ha) (b & -> & Hb) Hc Ht. simpl.
  assert (Hbpos : 0 < b) by (rewrite Hb; change 0 with (inject_Z 0); rewrite <- Zlt_Qlt; assumption).
  assert (Hale : a <= b) by (rewrite Ha, Hb; rewrite <- Zle_Qle; lia).
  assert (Ha0 : 0 <= a) by (rewrite Ha; change 0 with (inject_Z 0); rewrite <- Zle_Qle; lia).
  destruct (Qeq_bool b 0) eqn:E; [apply Qeq_bool_iff in E; lra|].
  assert (Hx0 : 0 <= a / b) by (apply Qle_shift_div_l; lra).
  assert (Hx1 : a / b <= 1) by (apply Qle_shift_div_r; lra).
  assert (Hxs : a / b < 2 ^ 53) by (assert (1 < 2 ^ 53) by reflexivity; lra).
  destruct (binary64_small (a / b) Hx0 Hxs) as (r & -> & Hup & Hdn & Herr).
  exists r. split; [reflexivity|]. split; [apply (Hdn 0%Z); exact Hx0|].
  split; [apply (Hup 1%Z); exact Hx1|].
  assert (Hb1 : 1 <= b)
    by (rewrite Hb; change 1 with (inject_Z 1); rewrite <- Zle_Qle; lia).
  split.
  { apply Hup. rewrite <- Ha. apply Qle_shift_div_r; [lra | nra]. }
  intros Hc0 Ht32.
  assert (Hb32 : b < 2 ^ 32).
  { rewrite Hb. rewrite <- (pow2_Z 32) by lia. rewrite <- Zlt_Qlt. assumption. }
  assert (Ha1 : 1 <= a) by (rewrite Ha; change 1 with (inject_Z 1); rewrite <- Zle_Qle; lia).
  assert (Hxb : a / b * b == a) by (field; lra).
  assert (Hxlo : 2 ^ (-32) <= a / b).
  { apply Qle_shift_div_l; [assumption|].
    change (2 ^ (-32)) with (1 # 4294967296). change (2 ^ 32) with 4294967296 in Hb32.
    nra. }
  assert (Hn : 2 ^ (-1022) <= a / b).
  { assert (2 ^ (-1022) <= 2 ^ (-32)) by (apply pow2_le; lia). lra. }
  destruct (Herr Hn) as [He1 He2].
  change (2 ^ (-53)) with (1 # 9007199254740992) in He1, He2.
  change (2 ^ (-32)) with (1 # 4294967296) in Hxlo.
  assert (G1 : r - r * (1 # 4503599627370496) <= a / b) by lra.
  assert (G2 : a / b <= r + r * (1 # 4503599627370496)) by lra.
  apply (Qmult_le_compat_r _ _ b) in G1; [| lra].
  apply (Qmult_le_compat_r _ _ b) in G2; [| lra].
  rewrite Hxb in G1, G2. rewrite <- Hb, <- Ha.
  split; [| split; assumption].
  apply Qle_trans with (1 # 8589934592); [discriminate | lra].
Qed.

Lemma scaled_round (x y : number) (c t w : Z) :
  represents x c -> represents y t -> (0 <= c <= t)%Z -> (0 < t)%Z ->
  (0 < w <= 1000)%Z ->
  exists f : Z,
    Math_round (mul (div x y) (Finite (inject_Z w))) = Finite (inject_Z f) /\
    (0 <= f <= w)%Z /\
    ((t < 2 ^ 32)%Z -> (- t <= 2 * t * f - 2 * w * c <= t)%Z).
Proof.
  intros Hx Hy Hc Ht Hw.
  destruct (div_unit_interval x y c t Hx Hy Hc Ht)
    as (r1 & -> & Hr0 & Hr1 & Hrc & Herr1).
  set (W := inject_Z w). set (T := inject_Z t). set (C := inject_Z c).
  assert (HW : 0 < W /\ W <= 1000).
  { unfold W. change 0 with (inject_Z 0). change 1000 with (inject_Z 1000).
    rewrite <- Zlt_Qlt, <- Zle_Qle. lia. }
  assert (HT : 0 < T)
    by (unfold T; change 0 with (inject_Z 0); rewrite <- Zlt_Qlt; lia).
  simpl. fold W.
  assert (Hp0 : 0 <= r1 * W) by nra.
  assert (HpW : r1 * W <= W) by nra.
  assert (Hps : r1 * W < 2 ^ 53)
    by (assert (1000 < 2 ^ 53) by reflexivity; lra).
  destruct (binary64_small (r1 * W) Hp0 Hps) as (r2 & -> & Hup & Hdn & Herr2).
  simpl. set (f := Qfloor (r2 + (1 # 2))).
  pose proof (Qfloor_le (r2 + (1 # 2))) as Hf1.
  pose proof (Qlt_floor (r2 + (1 # 2))) as Hf2.
  fold f in Hf1, Hf2. rewrite inject_Z_plus in Hf2.
  change (inject_Z 1) with 1 in Hf2.
  assert (Hr20 : 0 <= r2) by (apply (Hdn 0%Z); exact Hp0).
  assert (Hr2W : r2 <= W) by (apply (Hup w); exact HpW).
  exists f. split; [reflexivity|].
  assert (Hf0 : (0 <= f)%Z).
  { assert (inject_Z (-1) < inject_Z f)
      by (change (inject_Z (-1)) with (-1); lra).
    rewrite <- Zlt_Qlt in H. lia. }
  assert (HfW : (f <= w)%Z).
  { assert (inject_Z f < inject_Z (w + 1)).
    { rewrite inject_Z_plus. change (inject_Z 1) with 1. fold W. lra. }
    rewrite <- Zlt_Qlt in H. lia. }
  split; [lia|]. intros Ht32.
  destruct (Z.eq_dec c 0%Z) as [->|Hc0].
  - assert (Hr1z : r1 == 0) by (change (inject_Z 0) with 0 in Hrc; lra).
    assert (Hr2z : r2 <= 0).
    { apply (Hup 0%Z). rewrite Hr1z. change (inject_Z 0) with 0. lra. }
    assert (f = 0%Z).
    { apply Qfloor_unique; change (inject_Z 0) with 0; lra. }
    lia.
  - destruct Herr1 as (Hr1lo & F1 & F2); [lia | assumption |].
    fold T C in F1, F2.
    assert (Hn : 2 ^ (-1022) <= r1 * W).
    { assert (1 <= W).
      { unfold W. change 1 with (inject_Z 1). rewrite <- Zle_Qle. lia. }
      assert (2 ^ (-1022) <= 2 ^ (-33)) by (apply pow2_le; lia). nra. }
    destruct (Herr2 Hn) as [F3 F4].
    change (2 ^ (-53)) with (1 # 9007199254740992) in F3, F4.
    change (2 ^ (-52)) with (1 # 4503599627370496) in F1, F2.
    apply (Qmult_le_compat_r _ _ W) in F1; [| lra].
    apply (Qmult_le_compat_r _ _ W) in F2; [| lra].
    apply (Qmult_le_compat_r _ _ T) in F3; [| lra].
    apply (Qmult_le_compat_r _ _ T) in F4; [| lra].
    apply (Qmult_le_compat_r _ _ T) in Hf1; [| lra].
    apply (Qmult_lt_compat_r _ _ T) in Hf2; [| lra].
    assert (HE : 0 <= C * W /\ C * W <= 4294967296000).
    { unfold C, W. rewrite <- inject_Z_mult.
      change 0 with (inject_Z 0).
      change 4294967296000 with (inject_Z 4294967296000).
      rewrite <- !Zle_Qle. nia. }
    split.
    + destruct (Z_le_gt_dec (- t) (2 * t * f - 2 * w * c)) as [|Hcontra];
        [assumption | exfalso].
      assert (Hq : inject_Z (2 * t * f - 2 * w * c) <= inject_Z (- t - 1))
        by (rewrite <- Zle_Qle; lia).
      unfold Z.sub in Hq.
      rewrite !inject_Z_plus, !inject_Z_opp, !inject_Z_mult in Hq.
      fold T C W in Hq. change (inject_Z 2) with 2 in Hq.
      change (inject_Z 1) with 1 in Hq. lra.
    + destruct (Z_le_gt_dec (2 * t * f - 2 * w * c) t) as [|Hcontra];
        [assumption | exfalso].
      assert (Hq : inject_Z (t + 1) <= inject_Z (2 * t * f - 2 * w * c))
        by (rewrite <- Zle_Qle; lia).
      unfold Z.sub in Hq.
      rewrite !inject_Z_plus, !inject_Z_opp, !inject_Z_mult in Hq.
      fold T C W in Hq. change (inject_Z 2) with 2 in Hq.
      change (inject_Z 1) with 1 in Hq. lra.
Qed.

End NumberFacts.

(** ** The progress bar *)

Module ProgressFacts.
Import JS Effect ProgressBarService Spec NumberFacts.

Lemma barWidth_value : barWidth = Finite (inject_Z 30).
Proof. vm_compute. reflexivity. Qed.

Lemma hundred_value : ofZ 100 = Finite (inject_Z 100).
Proof. vm_compute. reflexivity. Qed.

Lemma repeat_count_represented (x : number) (n : Z) :
  represents x n -> 0 <= n -> repeat_count x = Some (Z.to_nat n).
Proof.
  intros (q & -> & Hq) Hn. unfold repeat_count.
  assert (Hneg : is_neg q = false).
  { unfold is_neg. apply Z.ltb_ge.
    assert (0 <= q)%Q by (rewrite Hq; change 0%Q with (inject_Z 0); rewrite <- Zle_Qle; lia).
    destruct q as [qn qd]. unfold Qle in H. simpl in *. lia. }
  rewrite Hneg, (Qfloor_represented q n Hq).
  destruct (n <? 0) eqn:E; [apply Z.ltb_lt in E; lia | reflexivity].
Qed.

Lemma repeat_count_negative (x : number) (n : Z) :
  represents x n -> n < 0 -> repeat_count x = None.
Proof.
  intros (q & -> & Hq) Hn. unfold repeat_count.
  assert (Hneg : is_neg q = true).
  { unfold is_neg. apply Z.ltb_lt.
    assert (q < 0)%Q by (rewrite Hq; change 0%Q with (inject_Z 0); rewrite <- Zlt_Qlt; lia).
    destruct q as [qn qd]. unfold Qlt in H. simpl in *. lia. }
  rewrite Hneg.
  assert (Qceiling q = n) as ->.
  { unfold Qceiling. rewrite (Qfloor_represented (- q) (- n)); [lia|].
    rewrite Hq, inject_Z_opp. reflexivity. }
  destruct (n <? 0) eqn:E; [reflexivity | apply Z.ltb_ge in E; lia].
Qed.

Lemma represents_inject (z : Z) : represents (Finite (inject_Z z)) z.
Proof. exists (inject_Z z). split; reflexivity. Qed.

Lemma length_repeat_unit (a : N) (n : nat) :
  length (concat (replicate n [a])) = n.
Proof. induction n as [|n IH]; simpl; [reflexivity | rewrite IH; reflexivity]. Qed.

Lemma bar_valid (x y : number) (c t : Z) :
  represents x c -> represents y t -> 0 <= c <= t -> 0 < t ->
  exists f : Z,
    filledWidth x y = Finite (inject_Z f) /\ 0 <= f <= 30 /\
    represents (emptyWidth x y) (30 - f) /\
    (t < 2 ^ 32 -> - t <= 2 * t * f - 60 * c <= t) /\
    bar x y = Some (concat (replicate (Z.to_nat f) block) ++
                    concat (replicate (Z.to_nat (30 - f)) space)).
Proof.
  intros Hx Hy Hc Ht.
  destruct (scaled_round x y c t 30 Hx Hy Hc Ht) as (f & Hf & Hf30 & Hnear);
    [lia|].
  assert (Hfill : filledWidth x y = Finite (inject_Z f))
    by (unfold filledWidth; rewrite barWidth_value; exact Hf).
  assert (Hempty : represents (emptyWidth x y) (30 - f)).
  { unfold emptyWidth. rewrite Hfill, barWidth_value. cbn [sub].
    apply binary64_exact; [| lia].
    unfold Z.sub. rewrite inject_Z_plus, inject_Z_opp. reflexivity. }
  exists f. split; [assumption|]. split; [lia|]. split; [assumption|]. split.
  - intros H. specialize (Hnear H). lia.
  - unfold bar, String_repeat. rewrite Hfill.
    rewrite (repeat_count_represented _ f (represents_inject f)) by lia.
    cbn [mbind option_bind]. rewrite (repeat_count_represented _ (30 - f) Hempty) by lia.
    reflexivity.
Qed.

Lemma percentage_valid (x y : number) (c t : Z) :
  represents x c -> represents y t -> 0 <= c <= t -> 0 < t ->
  exists p : Z,
    percentage x y = Finite (inject_Z p) /\ 0 <= p <= 100 /\
    (t < 2 ^ 32 -> nearest p (100 * c) t).
Proof.
  intros Hx Hy Hc Ht.
  destruct (scaled_round x y c t 100 Hx Hy Hc Ht) as (p & Hp & Hp100 & Hnear);
    [lia|].
  exists p. split; [| split; [lia|]].
  - unfold percentage. rewrite hundred_value. exact Hp.
  - intros H. specialize (Hnear H). unfold nearest. lia.
Qed.

Lemma Number_toString_represented (x : number) (z : Z) :
  represents x z -> Number_toString x = Z_toString z.
Proof.
  intros (q & -> & Hq). simpl. rewrite (Qfloor_represented q z Hq). reflexivity.
Qed.

Lemma length_bar (f : Z) :
  0 <= f <= 30 ->
  length (concat (replicate (Z.to_nat f) block)
          ++ concat (replicate (Z.to_nat (30 - f)) space)) = 30%nat.
Proof.
  intros Hf. rewrite length_app. unfold block, space.
  change (u " ") with [32%N]. rewrite !length_repeat_unit. lia.
Qed.

(** The message of a valid pair of counts. *)
Lemma message_valid (x y : number) (c t : Z) :
  represents x c -> represents y t -> 0 <= c <= t -> 0 < t ->
  exists f p : Z,
    filledWidth x y = Finite (inject_Z f) /\
    percentage x y = Finite (inject_Z p) /\
    0 <= f <= 30 /\ 0 <= p <= 100 /\
    (t < 2 ^ 32 -> nearest f (30 * c) t /\ nearest p (100 * c) t) /\
    createSyncProgressMessage (E := False) x y = Success (progress_text f c t p).
Proof.
  intros Hx Hy Hc Ht.
  destruct (bar_valid x y c t Hx Hy Hc Ht) as (f & Hf & Hf30 & _ & Hfn & Hbar).
  destruct (percentage_valid x y c t Hx Hy Hc Ht) as (p & Hp & Hp100 & Hpn).
  exists f, p. repeat (split; [first [assumption | lia] |]). split.
  - intros H. split; [| auto]. specialize (Hfn H). unfold nearest. lia.
  - unfold createSyncProgressMessage. rewrite Hbar, Hp.
    rewrite (Number_toString_represented x c Hx).
    rewrite (Number_toString_represented y t Hy).
    rewrite (Number_toString_represented _ p (represents_inject p)).
    unfold progress_text. rewrite <- !app_assoc. reflexivity.
Qed.

Lemma is_neg_spec (q : Q) : is_neg q = true <-> (q < 0)%Q.
Proof.
  unfold is_neg. rewrite Z.ltb_lt. destruct q as [n d].
  unfold Qlt. simpl. lia.
Qed.

Lemma repeat_count_below (q : Q) : (q <= -1)%Q -> repeat_count (Finite q) = None.
Proof.
  intros Hq. unfold repeat_count.
  assert (Hneg : is_neg q = true) by (apply is_neg_spec; lra).
  rewrite Hneg. unfold Qceiling.
  assert (1 <= Qfloor (- q)).
  { change 1 with (Qfloor (inject_Z 1)). apply Qfloor_resp_le.
    change (inject_Z 1) with 1%Q. lra. }
  destruct (- Qfloor (- q) <? 0) eqn:E; [reflexivity | apply Z.ltb_ge in E; lia].
Qed.

(** Beyond twice the total the filled part is at least 60 cells. *)
Lemma filledWidth_overfull (x y : number) (c t : Z) :
  represents x c -> represents y t -> 0 < t -> 2 * t <= c ->
  filledWidth x y = Infinity false \/
  exists f, filledWidth x y = Finite (inject_Z f) /\ 60 <= f.
Proof.
  intros (a & -> & Ha) (b & -> & Hb) Ht Hc.
  cut (match filledWidth (Finite a) (Finite b) with
       | Infinity false => True
       | Finite v => exists f, v = inject_Z f /\ 60 <= f
       | _ => False
       end).
  { destruct (filledWidth _ _) as [| [|] | v]; try contradiction.
    - left; reflexivity.
    - intros (f & -> & Hf). right. exists f. split; [reflexivity | assumption]. }
  assert (Hbpos : (0 < b)%Q)
    by (rewrite Hb; change 0%Q with (inject_Z 0); rewrite <- Zlt_Qlt; assumption).
  assert (Hab : (2 * b <= a)%Q).
  { rewrite Ha, Hb. change 2%Q with (inject_Z 2).
    rewrite <- inject_Z_mult, <- Zle_Qle. assumption. }
  assert (Hq2 : (2 <= a / b)%Q) by (apply Qle_shift_div_l; lra).
  unfold filledWidth. rewrite barWidth_value. cbn [div].
  destruct (Qeq_bool b 0) eqn:E; [apply Qeq_bool_iff in E; exfalso; lra|].
  set (q := (a / b)%Q) in *. unfold binary64 at 1.
  destruct (Qcompare_spec q 0) as [E0|E0|E0]; [exfalso; lra | exfalso; lra |].
  pose proof (binary64_pos_lower q 2 E0 ltac:(lia) Hq2) as H1.
  destruct (binary64_pos q) as [| [|] | r1]; simpl in H1; try contradiction.
  - exact I.
  - cbn [mul]. change (inject_Z 2) with 2%Q in H1.
    change (inject_Z 30) with 30%Q.
    set (p := (r1 * 30)%Q).
    assert (Hp60 : (inject_Z 60 <= p)%Q)
      by (unfold p; change (inject_Z 60) with 60%Q; lra).
    assert (Hp : (0 < p)%Q) by (change (inject_Z 60) with 60%Q in Hp60; lra).
    unfold binary64 at 1.
    destruct (Qcompare_spec p 0) as [E1|E1|E1]; [exfalso; lra | exfalso; lra |].
    pose proof (binary64_pos_lower p 60 E1 ltac:(lia) Hp60) as H2.
    destruct (binary64_pos p) as [| [|] | r2]; simpl in H2; try contradiction.
    + exact I.
    + exists (Qfloor (r2 + (1 # 2))). split; [reflexivity|].
      change 60 with (Qfloor (inject_Z 60)). apply Qfloor_resp_le.
      change (inject_Z 60) with 60%Q in *. lra.
Qed.

(** A filled part of 60 cells or more makes the second [repeat] throw. *)
Lemma emptyWidth_negative (f : Z) :
  60 <= f -> repeat_count (sub barWidth (Finite (inject_Z f))) = None.
Proof.
  intros Hf. rewrite barWidth_value. cbn [sub].
  set (d := (inject_Z 30 - inject_Z f)%Q).
  assert (Hd : (d <= -30)%Q).
  { unfold d, Qminus. rewrite <- inject_Z_opp, <- inject_Z_plus.
    change (-30)%Q with (inject_Z (-30)). rewrite <- Zle_Qle. lia. }
  unfold binary64.
  destruct (Qcompare_spec d 0) as [E|E|E]; [exfalso; lra | | exfalso; lra].
  assert (Hpos : (0 < - d)%Q) by lra.
  assert (H30 : (inject_Z 30 <= - d)%Q) by (change (inject_Z 30) with 30%Q; lra).
  pose proof (binary64_pos_lower (- d) 30 Hpos ltac:(lia) H30) as H3.
  destruct (binary64_pos (- d)) as [| [|] | r3]; simpl in H3; try contradiction.
  - reflexivity.
  - unfold negate. apply repeat_count_below.
    rewrite Qred_correct. change (inject_Z 30) with 30%Q in H3. lra.
Qed.

Lemma bar_overfull (x y : number) (c t : Z) :
  represents x c -> represents y t -> 0 < t -> 2 * t <= c ->
  bar x y = None.
Proof.
  intros Hx Hy Ht Hc. unfold bar, emptyWidth, String_repeat.
  destruct (filledWidth_overfull x y c t Hx Hy Ht Hc) as [-> | (f & -> & Hf)].
  - reflexivity.
  - rewrite (repeat_count_represented _ f (represents_inject f)) by lia.
    cbn [mbind option_bind]. rewrite (emptyWidth_negative f Hf). reflexivity.
Qed.

End ProgressFacts.

(** ** Claims about the progress bar *)

Section ProgressClaims.
Import JS Effect ProgressBarService Spec NumberFacts ProgressFacts.

(** The arithmetic of [JS] computes what the Standard Library's
    [SpecFloat] computes, on every pair [0 <= c <= 2 t], [t <= 48], for
    both scale factors of the progress bar. *)
Lemma binary64_agrees_with_SpecFloat :
  forallb (fun t =>
    forallb (fun c =>
      agrees_with_SpecFloat 30 c t && agrees_with_SpecFloat 100 c t)
      (seqZ 0 (2 * t + 1)))
    (seqZ 1 48) = true.
Proof. vm_compute. reflexivity. Qed.

(** C3, as stated, fails: with ties rounded up the line for 23 of 40
    would read 58%, the code prints 57%; with ties rounded to even the
    line for 1 of 8 would read 12%, the code prints 13%. *)
Lemma C3_rounding_counterexample :
  ~ renders_with round_half_up /\ ~ renders_with round_half_even.
Proof.
  split; intros H.
  - specialize (H 23 40 ltac:(lia) ltac:(lia)). vm_compute in H. discriminate H.
  - specialize (H 1 8 ltac:(lia) ltac:(lia)). vm_compute in H. discriminate H.
Qed.

(** C3, amended: for integer counts [0 <= c <= t], [0 < t < 2^32], the
    line is a 30-cell bar of [f] blocks and [30 - f] blanks followed by
    "c/t (p%)", where [f] and [p] are [Math.round] of the binary64
    products [(c/t)*30] and [(c/t)*100]; each is an integer nearest to
    the exact [30 c / t] and [100 c / t].  The lines for (0,10), (3,10)
    and (10,10) are the ones the specification lists. *)
Theorem C3_progress_message (completed total : number) (c t : Z) :
  represents completed c -> represents total t ->
  0 <= c <= t -> 0 < t < 2 ^ 32 ->
  (exists f p : Z,
     createSyncProgressMessage (E := False) completed total
       = Success (progress_text f c t p) /\
     filledWidth completed total = Finite (inject_Z f) /\
     percentage completed total = Finite (inject_Z p) /\
     0 <= f <= 30 /\ nearest f (30 * c) t /\ nearest p (100 * c) t) /\
  createSyncProgressMessage (E := False) (ofZ 0) (ofZ 10)
    = Success (progress_text 0 0 10 0) /\
  createSyncProgressMessage (E := False) (ofZ 3) (ofZ 10)
    = Success (progress_text 9 3 10 30) /\
  createSyncProgressMessage (E := False) (ofZ 10) (ofZ 10)
    = Success (progress_text 30 10 10 100).
Proof.
  intros Hx Hy Hc Ht. split.
  - destruct (message_valid completed total c t Hx Hy Hc ltac:(lia))
      as (f & p & Hf & Hp & Hf30 & _ & Hnear & Hmsg).
    destruct (Hnear ltac:(lia)) as [Hnf Hnp].
    exists f, p. split; [assumption |]. split; [assumption |].
    split; [assumption |]. split; [lia |]. split; assumption.
  - repeat split; vm_compute; reflexivity.
Qed.

(** C3 at 3 of 10. *)
Lemma C3_progress_message_witness :
  represents (ofZ 3) 3 /\ represents (ofZ 10) 10 /\
  0 <= 3 <= 10 /\ 0 < 10 < 2 ^ 32 /\
  exists f p : Z,
     createSyncProgressMessage (E := False) (ofZ 3) (ofZ 10)
       = Success (progress_text f 3 10 p) /\
     filledWidth (ofZ 3) (ofZ 10) = Finite (inject_Z f) /\
     percentage (ofZ 3) (ofZ 10) = Finite (inject_Z p) /\
     0 <= f <= 30 /\ nearest f (30 * 3) 10 /\ nearest p (100 * 3) 10.
Proof.
  assert (H3 : represents (ofZ 3) 3)
    by (exists (inject_Z 3); split; [vm_compute; reflexivity | reflexivity]).
  assert (H10 : represents (ofZ 10) 10)
    by (exists (inject_Z 10); split; [vm_compute; reflexivity | reflexivity]).
  split; [exact H3 |]. split; [exact H10 |].
  split; [lia |]. split; [lia |].
  exact (proj1 (C3_progress_message (ofZ 3) (ofZ 10) 3 10 H3 H10
                  ltac:(lia) ltac:(lia))).
Defined.

(** C9, as stated, fails: 101 of 100 violates [completed <= total], yet
    the filled width rounds to 30, the empty width is 0 and the builder
    succeeds. *)
Lemma C9_necessity_counterexample : ~ bound_is_necessary.
Proof.
  intros H. specialize (H 101 100 ltac:(lia) ltac:(lia)).
  assert (101 <= 100); [apply H; vm_compute; reflexivity | lia].
Qed.

(** C9, amended: for integer counts with [0 <= c <= t] and [0 < t] both
    repeat counts are non-negative, they add up to 30, the bar is 30
    cells wide and the builder succeeds; the bound cannot be dropped:
    whenever [2 t <= c] the empty width is negative and the builder dies
    with the [RangeError] of [repeat]. *)
Theorem C9_bar_width (completed total : number) (c t : Z) :
  represents completed c -> represents total t -> 0 < t ->
  (0 <= c <= t ->
   exists (f e : nat) (b : jsstring),
     repeat_count (filledWidth completed total) = Some f /\
     repeat_count (emptyWidth completed total) = Some e /\
     (f + e = 30)%nat /\
     bar completed total = Some b /\ length b = 30%nat /\
     isSuccess (createSyncProgressMessage (E := False) completed total) = true)
  /\
  (2 * t <= c ->
   bar completed total = None /\
   createSyncProgressMessage (E := False) completed total = Die RangeError).
Proof.
  intros Hx Hy Ht. split.
  - intros Hc.
    destruct (bar_valid completed total c t Hx Hy Hc Ht)
      as (f & Hf & Hf30 & He & _ & Hbar).
    exists (Z.to_nat f), (Z.to_nat (30 - f)). eexists.
    split; [rewrite Hf; apply repeat_count_represented;
            [apply represents_inject | lia] |].
    split; [apply repeat_count_represented; [assumption | lia] |].
    split; [lia |]. split; [exact Hbar |].
    split; [apply length_bar; assumption |].
    unfold createSyncProgressMessage. rewrite Hbar. reflexivity.
  - intros Hc. pose proof (bar_overfull completed total c t Hx Hy Ht Hc) as Hb.
    split; [assumption |]. unfold createSyncProgressMessage. rewrite Hb.
    reflexivity.
Qed.

(** C9 at 2 of 1. *)
Lemma C9_bar_width_witness :
  represents (ofZ 2) 2 /\ represents (ofZ 1) 1 /\ 0 < 1 /\
  (2 * 1 <= 2 ->
   bar (ofZ 2) (ofZ 1) = None /\
   createSyncProgressMessage (E := False) (ofZ 2) (ofZ 1) = Die RangeError).
Proof.
  assert (H2 : represents (ofZ 2) 2)
    by (exists (inject_Z 2); split; [vm_compute; reflexivity | reflexivity]).
  assert (H1 : represents (ofZ 1) 1)
    by (exists (inject_Z 1); split; [vm_compute; reflexivity | reflexivity]).
  split; [exact H2 |]. split; [exact H1 |]. split; [lia |].
  exact (proj2 (C9_bar_width (ofZ 2) (ofZ 1) 2 1 H2 H1 ltac:(lia))).
Defined.

End ProgressClaims.

(** ** The domain schema *)

Module TodoFacts.
Import JS Effect Todo Spec.

(** C10: the transformation of the [completed] field is a bijection
    between the booleans and the two stored texts: encoding the decoding
    of a boolean gives it back, decoding the encoding of a status gives
    it back, and the two statuses are different texts. *)
Theorem C10_completed_field_bijection :
  (forall b : bool, CompletedField_encode (CompletedField_decode b) = b) /\
  (forall s : CompletionStatus,
     CompletedField_decode (CompletedField_encode s) = s) /\
  (forall s : CompletionStatus,
     status_text s = u "completed" \/ status_text s = u "pending") /\
  u "completed" <> u "pending".
Proof.
  split; [intros []; reflexivity |]. split; [intros []; reflexivity |].
  split; [intros []; [left | right]; reflexivity | discriminate].
Qed.

(** Every decoded [Todo] has a title of 1 to 255 code units. *)
Lemma decodeUnknown_title (input : unknown) (todo : Todo) :
  decodeUnknown input = Some todo ->
  (1 <= length (title todo) <= 255)%nat.
Proof.
  intros H. destruct input as [| | | | | props |]; try discriminate H.
  unfold decodeUnknown in H.
  apply bind_Some in H as (uid & _ & H).
  apply bind_Some in H as (tid & _ & H).
  apply bind_Some in H as (ttl & Ht & H).
  apply bind_Some in H as (st & _ & H).
  injection H as <-. cbn [title].
  apply bind_Some in Ht as (v & _ & Ht).
  destruct v as [| | | | s | |]; try discriminate Ht. unfold TodoTitle in Ht.
  destruct ((1 <=? length s)%nat && (length s <=? 255)%nat) eqn:E;
    [| discriminate Ht].
  injection Ht as <-. apply andb_prop in E as [E1 E2].
  apply Nat.leb_le in E1, E2. lia.
Qed.

(** A title of 255 code units is accepted, one of 256 and the empty one
    are rejected. *)
Lemma TodoTitle_bounds :
  TodoTitle (UString (replicate 255 97%N)) = Some (replicate 255 97%N) /\
  TodoTitle (UString (replicate 256 97%N)) = None /\
  TodoTitle (UString []) = None.
Proof. repeat split; vm_compute; reflexivity. Qed.

(** C8 at its failing input: the schema accepts an object whose [id] is
    [0] and whose [userId] is [-1]; [Schema.Int] asks for an integer,
    not for a positive one. *)
Theorem C8_nonpositive_ids_accepted :
  decodeUnknown (todo_object (-1) 0 (u "x") false)
  = Some {| userId := -1; id := 0; title := u "x";
            completed := status_pending |}.
Proof. vm_compute. reflexivity. Qed.


End TodoFacts.

(** ** The store *)

Module DatabaseFacts.
Import JS Effect Todo DatabaseService Spec TodoFacts.

(** [max_rowid] bounds every key of the table. *)
Lemma max_rowid_ge (m : gmap Z row) (k : Z) (r : row) :
  m !! k = Some r -> k <= max_rowid m.
Proof.
  unfold max_rowid. revert k r.
  apply (map_fold_weak_ind
           (fun acc (m : gmap Z row) => forall k r, m !! k = Some r -> k <= acc)).
  - intros k r H. rewrite lookup_empty in H. discriminate.
  - intros i x m' acc Hi IH k r H.
    destruct (decide (i = k)) as [->|Hne].
    + lia.
    + rewrite lookup_insert_ne in H by assumption. specialize (IH k r H). lia.
Qed.

(** The key of an [AUTOINCREMENT] insert is not in use. *)
Lemma next_rowid_fresh (db : database) : todos db !! next_rowid db = None.
Proof.
  destruct (todos db !! next_rowid db) as [r|] eqn:E; [|reflexivity].
  apply max_rowid_ge in E. unfold next_rowid in E. lia.
Qed.

Lemma getTodoById_lookup (id : Z) (db : database) (r : row) :
  todos db !! id = Some r ->
  getTodoById id db =
    match decodeUnknown (row_object id r) with
    | Some todo => Success todo
    | None => Failure (DatabaseError (SchemaDecodeText id ParseErrorText))
    end.
Proof. intros H. unfold getTodoById. rewrite H. reflexivity. Qed.

Lemma decode_todo_object (a b : Z) (t : jsstring) (c : bool) :
  decodeUnknown (todo_object a b t c) =
    userId ← UserId (UNumber (ofZ a));
    id ← TodoId (UNumber (ofZ b));
    title ← TodoTitle (UString t);
    Some {| userId := userId; id := id; title := title;
            completed := CompletedField_decode c |}.
Proof. reflexivity. Qed.

Lemma decode_invalid_title (a b : Z) (t : jsstring) (c : bool) :
  TodoTitle (UString t) = None -> decodeUnknown (todo_object a b t c) = None.
Proof.
  intros H. rewrite decode_todo_object, H.
  destruct (UserId _); [| reflexivity]. destruct (TodoId _); reflexivity.
Qed.

(** [createTodo] inserts before anything is validated: a title the
    schema rejects is stored, and only reading the row back fails. *)
Lemma createTodo_invalid_title (now : Z) (data : createData) (db : database) :
  TodoTitle (UString (data_title data)) = None ->
  exists r,
    fst (createTodo now data db)
      = {| todos := <[ next_rowid db := r ]> (todos db);
           sqlite_sequence := Z.max (sqlite_sequence db) (next_rowid db) |} /\
    row_title r = data_title data /\
    todos db !! next_rowid db = None /\
    snd (createTodo now data db)
      = Failure (DatabaseError (FailedToCreateText
                   (SchemaDecodeText (next_rowid db) ParseErrorText))).
Proof.
  intros H. unfold createTodo, insert_row. cbn [fst snd]. eexists.
  split; [reflexivity |]. split; [reflexivity |].
  split; [apply next_rowid_fresh |].
  erewrite getTodoById_lookup by (cbn [todos]; apply lookup_insert_eq).
  unfold row_object. cbn [row_title user_id row_completed].
  rewrite decode_invalid_title by assumption. reflexivity.
Qed.

(** C6 at its failing inputs: on the empty table, [createTodo] with the
    empty title fails only after the row is stored, and [createTodo] with
    the user id [0] succeeds. *)
Theorem C6_create_persists_invalid_input :
  createTodo 0 {| data_userId := 1; data_title := []; data_completed := None |}
    empty_database
  = ({| todos := {[ 1 := {| user_id := 1; row_title := [];
                            row_completed := status_pending;
                            created_at := 0; updated_at := 0 |} ]};
        sqlite_sequence := 1 |},
     Failure (DatabaseError (FailedToCreateText
                (SchemaDecodeText 1 ParseErrorText)))) /\
  snd (createTodo 0 {| data_userId := 0; data_title := u "x";
                       data_completed := None |} empty_database)
  = Success {| userId := 0; id := 1; title := u "x";
               completed := status_pending |}.
Proof. split; vm_compute; reflexivity. Qed.

(** Both status texts are truthy. *)
Lemma truthy_status (s : CompletionStatus) :
  truthy_string (status_text s) = true.
Proof. destruct s; reflexivity. Qed.

Lemma saveTodo_existing (now : Z) (todo : Todo) (db : database) (r : row) :
  todos db !! id todo = Some r ->
  saveTodo now todo db =
    let db' := {| todos := <[ id todo := written_row now (created_at r) todo ]>
                             (todos db);
                  sqlite_sequence := sqlite_sequence db |} in
    (db', catchAll (FailedToSaveText (id todo)) (getTodoById (id todo) db')).
Proof.
  intros H. unfold saveTodo. rewrite H, truthy_status. cbn [Z.ltb Z.compare].
  unfold update_row. cbn zeta.
  replace (alter _ (id todo) (todos db))
    with (<[ id todo := written_row now (created_at r) todo ]> (todos db));
    [reflexivity |].
  apply map_eq. intros k. destruct (decide (id todo = k)) as [<-|Hne].
  - rewrite lookup_insert_eq, lookup_alter_eq, H. reflexivity.
  - rewrite lookup_insert_ne, lookup_alter_ne by assumption. reflexivity.
Qed.

Lemma saveTodo_new (now : Z) (todo : Todo) (db : database) :
  todos db !! id todo = None ->
  saveTodo now todo db =
    let db' := {| todos := <[ id todo := written_row now now todo ]> (todos db);
                  sqlite_sequence := Z.max (sqlite_sequence db) (id todo) |} in
    (db', catchAll (FailedToSaveText (id todo)) (getTodoById (id todo) db')).
Proof.
  intros H. unfold saveTodo. rewrite H, truthy_status. reflexivity.
Qed.

Lemma getTodoById_saved (now created : Z) (todo : Todo) (m : gmap Z row) (s : Z) :
  getTodoById (id todo)
    {| todos := <[ id todo := written_row now created todo ]> m;
       sqlite_sequence := s |}
  = match decodeUnknown (row_object (id todo) (written_row now created todo)) with
    | Some todo => Success todo
    | None => Failure (DatabaseError
                         (SchemaDecodeText (id todo) ParseErrorText))
    end.
Proof. apply getTodoById_lookup. cbn [todos]. apply lookup_insert_eq. Qed.

(** Saving the same [Todo] twice leaves the table as saving it once
    does, [updated_at] apart: the second call returns what the first
    returned, every row shows the same columns and the key counter is
    unchanged.  When the id exists the first call overwrites [user_id],
    [title], [completed] and [updated_at] of that row and keeps
    [created_at]; when it does not, the row is inserted under the id
    supplied.  The row written is [written_row]. *)
Lemma saveTodo_twice (now1 now2 : Z) (todo : Todo) (db : database) :
  let '(db1, r1) := saveTodo now1 todo db in
  let '(db2, r2) := saveTodo now2 todo db1 in
  r2 = r1 /\
  observable <$> todos db2 = observable <$> todos db1 /\
  sqlite_sequence db2 = sqlite_sequence db1 /\
  (forall r, todos db !! id todo = Some r ->
     todos db1 = <[ id todo := written_row now1 (created_at r) todo ]> (todos db)) /\
  (todos db !! id todo = None ->
     todos db1 = <[ id todo := written_row now1 now1 todo ]> (todos db)).
Proof.
  assert (Hsecond : forall created m s,
    let db1 := {| todos := <[ id todo := written_row now1 created todo ]> m;
                  sqlite_sequence := s |} in
    snd (saveTodo now2 todo db1)
      = catchAll (FailedToSaveText (id todo)) (getTodoById (id todo) db1) /\
    observable <$> todos (fst (saveTodo now2 todo db1))
      = observable <$> todos db1 /\
    sqlite_sequence (fst (saveTodo now2 todo db1)) = sqlite_sequence db1).
  { intros created m s db1.
    rewrite (saveTodo_existing now2 todo db1 (written_row now1 created todo))
      by (cbn [todos db1]; apply lookup_insert_eq).
    cbn zeta. cbn [fst snd todos sqlite_sequence db1]. rewrite insert_insert_eq.
    split; [| split; [| reflexivity]].
    - unfold db1. rewrite !getTodoById_saved. reflexivity.
    - rewrite !fmap_insert. reflexivity. }
  destruct (saveTodo now1 todo db) as [db1 r1] eqn:E1.
  destruct (saveTodo now2 todo db1) as [db2 r2] eqn:E2.
  destruct (todos db !! id todo) as [r|] eqn:E.
  - rewrite (saveTodo_existing now1 todo db r E) in E1. cbn zeta in E1.
    injection E1 as <- <-.
    specialize (Hsecond (created_at r) (todos db) (sqlite_sequence db)).
    cbn zeta in Hsecond. rewrite E2 in Hsecond.
    destruct Hsecond as (H1 & H2 & H3). cbn [fst snd] in *.
    split; [exact H1 |]. split; [exact H2 |]. split; [exact H3 |].
    split; [| intros [=]]. intros r' [= <-]. reflexivity.
  - rewrite (saveTodo_new now1 todo db E) in E1. cbn zeta in E1.
    injection E1 as <- <-.
    specialize (Hsecond now1 (todos db) (Z.max (sqlite_sequence db) (id todo))).
    cbn zeta in Hsecond. rewrite E2 in Hsecond.
    destruct Hsecond as (H1 & H2 & H3). cbn [fst snd] in *.
    split; [exact H1 |]. split; [exact H2 |]. split; [exact H3 |].
    split; [intros r' [=] | reflexivity].
Qed.

(** C7 at its failing input: on the empty table, [saveTodo] of the
    pending todo 9 stores the status ["completed"] and returns a
    completed todo, so the row is not the row of the todo saved; and for
    every todo and every table the status stored is ["completed"]: the
    field [completed] of the todo is not what replaces the column. *)
Theorem C7_upsert_stores_completed :
  saveTodo 0 pending_todo empty_database
  = ({| todos := {[ 9 := {| user_id := 1; row_title := u "later";
                            row_completed := status_completed;
                            created_at := 0; updated_at := 0 |} ]};
        sqlite_sequence := 9 |},
     Success {| userId := 1; id := 9; title := u "later";
                completed := status_completed |}) /\
  todos (fst (saveTodo 0 pending_todo empty_database)) !! 9
  <> Some (saved_row 0 0 pending_todo) /\
  (forall now todo db,
     completed todo = status_pending ->
     exists r, todos (fst (saveTodo now todo db)) !! id todo = Some r /\
               row_completed r <> completed todo).
Proof.
  split; [vm_compute; reflexivity |]. split.
  - vm_compute. discriminate.
  - intros now todo db Hp.
    destruct (todos db !! id todo) as [r |] eqn:E.
    + rewrite (saveTodo_existing now todo db r E). cbn zeta. cbn [fst todos].
      eexists. split; [apply lookup_insert_eq |].
      cbn [written_row row_completed]. rewrite Hp. discriminate.
    + rewrite (saveTodo_new now todo db E). cbn zeta. cbn [fst todos].
      eexists. split; [apply lookup_insert_eq |].
      cbn [written_row row_completed]. rewrite Hp. discriminate.
Qed.

End DatabaseFacts.

(** ** The concurrency token *)

Module ConcurrencyFacts.
Import JS Spec NumberFacts ProgressFacts ConcurrencySchema.

Lemma is_digit_cases (c : N) :
  is_digit c ->
  c ∈ [48; 49; 50; 51; 52; 53; 54; 55; 56; 57]%N.
Proof.
  unfold is_digit, decimal_digit. intros [D HD]. rewrite !elem_of_cons.
  repeat match type of HD with
         | (if (c =? ?k)%N then _ else _) = _ =>
             destruct (N.eqb_spec c k) as [-> | _]; [tauto |]
         end.
  discriminate HD.
Qed.

Lemma digit_facts (c : N) :
  is_digit c ->
  is_white_space c = false /\ (c =? 45)%N = false /\ (c =? 43)%N = false /\
  c <> 117%N /\ c <> 78%N /\ c <> 73%N /\
  bool_decide (c ∈ [98; 66]%N) = false /\
  bool_decide (c ∈ [111; 79]%N) = false /\
  bool_decide (c ∈ [120; 88]%N) = false.
Proof.
  intros H. apply is_digit_cases in H.
  repeat (apply elem_of_cons in H as [-> | H];
          [repeat split; try reflexivity; discriminate |]).
  apply elem_of_nil in H. contradiction.
Qed.

Lemma uint_units_digits (d : uint) : Forall is_digit (uint_units d).
Proof.
  induction d; simpl; constructor; try assumption;
    unfold is_digit; vm_compute; eauto.
Qed.

Lemma take_digits_units (d : uint) : take_digits (uint_units d) = (d, []).
Proof.
  induction d as [| d IH | d IH | d IH | d IH | d IH | d IH | d IH | d IH | d IH | d IH];
    [reflexivity | ..]; cbn [uint_units take_digits];
    (change (decimal_digit (digit_unit _)) with (Some D0)
     || change (decimal_digit (digit_unit _)) with (Some D1)
     || change (decimal_digit (digit_unit _)) with (Some D2)
     || change (decimal_digit (digit_unit _)) with (Some D3)
     || change (decimal_digit (digit_unit _)) with (Some D4)
     || change (decimal_digit (digit_unit _)) with (Some D5)
     || change (decimal_digit (digit_unit _)) with (Some D6)
     || change (decimal_digit (digit_unit _)) with (Some D7)
     || change (decimal_digit (digit_unit _)) with (Some D8)
     || change (decimal_digit (digit_unit _)) with (Some D9));
    cbv iota beta; rewrite IH; reflexivity.
Qed.

Lemma uint_units_nonempty (d : uint) : d <> Nil -> uint_units d <> [].
Proof. destruct d; [congruence | ..]; discriminate. Qed.

Lemma trim_start_head (s : jsstring) :
  (forall c, head s = Some c -> is_white_space c = false) -> trim_start s = s.
Proof.
  destruct s as [|c s]; [reflexivity |]. intros H. simpl.
  rewrite (H c eq_refl). reflexivity.
Qed.

Lemma trim_digits (s : jsstring) : Forall is_digit s -> trim s = s.
Proof.
  intros H. unfold trim.
  assert (Hhead : forall (l : jsstring) c,
             Forall is_digit l -> head l = Some c -> is_white_space c = false).
  { intros l c Hl Hc. destruct l as [|x l]; [discriminate |].
    injection Hc as ->. apply Forall_cons in Hl as [Hx _].
    apply (digit_facts c Hx). }
  rewrite (trim_start_head s) by (intros c; apply Hhead; assumption).
  rewrite (trim_start_head (reverse s)).
  - apply reverse_involutive.
  - intros c. apply Hhead. apply Forall_reverse. assumption.
Qed.

Lemma of_uint_to_uint (p : positive) : Z.of_uint (Pos.to_uint p) = Zpos p.
Proof. unfold Z.of_uint. rewrite DecimalPos.Unsigned.of_to. reflexivity. Qed.

(** [Number] reads the decimal digits of a positive integer back as that
    integer, rounded to binary64. *)
Lemma StringToNumber_digits (p : positive) :
  StringToNumber (Z_toString (Zpos p)) = binary64 (decimal_value (Pos.to_uint p) Nil 0).
Proof.
  unfold Z_toString. cbn [Z.to_int].
  pose proof (DecimalPos.Unsigned.to_uint_nonnil p) as Hnil.
  generalize dependent (Pos.to_uint p). intros d Hnil.
  set (s := uint_units d).
  pose proof (uint_units_digits d) as Hd. fold s in Hd.
  assert (Hne : s <> []) by (apply uint_units_nonempty; assumption).
  unfold StringToNumber. rewrite (trim_digits s Hd).
  rewrite bool_decide_eq_false_2 by assumption.
  destruct s as [|c s'] eqn:Es; [congruence |].
  apply Forall_cons in Hd as [Hc Hs'].
  destruct (digit_facts c Hc) as (_ & Hm & Hp & _).
  assert (Hnd : non_decimal_literal (c :: s') = None).
  { destruct s' as [|c' [|c'' s'']]; [reflexivity | reflexivity |].
    apply Forall_cons in Hs' as [Hc' _].
    destruct (digit_facts c' Hc') as (_ & _ & _ & _ & _ & _ & H2 & H8 & H16).
    cbn [non_decimal_literal]. rewrite H2, H8, H16.
    destruct (negb _); reflexivity. }
  rewrite Hnd. cbn [take_sign]. rewrite Hm, Hp. cbv iota beta.
  unfold unsigned_decimal_literal.
  rewrite bool_decide_eq_false_2.
  2:{ intros H. injection H as H _. destruct (digit_facts c Hc) as (_ & _ & _ & _ & _ & Hi & _).
      apply Hi. exact H. }
  rewrite <- Es. unfold s. rewrite take_digits_units.
  cbv iota beta. cbn [take_digits is_Nil].
  assert (is_Nil d = false) as ->
    by (clear - Hnil; destruct d; [congruence | reflexivity ..]).
  reflexivity.
Qed.

Lemma decimal_value_digits (p : positive) :
  (decimal_value (Pos.to_uint p) Nil 0 == inject_Z (Zpos p))%Q.
Proof.
  unfold decimal_value. rewrite DecimalFacts.app_nil_r, of_uint_to_uint.
  change (0 - Z.of_nat (nb_digits Nil)) with 0.
  change (10 ^ 0)%Q with 1%Q. apply Qmult_1_r.
Qed.

Lemma positiveInt_represented (x : number) (n : Z) :
  represents x n -> 0 < n <= 2 ^ 53 - 1 -> positiveInt x = Some n.
Proof.
  intros (q & -> & Hq) Hn. unfold positiveInt, isSafeInteger, gt, toZ.
  rewrite (Qfloor_represented q n Hq).
  assert (Qeq_bool q (inject_Z n) = true) as -> by (apply Qeq_bool_iff; exact Hq).
  assert ((Z.abs n <=? 2 ^ 53 - 1) = true) as -> by (apply Z.leb_le; lia).
  assert (Qle_bool q 0 = false) as ->.
  { destruct (Qle_bool q 0) eqn:E; [| reflexivity].
    apply Qle_bool_iff in E. exfalso.
    assert (inject_Z 0 < inject_Z n)%Q by (rewrite <- Zlt_Qlt; lia).
    change (inject_Z 0) with 0%Q in H. lra. }
  reflexivity.
Qed.

(** Decoding the decimal digits of a positive safe integer gives the
    integer back. *)
Lemma decode_toString (n : Z) :
  0 < n <= 2 ^ 53 - 1 -> decode (UString (Z_toString n)) = Some (level n).
Proof.
  intros Hn. destruct n as [| p |]; try lia.
  pose proof (StringToNumber_digits p) as Hnum.
  change (Z_toString (Z.pos p)) with (uint_units (Pos.to_uint p)) in *.
  pose proof (uint_units_digits (Pos.to_uint p)) as Hd.
  pose proof (uint_units_nonempty _ (DecimalPos.Unsigned.to_uint_nonnil p)) as Hne.
  set (s := uint_units (Pos.to_uint p)) in *.
  assert (Hnot : forall c rest,
             c = 117%N \/ c = 78%N \/ c = 73%N \/ c = 45%N -> s <> c :: rest).
  { intros c rest Hc E. rewrite E in Hd. apply Forall_cons in Hd as [Hx _].
    apply is_digit_cases in Hx.
    repeat (apply elem_of_cons in Hx as [-> | Hx]; [intuition discriminate |]).
    apply elem_of_nil in Hx. contradiction. }
  unfold decode.
  rewrite bool_decide_eq_false_2 by (apply Hnot; auto).
  cbn [NumberFromString]. unfold Number_parse.
  rewrite bool_decide_eq_false_2 by (apply Hnot; auto).
  rewrite bool_decide_eq_false_2 by (apply Hnot; auto).
  rewrite bool_decide_eq_false_2 by (apply Hnot; auto 6).
  rewrite (trim_digits _ Hd).
  rewrite bool_decide_eq_false_2 by assumption.
  rewrite Hnum.
  destruct (binary64_exact _ (Zpos p) (decimal_value_digits p) ltac:(lia))
    as (q & Hq & Hqn).
  rewrite Hq. cbn [mbind option_bind].
  rewrite (positiveInt_represented (Finite q) (Zpos p)); [reflexivity | | lia].
  exists q. split; [reflexivity | assumption].
Qed.

(** What the schema accepts is ["unbounded"] or a string whose numeric
    value is a positive safe integer. *)
Lemma decode_sound (s : jsstring) (c : Concurrency) :
  decode (UString s) = Some c ->
  (s = u "unbounded" /\ c = unbounded) \/
  (exists n, c = level n /\ 0 < n <= 2 ^ 53 - 1 /\
             represents (StringToNumber s) n).
Proof.
  unfold decode. destruct (bool_decide (s = u "unbounded")) eqn:E.
  - apply bool_decide_eq_true in E. intros [= <-]. left. auto.
  - cbn [NumberFromString]. unfold Number_parse.
    destruct (bool_decide (s = u "NaN")); [discriminate |].
    destruct (bool_decide (s = u "Infinity")); [discriminate |].
    destruct (bool_decide (s = u "-Infinity")); [discriminate |].
    destruct (bool_decide (trim s = [])); [discriminate |].
    destruct (StringToNumber s) as [| neg | q] eqn:Eq; [discriminate | discriminate |].
    cbn [mbind option_bind]. unfold positiveInt, isSafeInteger, gt, toZ.
    destruct (Qeq_bool q (inject_Z (Qfloor q))) eqn:E1; [| discriminate].
    destruct (Z.abs (Qfloor q) <=? 2 ^ 53 - 1) eqn:E2; [| discriminate].
    destruct (Qle_bool q 0) eqn:E3; [discriminate |].
    cbn [andb negb]. intros [= <-]. right. exists (Qfloor q).
    apply Qeq_bool_iff in E1. apply Z.leb_le in E2.
    assert (~ (q <= 0)%Q) by (rewrite <- Qle_bool_iff; congruence).
    assert (inject_Z 0 < inject_Z (Qfloor q))%Q
      by (change (inject_Z 0) with 0%Q; lra).
    rewrite <- Zlt_Qlt in H0.
    split; [reflexivity |]. split; [lia |]. exists q. split; [reflexivity | assumption].
Qed.

Lemma decode_not_a_number (s : jsstring) :
  StringToNumber s = NaN -> s <> u "unbounded" -> decode (UString s) = None.
Proof.
  intros H Hs. destruct (decode (UString s)) as [c|] eqn:E; [| reflexivity].
  apply decode_sound in E as [[-> _] | (n & _ & _ & q & Hq & _)];
    [congruence | rewrite H in Hq; discriminate].
Qed.

Lemma trim_start_suffix (s : jsstring) : trim_start s `suffix_of` s.
Proof.
  induction s as [|c s IH]; simpl; [reflexivity |].
  destruct (is_white_space c); [| reflexivity].
  apply suffix_cons_r. assumption.
Qed.

Lemma digit_free_trim (s : jsstring) : digit_free s -> digit_free (trim s).
Proof.
  unfold digit_free, trim. intros H. apply Forall_reverse.
  assert (Hsuf : forall l : jsstring,
             Forall (fun c => decimal_digit c = None) l ->
             Forall (fun c => decimal_digit c = None) (trim_start l)).
  { intros l Hl. destruct (trim_start_suffix l) as [k Hk].
    rewrite Hk in Hl. apply Forall_app in Hl. tauto. }
  apply Hsuf, Forall_reverse, Hsuf, H.
Qed.

Lemma take_digits_digit_free (s : jsstring) :
  digit_free s -> take_digits s = (Nil, s).
Proof.
  destruct s as [|c s]; [reflexivity |]. intros H.
  apply Forall_cons in H as [Hc _]. simpl. rewrite Hc. reflexivity.
Qed.

Lemma unsigned_decimal_digit_free (s : jsstring) :
  digit_free s ->
  unsigned_decimal_literal s = InfinityLiteral \/
  unsigned_decimal_literal s = NotALiteral.
Proof.
  intros H. unfold unsigned_decimal_literal.
  destruct (bool_decide (s = u "Infinity")); [left; reflexivity | right].
  rewrite (take_digits_digit_free s H).
  destruct s as [|c rest]; [reflexivity |].
  apply Forall_cons in H as [_ Hrest].
  destruct (c =? 46)%N; [| reflexivity].
  rewrite (take_digits_digit_free rest Hrest). reflexivity.
Qed.

(** A string with no digit in it never denotes a finite number other
    than the zero of the empty string. *)
Lemma StringToNumber_digit_free (s : jsstring) :
  digit_free s -> trim s <> [] ->
  forall q, StringToNumber s <> Finite q.
Proof.
  intros H Hne q. apply digit_free_trim in H. unfold StringToNumber.
  rewrite bool_decide_eq_false_2 by assumption.
  destruct (trim s) as [|c t] eqn:Et; [congruence |].
  assert (Hnd : non_decimal_literal (c :: t) = None).
  { destruct t as [|p [|x t']]; [reflexivity | reflexivity |].
    cbn [non_decimal_literal]. destruct (N.eqb_spec c 48) as [-> | _]; [| reflexivity].
    apply Forall_cons in H as [H48 _]. discriminate H48. }
  rewrite Hnd.
  assert (Hsign : digit_free (snd (take_sign (c :: t)))).
  { cbn [take_sign]. pose proof H as H'. apply Forall_cons in H' as [_ Ht].
    destruct (c =? 45)%N; [exact Ht |]. destruct (c =? 43)%N; [exact Ht | exact H]. }
  destruct (take_sign (c :: t)) as [negative rest]. cbn [snd] in Hsign.
  destruct (unsigned_decimal_digit_free rest Hsign) as [-> | ->]; discriminate.
Qed.

Lemma decode_digit_free (s : jsstring) :
  digit_free s -> s <> u "unbounded" -> decode (UString s) = None.
Proof.
  intros H Hs. destruct (decode (UString s)) as [c|] eqn:E; [| reflexivity].
  pose proof E as E'.
  apply decode_sound in E as [[-> _] | (n & _ & _ & q & Hq & _)]; [congruence |].
  exfalso. unfold decode in E'. rewrite bool_decide_eq_false_2 in E' by assumption.
  cbn [NumberFromString] in E'. unfold Number_parse in E'.
  destruct (bool_decide (s = u "NaN")) eqn:E1.
  { apply bool_decide_eq_true in E1. subst s. vm_compute in Hq. discriminate. }
  destruct (bool_decide (s = u "Infinity")) eqn:E2.
  { apply bool_decide_eq_true in E2. subst s. vm_compute in Hq. discriminate. }
  destruct (bool_decide (s = u "-Infinity")) eqn:E3.
  { apply bool_decide_eq_true in E3. subst s. vm_compute in Hq. discriminate. }
  destruct (bool_decide (trim s = [])) eqn:E4; [discriminate |].
  apply bool_decide_eq_false in E4.
  exact (StringToNumber_digit_free s H E4 q Hq).
Qed.

Lemma decode_non_string (v : unknown) :
  (forall s, v <> UString s) -> decode v = None.
Proof. destruct v; try reflexivity. intros H. destruct (H s eq_refl). Qed.

(** C4: decoding the decimal digits of a positive integer up to 10000
    gives that integer; ["unbounded"] gives the unbounded policy; ["0"],
    ["-1"], ["1.5"], the empty string, every string other than
    ["unbounded"] that [Number] reads as [NaN] or that holds no digit,
    and every value that is not a string are rejected; whatever string
    is accepted is ["unbounded"] or denotes a positive integer. *)
Theorem C4_concurrency_token :
  (forall n : Z, 1 <= n <= 10000 ->
     decode (UString (Z_toString n)) = Some (level n)) /\
  decode (UString (u "unbounded")) = Some unbounded /\
  decode (UString (u "0")) = None /\
  decode (UString (u "-1")) = None /\
  decode (UString (u "1.5")) = None /\
  decode (UString []) = None /\
  (forall s, s <> u "unbounded" ->
     StringToNumber s = NaN \/ digit_free s -> decode (UString s) = None) /\
  (forall v, (forall s, v <> UString s) -> decode v = None) /\
  (forall s c, decode (UString s) = Some c ->
     (s = u "unbounded" /\ c = unbounded) \/
     (exists n, c = level n /\ 0 < n <= 2 ^ 53 - 1 /\
                represents (StringToNumber s) n)).
Proof.
  split; [intros n Hn; apply decode_toString; lia |].
  split; [vm_compute; reflexivity |].
  split; [vm_compute; reflexivity |].
  split; [vm_compute; reflexivity |].
  split; [vm_compute; reflexivity |].
  split; [vm_compute; reflexivity |].
  split; [| split; [exact decode_non_string | exact decode_sound]].
  intros s Hs [H | H]; [apply decode_not_a_number | apply decode_digit_free];
    assumption.
Qed.

(** C4 at [8], at ["abc"] and at [null]. *)
Lemma C4_concurrency_token_witness :
  decode (UString (Z_toString 8)) = Some (level 8) /\
  decode (UString (u "abc")) = None /\
  decode UNull = None.
Proof.
  destruct C4_concurrency_token as (Hn & _ & _ & _ & _ & _ & Hs & Hv & _).
  split; [apply Hn; lia |]. split.
  - apply Hs; [discriminate | right].
    repeat constructor.
  - apply Hv. discriminate.
Defined.

End ConcurrencyFacts.

(** ** The retry schedule *)

Module ScheduleFacts.
Import JS Schedule TodoService Spec.

(** One step of the retry schedule. *)
Lemma step_retrySchedule (now i : Z) (started : option Z) :
  step retrySchedule now (i, started) =
    ((i + 1, Some (default now started)), 100 * 2 ^ i,
     if now - default now started <? 5000
     then Continue (Z.max (now + 100 * 2 ^ i) now) else Done).
Proof.
  destruct started as [s|]; cbn.
  - destruct (now - s <? 5000); reflexivity.
  - rewrite Z.sub_diag. reflexivity.
Qed.

Section Retry.
Context {E A : Type} (isTransient : E -> bool).

Lemma retry_from_spec (attempts : list (Z * (E + A))) :
  Forall (fun a => 0 <= fst a) attempts ->
  forall now i started slept,
    between_attempts now i started slept ->
    let r := retry_from (A := A) retrySchedule isTransient attempts now
               (i, started) slept in
    (forall k d, waits r !! k = Some d -> d = 100 * 2 ^ Z.of_nat k) /\
    (length (waits r) <= 6)%nat /\
    (forall e, result r = Some (inl e) ->
       isTransient e = false \/
       exists s, snd (final r) = Some s /\ 5000 <= finished r - s) /\
    (result r = None ->
       Forall (fun a => exists e, snd a = inl e /\ isTransient e = true) attempts).
Proof using Type.
  induction 1 as [| [duration outcome] attempts Hd Hrest IH];
    intros now i started slept (Hi & Hlen & Hslept & Hstart).
  - cbn. split; [assumption |]. split; [lia |]. split; [discriminate |].
    intros _. constructor.
  - cbn [fst] in Hd. cbn [retry_from].
    destruct outcome as [e | a].
    + destruct (isTransient e) eqn:Et.
      * rewrite step_retrySchedule.
        set (now' := now + duration).
        set (s := default now' started).
        assert (Hs : 100 * (2 ^ i - 1) <= now' - s).
        { unfold s, now'. destruct Hstart as [[-> ->] | (Hpos & s0 & -> & Hs0)];
            simpl; rewrite ?Z.pow_0_r; lia. }
        clearbody s now'.
        destruct (now' - s <? 5000) eqn:Elapsed.
        -- apply Z.ltb_lt in Elapsed.
           assert (Hpow : 0 < 2 ^ i) by (apply Z.pow_pos_nonneg; lia).
           assert (Hi5 : i <= 5).
           { destruct (Z_le_gt_dec i 5) as [|Hgt]; [assumption | exfalso].
             assert (2 ^ 6 <= 2 ^ i) by (apply Z.pow_le_mono_r; lia).
             change (2 ^ 6) with 64 in H. lia. }
           rewrite (Z.max_l (now' + 100 * 2 ^ i) now') by lia.
           replace (Z.max 0 (now' + 100 * 2 ^ i - now')) with (100 * 2 ^ i) by lia.
           specialize (IH (now' + 100 * 2 ^ i) (i + 1) (Some s)
                          (slept ++ [100 * 2 ^ i])).
           destruct IH as (IH1 & IH2 & IH3 & IH4).
           { split; [lia |]. split; [rewrite length_app; cbn; lia |]. split.
             - intros k d Hk. destruct (decide (k < length slept)%nat) as [Hlt | Hge].
               + rewrite lookup_app_l in Hk by assumption. auto.
               + rewrite lookup_app_r in Hk by lia.
                 destruct (k - length slept)%nat as [|m] eqn:Em; [| discriminate Hk].
                 injection Hk as <-. f_equal. f_equal. lia.
             - right. split; [lia |]. exists s. split; [reflexivity |].
               rewrite Z.pow_add_r by lia. change (2 ^ 1) with 2. lia. }
           split; [exact IH1 |]. split; [exact IH2 |]. split; [exact IH3 |].
           intros Hnone. constructor; [exists e; auto | auto].
        -- apply Z.ltb_ge in Elapsed. cbn.
           split; [assumption |]. split; [lia |]. split.
           ++ intros e' _. right. exists s. split; [reflexivity | assumption].
           ++ discriminate.
      * cbn. split; [assumption |]. split; [lia |]. split.
        -- intros e' [= <-]. left. assumption.
        -- discriminate.
    + cbn. split; [assumption |]. split; [lia |]. split; discriminate.
Qed.

(** The schedule, run by [Effect.retry], is the loop of the amended
    claim. *)
Lemma retry_from_loop (attempts : list (Z * (E + A))) :
  forall now k started slept,
    let r := retry_from (A := A) retrySchedule isTransient attempts now
               (Z.of_nat k, started) slept in
    let '(res, ws, fin) :=
      retries_until_elapsed isTransient attempts now k started in
    result r = res /\ waits r = slept ++ ws /\ finished r = fin.
Proof using Type.
  induction attempts as [| [duration outcome] attempts IH];
    intros now k started slept.
  - cbn. rewrite app_nil_r. auto.
  - cbn [retry_from retries_until_elapsed]. destruct outcome as [e | a].
    + destruct (isTransient e) eqn:Et; cbn [andb].
      * rewrite step_retrySchedule.
        destruct (now + duration - default (now + duration) started <? 5000)
          eqn:Elapsed.
        -- assert (Hpow : 0 <= 2 ^ Z.of_nat k) by (apply Z.pow_nonneg; lia).
           rewrite (Z.max_l (now + duration + 100 * 2 ^ Z.of_nat k)
                      (now + duration)) by lia.
           replace (Z.max 0 (now + duration + 100 * 2 ^ Z.of_nat k
                             - (now + duration)))
             with (100 * 2 ^ Z.of_nat k) by lia.
           specialize (IH (now + duration + 100 * 2 ^ Z.of_nat k) (S k)
                         (Some (default (now + duration) started))
                         (slept ++ [100 * 2 ^ Z.of_nat k])).
           cbn zeta in IH.
           replace (Z.of_nat (S k)) with (Z.of_nat k + 1) in IH by lia.
           destruct (retries_until_elapsed isTransient attempts
                       (now + duration + 100 * 2 ^ Z.of_nat k) (S k)
                       (Some (default (now + duration) started)))
             as [[res ws] fin].
           destruct IH as (H1 & H2 & H3).
           split; [exact H1 |]. split; [| exact H3].
           rewrite H2, <- app_assoc. reflexivity.
        -- cbn. rewrite app_nil_r. auto.
      * cbn. rewrite app_nil_r. auto.
    + cbn. rewrite app_nil_r. auto.
Qed.

End Retry.




End ScheduleFacts.

(** ** The batch synchronisation *)

Module SyncFacts.
Import JS Effect Todo ProgressBarService ConcurrencySchema SyncTodos Spec.

Section Interleavings.
Context (concurrency : Concurrency) (total : Z).

Lemma counts_insert (l : list phase) (i : nat) (p p' : phase) :
  l !! i = Some p ->
  omap attributed l
    = omap attributed (take i l) ++ option_list (attributed p)
      ++ omap attributed (drop (S i) l) /\
  omap attributed (<[ i := p' ]> l)
    = omap attributed (take i l) ++ option_list (attributed p')
      ++ omap attributed (drop (S i) l).
Proof.
  intros H. split.
  - rewrite <- (take_drop_middle l i p H) at 1.
    rewrite omap_app. simpl. destruct (attributed p); reflexivity.
  - rewrite insert_take_drop by (eapply lookup_lt_Some; eassumption).
    rewrite omap_app. simpl. destruct (attributed p'); reflexivity.
Qed.

Lemma counts_same (l : list phase) (i : nat) (p p' : phase) :
  l !! i = Some p -> attributed p' = attributed p ->
  omap attributed (<[ i := p' ]> l) = omap attributed l.
Proof.
  intros H E. destruct (counts_insert l i p p' H) as [-> ->].
  rewrite E. reflexivity.
Qed.

Lemma counts_new (l : list phase) (i : nat) (p p' : phase) (n : Z) :
  l !! i = Some p -> attributed p = None -> attributed p' = Some n ->
  omap attributed (<[ i := p' ]> l) ≡ₚ n :: omap attributed l.
Proof.
  intros H E E'. destruct (counts_insert l i p p' H) as [-> ->].
  rewrite E, E'. cbn [option_list app]. symmetry. apply Permutation_middle.
Qed.

(** Giving out the next count keeps the counter and the counts in
    agreement. *)
Lemma counts_next (l : list phase) (i : nat) (c : Z) (p' : phase) :
  l !! i = Some Saving -> 0 <= c -> omap attributed l ≡ₚ seqZ 1 c ->
  attributed p' = Some (c + 1) ->
  omap attributed (<[ i := p' ]> l) ≡ₚ seqZ 1 (c + 1).
Proof.
  intros Hi Hc Hperm Hp'.
  rewrite (counts_new l i Saving p' (c + 1)) by (assumption || reflexivity).
  rewrite Hperm. rewrite (seqZ_app 1 c 1) by lia.
  rewrite (seqZ_cons (1 + c) 1) by lia.
  rewrite (seqZ_nil (Z.succ (1 + c)) (Z.pred 1)) by lia.
  replace (1 + c) with (c + 1) by lia.
  apply Permutation_cons_append.
Qed.

(** Every step keeps the counter and the counts in agreement. *)
Lemma step_counted_once (s s' : fibers) :
  step concurrency total s s' -> counted_once s -> counted_once s'.
Proof using Type.
  unfold counted_once, counts.
  intros Hstep [Hc Hperm]; destruct Hstep; cbn [phases counter set_phase];
    try (split; [assumption |];
         erewrite counts_same by (try eassumption; reflexivity);
         assumption).
  - split; [lia |]. apply counts_next; (assumption || reflexivity).
  - split; [lia |]. apply counts_next; (assumption || reflexivity).
  - destruct H1 as [-> | ->];
      (split; [assumption |]; erewrite counts_same by (eassumption || reflexivity);
       assumption).
Qed.

Lemma step_length (s s' : fibers) :
  step concurrency total s s' -> length (phases s') = length (phases s).
Proof using Type.
  intros Hstep; destruct Hstep; cbn [phases set_phase]; apply length_insert.
Qed.

Lemma NoDup_omap_lookup (l : list phase) (i j : nat) (p q : phase) (n : Z) :
  NoDup (omap attributed l) ->
  l !! i = Some p -> l !! j = Some q ->
  attributed p = Some n -> attributed q = Some n -> i = j.
Proof.
  revert i j. induction l as [|x l IH]; intros i j Hnd Hi Hj Hp Hq;
    [discriminate |].
  assert (Hin : forall k r, l !! k = Some r -> attributed r = Some n ->
                            n ∈ omap attributed l).
  { intros k r Hk Hr. apply list_elem_of_omap. exists r. split; [| assumption].
    eapply list_elem_of_lookup_2. eassumption. }
  simpl in Hnd.
  destruct i as [|i], j as [|j]; cbn in Hi, Hj.
  - reflexivity.
  - injection Hi as ->. rewrite Hp in Hnd. apply NoDup_cons in Hnd as [Hn _].
    destruct Hn. eapply Hin; eassumption.
  - injection Hj as ->. rewrite Hq in Hnd. apply NoDup_cons in Hnd as [Hn _].
    destruct Hn. eapply Hin; eassumption.
  - f_equal. apply IH; try assumption.
    destruct (attributed x); [apply NoDup_cons in Hnd; tauto | assumption].
Qed.

End Interleavings.

(** What every state an interleaving can reach satisfies. *)
Lemma reachable_counted_once (concurrency : Concurrency) (total : Z)
    (ids : list Z) (out : terminal) (s : fibers) :
  rtc (step concurrency total) (start ids out) s ->
  counted_once s /\ length (phases s) = length ids.
Proof.
  intros Hrun. revert s Hrun. apply rtc_ind_r.
  - split; [| apply length_replicate].
    split; [reflexivity |]. unfold counts. cbn.
    induction (length ids) as [|n IHn]; [reflexivity | exact IHn].
  - intros s s' _ Hstep [IH1 IH2].
    split; [eapply step_counted_once; eassumption |].
    rewrite (step_length _ _ _ _ Hstep). assumption.
Qed.

Lemma length_counts (s : fibers) : (length (counts s) <= length (phases s))%nat.
Proof.
  unfold counts. induction (phases s) as [| p l IH]; [reflexivity |].
  cbn. destruct (attributed p); cbn; lia.
Qed.

Section Sequential.
Context (remote : Z -> Exit TodoService.GetTodoByIdError Todo) (now : Z -> Z).

Lemma forEach_sequential_app (f : Z -> state -> state * Exit error unit)
    (before after : list Z) (st : state) :
  forEach_sequential f (before ++ after) st =
    match forEach_sequential f before st with
    | (st', Success _) => forEach_sequential f after st'
    | failed => failed
    end.
Proof.
  revert st. induction before as [|id before IH]; intros st; [reflexivity |].
  cbn [app forEach_sequential].
  destruct (f id st) as [st' [[] | e | d]]; [apply IH | reflexivity | reflexivity].
Qed.

Lemma syncTodo_fetch_failure (total id : Z) (st : state)
    (e : TodoService.GetTodoByIdError) :
  remote id = Failure e ->
  syncTodo remote now total id st = (st, Failure (FetchError e)).
Proof. intros H. unfold syncTodo. rewrite H. reflexivity. Qed.

Lemma syncTodo_store_failure (total id : Z) (st : state) (apiTodo : Todo)
    (db : DatabaseService.database) (e : DatabaseService.error) :
  remote id = Success apiTodo ->
  DatabaseService.saveTodo (now (completed st)) apiTodo (database st)
    = (db, Failure e) ->
  syncTodo remote now total id st
    = ({| database := db; output := output st; completed := completed st |},
       Failure (StoreError e)).
Proof. intros H1 H2. unfold syncTodo. rewrite H1, H2. reflexivity. Qed.

End Sequential.

(** Once the batch is aborted, no queued id is started, whatever the
    concurrency. *)
Lemma no_launch_after_failure (concurrency : Concurrency) (total : Z)
    (s s' : fibers) (i : nat) :
  step concurrency total s s' -> aborted s = true ->
  phases s !! i = Some Queued ->
  phases s' !! i = Some Queued /\ aborted s' = true.
Proof.
  intros Hstep Hab Hi.
  assert (Hkeep : forall i0 p p',
             phases s !! i0 = Some p -> p <> Queued ->
             <[ i0 := p' ]> (phases s) !! i = Some Queued).
  { intros i0 p p' H0 Hp. destruct (decide (i0 = i)) as [-> | Hne];
      [congruence | rewrite list_lookup_insert_ne by assumption; assumption]. }
  destruct Hstep; cbn [phases aborted set_phase]; try congruence;
    (split; [eapply Hkeep; [eassumption | intuition (subst; discriminate)]
            | assumption || reflexivity]).
Qed.

Lemma queued_stays_queued (concurrency : Concurrency) (total : Z)
    (s s' : fibers) (i : nat) :
  rtc (step concurrency total) s s' -> aborted s = true ->
  phases s !! i = Some Queued ->
  phases s' !! i = Some Queued /\ aborted s' = true.
Proof.
  induction 1 as [s | s s1 s' Hstep _ IH]; intros Hab Hi; [split; assumption |].
  destruct (no_launch_after_failure _ _ _ _ _ Hstep Hab Hi) as [Hi1 Hab1].
  apply IH; assumption.
Qed.

(** A failed fetch or write aborts the batch. *)
Lemma failure_aborts (concurrency : Concurrency) (total : Z) (ids : list Z)
    (out : terminal) (s : fibers) :
  rtc (step concurrency total) (start ids out) s ->
  forall j, phases s !! j = Some Failed -> aborted s = true.
Proof.
  intros Hrun. revert s Hrun.
  apply (rtc_ind_r
           (fun s => forall j, phases s !! j = Some Failed -> aborted s = true)).
  - intros j Hj. cbn [start phases] in Hj.
    apply lookup_replicate in Hj as [Hj _]. discriminate Hj.
  - intros s s' _ Hstep IH j Hj.
    destruct Hstep; cbn [phases aborted set_phase] in *; try reflexivity;
      apply list_lookup_insert_Some in Hj as [(_ & Hp & _) | (_ & Hj)];
      try (eapply IH; eassumption);
      try discriminate Hp.
Qed.

(** C1, as stated, fails: syncing ids 1 and 2 sequentially when the
    fetch of 1 fails leaves the todo of id 2 out of the database. *)
Lemma C1_isolation_counterexample : ~ isolates_failures.
Proof.
  intros H.
  specialize (H first_fails (fun _ => 0) [1; 2] initial_state 2
                {| userId := 1; Todo.id := 2; title := u "todo";
                   Todo.completed := status_pending |}).
  destruct H as [r Hr].
  - rewrite !elem_of_cons. tauto.
  - reflexivity.
  - vm_compute in Hr. discriminate Hr.
Qed.

(** C1, amended: under the sequential policy the first id whose fetch
    or write fails ends the batch with that failure; the ids before it
    stay persisted and counted, and whatever ids follow are not
    processed: the outcome does not depend on them.  Under any
    concurrency policy, once an id has failed an id still queued is
    never started. *)
Theorem C1_first_failure_aborts
    (remote : Z -> Exit TodoService.GetTodoByIdError Todo) (now : Z -> Z)
    (total : Z) (before after : list Z) (id : Z) (st st1 : state) :
  forEach_sequential (syncTodo remote now total) before st
    = (st1, Success tt) ->
  (forall e, remote id = Failure e ->
     forEach_sequential (syncTodo remote now total) (before ++ id :: after) st
     = (st1, Failure (FetchError e))) /\
  (forall apiTodo db e,
     remote id = Success apiTodo ->
     DatabaseService.saveTodo (now (completed st1)) apiTodo (database st1)
       = (db, Failure e) ->
     forEach_sequential (syncTodo remote now total) (before ++ id :: after) st
     = ({| database := db; output := output st1; completed := completed st1 |},
        Failure (StoreError e))) /\
  (forall concurrency ids out s s' i j,
     rtc (step concurrency total) (start ids out) s ->
     phases s !! j = Some Failed -> phases s !! i = Some Queued ->
     rtc (step concurrency total) s s' -> phases s' !! i = Some Queued).
Proof.
  intros Hbefore. split; [| split].
  - intros e He. rewrite forEach_sequential_app, Hbefore.
    cbn [forEach_sequential].
    rewrite (syncTodo_fetch_failure remote now total id st1 e He). reflexivity.
  - intros apiTodo db e Hfetch Hsave.
    rewrite forEach_sequential_app, Hbefore. cbn [forEach_sequential].
    rewrite (syncTodo_store_failure remote now total id st1 apiTodo db e
               Hfetch Hsave).
    reflexivity.
  - intros concurrency ids out s s' i j Hrun Hj Hi Hnext.
    pose proof (failure_aborts concurrency total ids out s Hrun j Hj) as Hab.
    exact (proj1 (queued_stays_queued concurrency total s s' i Hnext Hab Hi)).
Qed.

(** C1 on ids 1 and 2 when the fetch of 1 fails. *)
Lemma C1_first_failure_aborts_witness :
  forEach_sequential (syncTodo first_fails (fun _ => 0) 2) [] initial_state
    = (initial_state, Success tt) /\
  first_fails 1 = Failure {| TodoService.error_id := 1 |} /\
  forEach_sequential (syncTodo first_fails (fun _ => 0) 2) ([] ++ 1 :: [2])
    initial_state
  = (initial_state, Failure (FetchError {| TodoService.error_id := 1 |})).
Proof.
  split; [reflexivity |]. split; [reflexivity |].
  exact (proj1 (C1_first_failure_aborts first_fails (fun _ => 0) 2 [] [2] 1
                  initial_state initial_state eq_refl)
               {| TodoService.error_id := 1 |} eq_refl).
Defined.

End SyncFacts.

(** ** The store: lookups, listing, creation and the key counter *)

Module StoreFacts.
Import JS Effect Todo DatabaseService DatabaseTable Spec Store NumberFacts
  ProgressFacts DatabaseFacts.

(** [Schema.Int] accepts a number that is a safe integer, as that integer. *)
Lemma Int_represented (x : number) (k : Z) :
  represents x k -> safe k -> Int (UNumber x) = Some k.
Proof.
  intros (q & -> & Hq) Hk. unfold Int, isSafeInteger, toZ.
  rewrite (Qfloor_represented q k Hq).
  assert (Qeq_bool q (inject_Z k) = true) as -> by (apply Qeq_bool_iff; exact Hq).
  assert ((Z.abs k <=? 2 ^ 53 - 1) = true) as -> by (apply Z.leb_le; exact Hk).
  reflexivity.
Qed.

Lemma not_safe_at_least (x : number) :
  at_least (2 ^ 53) x -> isSafeInteger x = false.
Proof.
  destruct x as [| [] | q]; simpl; try reflexivity; try contradiction.
  intros H. apply andb_false_iff. right. apply Z.leb_gt.
  assert (2 ^ 53 <= Qfloor q)%Z.
  { apply Qfloor_resp_le in H. rewrite Qfloor_Z in H. exact H. }
  lia.
Qed.

Lemma Qred_opp_integer (q : Q) (k : Z) :
  (q == inject_Z k)%Q -> (Qred (- q) == inject_Z (- k))%Q.
Proof.
  intros H. rewrite inject_Z_opp.
  apply Qeq_trans with (- q)%Q; [apply Qred_correct |].
  apply Qopp_comp. exact H.
Qed.

Lemma isSafeInteger_negate (x : number) :
  isSafeInteger (negate x) = isSafeInteger x.
Proof.
  destruct x as [| s | q]; cbn [negate isSafeInteger]; try reflexivity.
  assert (Hf : Qeq_bool q (inject_Z (Qfloor q)) = true ->
               Qfloor (Qred (- q)) = (- Qfloor q)%Z).
  { intros H. apply Qeq_bool_iff in H. apply Qfloor_represented.
    apply Qred_opp_integer. exact H. }
  assert (Hb : Qeq_bool (Qred (- q)) (inject_Z (Qfloor (Qred (- q))))
               = Qeq_bool q (inject_Z (Qfloor q))).
  { destruct (Qeq_bool q (inject_Z (Qfloor q))) eqn:E.
    - rewrite (Hf eq_refl). apply Qeq_bool_iff in E.
      assert (Qred (- q) == inject_Z (- Qfloor q)) as H
        by (apply Qred_opp_integer; exact E).
      apply Qeq_bool_iff. exact H.
    - destruct (Qeq_bool (Qred (- q)) _) eqn:E'; [| reflexivity].
      apply Qeq_bool_iff in E'. rewrite Qred_correct in E'.
      assert (q == inject_Z (- Qfloor (- q))).
      { apply Qeq_trans with (- - q)%Q; [symmetry; apply Qopp_involutive |].
        rewrite inject_Z_opp. apply Qopp_comp. exact E'. }
      pose proof (Qfloor_represented q _ H) as Hq.
      assert (Qeq_bool q (inject_Z (Qfloor q)) = true)
        by (apply Qeq_bool_iff; rewrite Hq; exact H).
      congruence. }
  rewrite Hb. destruct (Qeq_bool q (inject_Z (Qfloor q))) eqn:E; [| reflexivity].
  rewrite (Hf eq_refl), Z.abs_opp. reflexivity.
Qed.

(** A stored integer beyond the safe range is read as a number that is
    not a safe integer. *)
Lemma Int_not_safe (k : Z) : ~ safe k -> Int (UNumber (ofZ k)) = None.
Proof.
  intros Hk. unfold safe in Hk. unfold Int.
  assert (H53 : 2 ^ 53 = 9007199254740992) by reflexivity.
  assert (isSafeInteger (ofZ k) = false) as ->; [| reflexivity].
  unfold ofZ, binary64.
  assert (Hbig : forall n : Z, (2 ^ 53 <= n)%Z ->
             isSafeInteger (binary64_pos (inject_Z n)) = false).
  { intros n Hn. apply not_safe_at_least.
    apply binary64_pos_lower; [| lia | rewrite <- Zle_Qle; exact Hn].
    change 0%Q with (inject_Z 0). rewrite <- Zlt_Qlt. lia. }
  assert (Hc : (inject_Z k ?= 0)%Q = (k ?= 0)%Z)
    by (unfold Qcompare; simpl; rewrite Z.mul_1_r; reflexivity).
  rewrite Hc. destruct (Z.compare_spec k 0) as [E | E | E].
  - lia.
  - rewrite isSafeInteger_negate, <- inject_Z_opp. apply Hbig. lia.
  - apply Hbig. lia.
Qed.

Lemma Int_ofZ (k : Z) :
  Int (UNumber (ofZ k)) = if decide (safe k) then Some k else None.
Proof.
  destruct (decide (safe k)) as [H | H]; [| apply Int_not_safe; exact H].
  apply Int_represented; [apply ofZ_represents; unfold safe in H; lia | exact H].
Qed.


Lemma TodoTitle_valid (t : jsstring) :
  TodoTitle (UString t) = if decide (valid_title t) then Some t else None.
Proof.
  unfold TodoTitle, valid_title.
  destruct (decide (1 <= length t <= 255)%nat) as [H | H].
  - rewrite andb_true_intro; [reflexivity |].
    split; apply Nat.leb_le; lia.
  - destruct ((1 <=? length t)%nat && (length t <=? 255)%nat) eqn:E;
      [| reflexivity].
    apply andb_prop in E as [E1 E2]. apply Nat.leb_le in E1, E2. lia.
Qed.

Lemma status_read_back (c : CompletionStatus) :
  CompletedField_decode (bool_decide (status_text c = u "completed")) = c.
Proof. destruct c; reflexivity. Qed.

(** A row is read as a [Todo] exactly when its columns pass the schema. *)
Lemma decode_row (k : Z) (r : row) :
  decodeUnknown (row_object k r)
  = if decide (readable k r) then Some (todo_of_row k r) else None.
Proof.
  unfold row_object. rewrite decode_todo_object. unfold UserId, TodoId.
  rewrite !Int_ofZ, TodoTitle_valid, status_read_back. unfold readable.
  destruct (decide (safe (user_id r))) as [H1 | H1]; cbn [mbind option_bind].
  - destruct (decide (safe k)) as [H2 | H2]; cbn [mbind option_bind].
    + destruct (decide (valid_title (row_title r))) as [H3 | H3];
        cbn [mbind option_bind].
      * rewrite decide_True by tauto. reflexivity.
      * rewrite decide_False by tauto. reflexivity.
    + rewrite decide_False by tauto. reflexivity.
  - rewrite decide_False by tauto. reflexivity.
Qed.

(** [getTodoById], by cases on the row. *)
Lemma getTodoById_row (k : Z) (db : database) :
  getTodoById k db =
    match todos db !! k with
    | None => Failure (TodoNotFound k)
    | Some r =>
        if decide (readable k r) then Success (todo_of_row k r)
        else Failure (DatabaseService.DatabaseError
                        (SchemaDecodeText k ParseErrorText))
    end.
Proof.
  destruct (todos db !! k) as [r |] eqn:E.
  - rewrite (getTodoById_lookup k db r E), decode_row.
    destruct (decide (readable k r)); reflexivity.
  - unfold getTodoById. rewrite E. reflexivity.
Qed.

(** The next key is above the key counter and above every stored key. *)
Lemma next_rowid_above (db : database) :
  sqlite_sequence db < next_rowid db /\
  forall k r, todos db !! k = Some r -> k < next_rowid db.
Proof.
  unfold next_rowid. split; [lia |]. intros k r H.
  apply max_rowid_ge in H. lia.
Qed.

(** With valid data, [createTodo] returns what it reads back. *)
Lemma createTodo_reads_back (now : Z) (data : createData) (db : database) :
  safe (data_userId data) -> valid_title (data_title data) ->
  safe (next_rowid db) ->
  let newId := next_rowid db in
  let status := if default false (data_completed data)
                then status_completed else status_pending in
  let todo := {| userId := data_userId data; id := newId;
                 title := data_title data; completed := status |} in
  let db' := fst (createTodo now data db) in
  snd (createTodo now data db) = Success todo /\
  getTodoById newId db' = Success todo.
Proof.
  intros Hu Ht Hid newId status todo db'.
  assert (Hget : getTodoById newId db' = Success todo).
  { rewrite getTodoById_row. subst db'. unfold createTodo, insert_row.
    cbn [fst todos]. rewrite lookup_insert_eq.
    rewrite decide_True by (split; [| split]; assumption).
    unfold todo_of_row. cbn [user_id row_title row_completed]. subst todo status.
    destruct (data_completed data) as [[] |]; reflexivity. }
  split; [| exact Hget].
  unfold createTodo at 1. cbn [snd]. fold newId.
  change (insert_row now newId (data_userId data) (data_title data)
            match data_completed data with
            | Some true => status_completed
            | _ => status_pending
            end db) with db'.
  rewrite Hget. reflexivity.
Qed.

(** *** [getAllTodos] *)

Lemma by_id_total : Total by_id.
Proof. intros x y. unfold by_id. lia. Qed.

Lemma by_id_trans : Transitive by_id.
Proof. intros x y z. unfold by_id. lia. Qed.

(** The rows selected are the rows stored. *)
Lemma select_all_rows (db : database) (k : Z) (r : row) :
  (k, r) ∈ select_all db <-> todos db !! k = Some r.
Proof.
  unfold select_all. rewrite merge_sort_Permutation.
  apply elem_of_map_to_list.
Qed.

Lemma length_select_all (db : database) :
  length (select_all db) = size (todos db).
Proof.
  unfold select_all. rewrite merge_sort_Permutation.
  apply length_map_to_list.
Qed.

(** The rows come in strictly increasing order of [id]. *)
Lemma select_all_sorted (db : database) :
  StronglySorted (fun x y : Z * row => fst x < fst y) (select_all db).
Proof.
  assert (Hs : StronglySorted by_id (select_all db)).
  { pose proof by_id_total as Htotal. pose proof by_id_trans as Htrans.
    apply StronglySorted_merge_sort; assumption. }
  assert (Hn : NoDup (select_all db).*1).
  { unfold select_all. rewrite merge_sort_Permutation.
    apply NoDup_fst_map_to_list. }
  induction Hs as [| x l Hl IH Hx]; [constructor |].
  rewrite fmap_cons in Hn. apply NoDup_cons in Hn as [Hin Hn].
  constructor; [exact (IH Hn) |].
  rewrite Forall_forall in Hx |- *. intros y Hy.
  specialize (Hx y Hy). unfold by_id in Hx.
  assert (fst x <> fst y).
  { intros E. apply Hin. rewrite E. apply list_elem_of_fmap. eauto. }
  lia.
Qed.

Lemma read_rows (rows : list (Z * row)) :
  mapM (fun '(id, row) =>
          decodeUnknown
            (UObject [ (u "userId", UNumber (ofZ (user_id row)));
                       (u "id", UNumber (ofZ id));
                       (u "title", UString (row_title row));
                       (u "completed",
                        UBoolean (bool_decide
                          (status_text (row_completed row) = u "completed"))) ]))
    rows
  = if decide (Forall (fun x => readable (fst x) (snd x)) rows)
    then Some ((fun x => todo_of_row (fst x) (snd x)) <$> rows) else None.
Proof.
  induction rows as [| [k r] rows IH]; [reflexivity |].
  cbn [mapM]. rewrite IH.
  change (UObject _) with (row_object k r). rewrite decode_row.
  destruct (decide (readable k r)) as [H | H]; cbn [mbind option_bind].
  - destruct (decide (Forall _ rows)) as [H' | H']; cbn [mbind option_bind].
    + rewrite decide_True by (constructor; assumption). reflexivity.
    + rewrite decide_False; [reflexivity |].
      intros Hall. apply Forall_cons in Hall. tauto.
  - rewrite decide_False; [reflexivity |].
    intros Hall. apply Forall_cons in Hall. tauto.
Qed.

(** [getAllTodos], by cases on the rows. *)
Lemma getAllTodos_rows (db : database) :
  getAllTodos db
  = if decide (Forall (fun x => readable (fst x) (snd x)) (select_all db))
    then Success ((fun x => todo_of_row (fst x) (snd x)) <$> select_all db)
    else Failure (DatabaseError (FailedToFetchText ParseErrorText)).
Proof.
  unfold getAllTodos. cbn zeta. rewrite read_rows.
  destruct (decide _); reflexivity.
Qed.

(** X3: what [getAllTodos] returns is in strictly increasing order of
    id, has one [Todo] per row, and holds exactly the todos that
    [getTodoById] returns for their id. *)
Theorem getAllTodos_sorted_and_complete (db : database) (l : list Todo) :
  getAllTodos db = Success l ->
  StronglySorted (fun a b : Todo => id a < id b) l /\
  length l = size (todos db) /\
  (forall todo, todo ∈ l <-> getTodoById (id todo) db = Success todo).
Proof.
  rewrite getAllTodos_rows.
  destruct (decide _) as [Hall |]; [| discriminate]. intros [= <-].
  split; [| split].
  - apply (StronglySorted_fmap _ (fun x y : Z * row => fst x < fst y));
      [intros x y H; exact H | apply select_all_sorted].
  - rewrite length_fmap. apply length_select_all.
  - intros todo. rewrite list_elem_of_fmap, getTodoById_row. split.
    + intros ([k r] & -> & Hin). cbn [fst snd todo_of_row id].
      rewrite Forall_forall in Hall. pose proof (Hall _ Hin) as Hr.
      apply select_all_rows in Hin. rewrite Hin.
      rewrite decide_True by exact Hr. reflexivity.
    + destruct (todos db !! id todo) as [r |] eqn:E; [| discriminate].
      destruct (decide (readable (id todo) r)); [| discriminate].
      intros [= <-]. exists (id todo, r). split; [reflexivity |].
      apply select_all_rows. exact E.
Qed.

(** X3 on the freshly initialised database. *)
Lemma getAllTodos_sorted_and_complete_witness :
  length
    [ {| userId := 1; id := 1; title := u "Learn Effect";
         completed := status_pending |};
      {| userId := 1; id := 2; title := u "Build a CLI app";
         completed := status_completed |};
      {| userId := 2; id := 3; title := u "Master TypeScript";
         completed := status_pending |};
      {| userId := 1; id := 4; title := u "Use SQLite with Effect";
         completed := status_pending |};
      {| userId := 2; id := 5; title := u "Write documentation";
         completed := status_completed |} ]
  = size (todos (fst (initializeDatabase 0 None))).
Proof.
  refine (proj1 (proj2 (getAllTodos_sorted_and_complete
                          (fst (initializeDatabase 0 None)) _ _))).
  vm_compute. reflexivity.
Defined.

Lemma getAllTodos_bad_row (db : database) :
  (exists k r, todos db !! k = Some r /\ ~ readable k r) ->
  getAllTodos db = Failure (DatabaseError (FailedToFetchText ParseErrorText)).
Proof.
  intros (k & r & Hk & Hbad). rewrite getAllTodos_rows.
  rewrite decide_False; [reflexivity |]. rewrite Forall_forall. intros Hall.
  apply Hbad. apply (Hall (k, r)). apply select_all_rows. exact Hk.
Qed.

(** On a table, [getAllTodos] fails as soon as one stored row does not
    pass the schema, and succeeds when every row does. *)
Lemma getAllTodos_fails_on_one_bad_row (db : database) :
  (getAllTodos db = Failure (DatabaseError (FailedToFetchText ParseErrorText))
   <-> exists k r, todos db !! k = Some r /\ ~ readable k r) /\
  ((exists l, getAllTodos db = Success l)
   <-> forall k r, todos db !! k = Some r -> readable k r).
Proof.
  rewrite getAllTodos_rows.
  destruct (decide _) as [Hall | Hall]; rewrite Forall_forall in Hall.
  - split; split.
    + discriminate.
    + intros (k & r & Hk & Hbad). exfalso. apply Hbad.
      apply (Hall (k, r)). apply select_all_rows. exact Hk.
    + intros _ k r Hk. apply (Hall (k, r)). apply select_all_rows. exact Hk.
    + intros _. eexists. reflexivity.
  - split; split.
    + intros _.
      destruct (decide (exists k r, todos db !! k = Some r /\ ~ readable k r))
        as [H | H]; [exact H |]. exfalso. apply Hall. intros [k r] Hin.
      destruct (decide (readable k r)) as [Hr | Hr]; [exact Hr |].
      exfalso. apply H. exists k, r. split; [| exact Hr].
      apply select_all_rows. exact Hin.
    + reflexivity.
    + intros [l [=]].
    + intros H. exfalso. apply Hall. intros [k r] Hin. apply H.
      apply select_all_rows. exact Hin.
Qed.


(** X5: after [createTodo] with a title the schema rejects, the row it
    left behind makes [getAllTodos] fail and [getTodoById] of the new
    id fail, while every other id is read as before. *)
Theorem invalid_create_breaks_listing (now : Z) (data : createData)
    (db : database) :
  ~ valid_title (data_title data) ->
  let db' := fst (createTodo now data db) in
  getAllTodos db'
    = Failure (DatabaseError (FailedToFetchText ParseErrorText)) /\
  getTodoById (next_rowid db) db'
    = Failure (DatabaseService.DatabaseError
                 (SchemaDecodeText (next_rowid db) ParseErrorText)) /\
  (forall k, k <> next_rowid db -> getTodoById k db' = getTodoById k db).
Proof.
  intros Ht db'.
  assert (Hrow : exists r, todos db' !! next_rowid db = Some r /\
                           row_title r = data_title data).
  { subst db'. unfold createTodo, insert_row. cbn [fst todos].
    rewrite lookup_insert_eq. eexists. split; reflexivity. }
  destruct Hrow as (r & Hr & Htitle).
  assert (Hbad : ~ readable (next_rowid db) r)
    by (unfold readable; rewrite Htitle; tauto).
  split; [| split].
  - apply getAllTodos_bad_row. exists (next_rowid db), r. tauto.
  - rewrite getTodoById_row, Hr. rewrite decide_False by exact Hbad.
    reflexivity.
  - intros k Hk. rewrite !getTodoById_row.
    replace (todos db' !! k) with (todos db !! k); [reflexivity |].
    subst db'. unfold createTodo, insert_row. cbn [fst todos].
    symmetry. apply lookup_insert_ne. congruence.
Qed.

(** X5 for the empty title, after the samples. *)
Lemma invalid_create_breaks_listing_witness :
  getAllTodos
    (fst (createTodo 0 {| data_userId := 1; data_title := [];
                          data_completed := None |}
            (fst (initializeDatabase 0 None))))
  = Failure (DatabaseError (FailedToFetchText ParseErrorText)).
Proof.
  refine (proj1 (invalid_create_breaks_listing 0
            {| data_userId := 1; data_title := []; data_completed := None |}
            (fst (initializeDatabase 0 None)) _)).
  unfold valid_title. simpl. lia.
Defined.

(** *** The key counter *)

Lemma consistent_insert (now k userId : Z) (title : jsstring)
    (status : CompletionStatus) (db : database) :
  consistent db -> consistent (insert_row now k userId title status db).
Proof.
  intros H j r. unfold insert_row. cbn [todos sqlite_sequence].
  destruct (decide (k = j)) as [<- | Hne].
  - intros _. lia.
  - rewrite lookup_insert_ne by assumption. intros Hj.
    specialize (H j r Hj). lia.
Qed.

Lemma consistent_update (now k userId : Z) (title : jsstring)
    (status : CompletionStatus) (db : database) :
  consistent db -> consistent (update_row now k userId title status db).
Proof.
  intros H j r. unfold update_row. cbn [todos sqlite_sequence].
  destruct (decide (k = j)) as [<- | Hne].
  - rewrite lookup_alter_eq. destruct (todos db !! k) as [r0 |] eqn:E;
      [| discriminate]. intros _. exact (H k r0 E).
  - rewrite lookup_alter_ne by assumption. apply H.
Qed.

Lemma consistent_samples (now : Z) (rows : list (Z * jsstring * CompletionStatus))
    (db : database) :
  consistent db ->
  consistent
    (foldl (fun db '(userId, title, status) =>
              insert_row now (next_rowid db) userId title status db) db rows) /\
  sqlite_sequence db
  <= sqlite_sequence
       (foldl (fun db '(userId, title, status) =>
                 insert_row now (next_rowid db) userId title status db) db rows).
Proof.
  revert db. induction rows as [| [[a t] c] rows IH]; intros db H;
    [split; [exact H | reflexivity] |].
  cbn [foldl].
  destruct (IH (insert_row now (next_rowid db) a t c db)
              (consistent_insert _ _ _ _ _ _ H)) as [H1 H2].
  split; [exact H1 |].
  etransitivity; [| exact H2]. unfold insert_row. cbn [sqlite_sequence]. lia.
Qed.

(** X6: [createTodo], [saveTodo], [clearAllTodos] and
    [initializeDatabase] keep the key counter at or above every stored
    key, and none of them lowers it. *)
Theorem key_counter_is_kept (db : database) :
  consistent db ->
  (forall now data,
     consistent (fst (createTodo now data db)) /\
     sqlite_sequence db <= sqlite_sequence (fst (createTodo now data db))) /\
  (forall now todo,
     consistent (fst (saveTodo now todo db)) /\
     sqlite_sequence db <= sqlite_sequence (fst (saveTodo now todo db))) /\
  (consistent (fst (clearAllTodos db)) /\
   sqlite_sequence (fst (clearAllTodos db)) = sqlite_sequence db) /\
  (forall now,
     consistent (fst (initializeDatabase now (Some db))) /\
     sqlite_sequence db
     <= sqlite_sequence (fst (initializeDatabase now (Some db)))).
Proof.
  intros H. split; [| split; [| split]].
  - intros now data. unfold createTodo. cbn [fst].
    split; [apply consistent_insert; exact H |].
    unfold insert_row. cbn [sqlite_sequence]. lia.
  - intros now todo. unfold saveTodo. cbn [fst].
    destruct (0 <? _).
    + split; [apply consistent_update; exact H | reflexivity].
    + split; [apply consistent_insert; exact H |].
      unfold insert_row. cbn [sqlite_sequence]. lia.
  - split; [| reflexivity]. intros k r. unfold clearAllTodos.
    cbn [fst todos]. rewrite lookup_empty. discriminate.
  - intros now. unfold initializeDatabase. cbn [fst default from_option].
    unfold Datatypes.id.
    destruct (_ =? 0); [apply consistent_samples; exact H |].
    split; [exact H | reflexivity].
Qed.

(** X6 for [clearAllTodos] on the freshly initialised database. *)
Lemma key_counter_is_kept_witness :
  consistent (fst (clearAllTodos (fst (initializeDatabase 0 None)))) /\
  sqlite_sequence (fst (clearAllTodos (fst (initializeDatabase 0 None))))
  = sqlite_sequence (fst (initializeDatabase 0 None)).
Proof.
  refine (proj1 (proj2 (proj2
            (key_counter_is_kept (fst (initializeDatabase 0 None)) _)))).
  unfold initializeDatabase. cbn [fst default from_option].
  apply consistent_samples. intros k r. cbn [todos].
  rewrite lookup_empty. discriminate.
Defined.

Lemma saveTodo_row (now : Z) (todo : Todo) (db : database) :
  exists created,
    todos (fst (saveTodo now todo db)) !! id todo
    = Some (written_row now created todo).
Proof.
  destruct (todos db !! id todo) as [r |] eqn:E.
  - rewrite (saveTodo_existing now todo db r E). cbn zeta. cbn [fst todos].
    exists (created_at r). apply lookup_insert_eq.
  - rewrite (saveTodo_new now todo db E). cbn zeta. cbn [fst todos].
    exists now. apply lookup_insert_eq.
Qed.

(** A valid todo is saved, and only its row is written. *)
Lemma saveTodo_valid (now : Z) (todo : Todo) (db : database) :
  safe (id todo) -> safe (userId todo) -> valid_title (title todo) ->
  snd (saveTodo now todo db)
  = Success {| userId := userId todo; id := id todo; title := title todo;
               completed := status_completed |} /\
  (forall k, k <> id todo ->
     todos (fst (saveTodo now todo db)) !! k = todos db !! k).
Proof.
  intros Hid Hu Ht.
  assert (Hread : forall created,
            readable (id todo) (written_row now created todo))
    by (intros created; split; [| split]; assumption).
  destruct (todos db !! id todo) as [r |] eqn:E.
  - rewrite (saveTodo_existing now todo db r E). cbn zeta. cbn [fst snd].
    rewrite getTodoById_row. cbn [todos]. rewrite lookup_insert_eq.
    rewrite decide_True by apply Hread. split; [reflexivity |].
    intros k Hk. apply lookup_insert_ne. congruence.
  - rewrite (saveTodo_new now todo db E). cbn zeta. cbn [fst snd].
    rewrite getTodoById_row. cbn [todos]. rewrite lookup_insert_eq.
    rewrite decide_True by apply Hread. split; [reflexivity |].
    intros k Hk. apply lookup_insert_ne. congruence.
Qed.

Lemma initializeDatabase_keeps (t : Z) (db : database) :
  todos db <> ∅ -> fst (initializeDatabase t (Some db)) = db.
Proof.
  intros Hne. unfold initializeDatabase. cbn [fst default from_option].
  unfold Datatypes.id. apply map_size_non_empty_iff in Hne.
  destruct (Z.eqb_spec (Z.of_nat (size (todos db))) 0) as [E | _];
    [lia | reflexivity].
Qed.

Lemma initializeDatabase_fills (now : Z) (file : option database) :
  todos (fst (initializeDatabase now file)) <> ∅.
Proof.
  unfold initializeDatabase. cbn [fst].
  set (db := default {| todos := ∅; sqlite_sequence := 0 |} file).
  destruct (Z.eqb_spec (Z.of_nat (size (todos db))) 0) as [E | E].
  - unfold sampleData. cbn [foldl]. unfold insert_row at 1. cbn [todos].
    apply insert_non_empty.
  - apply map_size_non_empty_iff. lia.
Qed.

Lemma initializeDatabase_again (now now' : Z) (file : option database) :
  fst (initializeDatabase now' (Some (fst (initializeDatabase now file))))
  = fst (initializeDatabase now file).
Proof. apply initializeDatabase_keeps, initializeDatabase_fills. Qed.

(** X9: [initializeDatabase] succeeds, leaves a table that holds rows
    as it is, never leaves the table empty, and changes nothing when run
    again; on a fresh file it stores the five samples under the ids 1
    to 5. *)
Theorem initializeDatabase_seeds_once (now now' : Z) (file : option database) :
  snd (initializeDatabase now file) = Success tt /\
  (forall db, file = Some db -> todos db <> ∅ ->
     fst (initializeDatabase now file) = db) /\
  todos (fst (initializeDatabase now file)) <> ∅ /\
  fst (initializeDatabase now' (Some (fst (initializeDatabase now file))))
  = fst (initializeDatabase now file) /\
  getAllTodos (fst (initializeDatabase now None))
  = Success
      [ {| userId := 1; id := 1; title := u "Learn Effect";
           completed := status_pending |};
        {| userId := 1; id := 2; title := u "Build a CLI app";
           completed := status_completed |};
        {| userId := 2; id := 3; title := u "Master TypeScript";
           completed := status_pending |};
        {| userId := 1; id := 4; title := u "Use SQLite with Effect";
           completed := status_pending |};
        {| userId := 2; id := 5; title := u "Write documentation";
           completed := status_completed |} ].
Proof.
  pose proof initializeDatabase_keeps as Hkeep.
  pose proof (initializeDatabase_fills now file) as Hfull.
  split; [reflexivity |]. split; [| split; [exact Hfull | split]].
  - intros db -> Hne. apply Hkeep. exact Hne.
  - apply Hkeep. exact Hfull.
  - vm_compute. reflexivity.
Qed.


(** A row inserted under a key above every stored key comes last. *)
Lemma select_all_insert_last (k : Z) (r : row) (m : gmap Z row) (s s' : Z) :
  (forall j x, m !! j = Some x -> j < k) ->
  select_all {| todos := <[ k := r ]> m; sqlite_sequence := s' |}
  = select_all {| todos := m; sqlite_sequence := s |} ++ [(k, r)].
Proof.
  intros Hk.
  assert (Hfresh : m !! k = None).
  { destruct (m !! k) as [x |] eqn:E; [| reflexivity].
    specialize (Hk k x E). lia. }
  apply (StronglySorted_unique_strong (fun x y : Z * row => fst x < fst y)).
  - intros x1 x2 _ _ H1 H2. lia.
  - apply select_all_sorted.
  - apply StronglySorted_app_2;
      [| apply select_all_sorted | repeat constructor].
    intros [j x] y Hj Hy. apply list_elem_of_singleton in Hy as ->.
    apply select_all_rows in Hj. cbn [todos] in Hj. exact (Hk j x Hj).
  - unfold select_all. rewrite !merge_sort_Permutation. cbn [todos].
    rewrite map_to_list_insert by exact Hfresh.
    rewrite Permutation_app_comm. reflexivity.
Qed.

(** On a table whose listing succeeds, a todo created with valid data
    under a key in the safe range is appended to it: the listing
    afterwards is the listing before followed by the new todo. *)
Lemma created_todo_is_listed_last (now : Z) (data : createData)
    (db : database) (l : list Todo) :
  safe (data_userId data) -> valid_title (data_title data) ->
  safe (next_rowid db) ->
  getAllTodos db = Success l ->
  exists todo,
    snd (createTodo now data db) = Success todo /\
    getAllTodos (fst (createTodo now data db)) = Success (l ++ [todo]).
Proof.
  intros Hu Ht Hid Hl.
  set (status := match data_completed data with
                 | Some true => status_completed
                 | _ => status_pending
                 end).
  set (r := {| user_id := data_userId data; row_title := data_title data;
               row_completed := status; created_at := now;
               updated_at := now |}).
  assert (Hr : readable (next_rowid db) r)
    by (split; [| split]; assumption).
  assert (Hdb : fst (createTodo now data db)
                = {| todos := <[ next_rowid db := r ]> (todos db);
                     sqlite_sequence :=
                       Z.max (sqlite_sequence db) (next_rowid db) |})
    by reflexivity.
  exists (todo_of_row (next_rowid db) r). split.
  - unfold createTodo. cbn [snd]. fold status.
    change (insert_row now (next_rowid db) (data_userId data)
              (data_title data) status db)
      with {| todos := <[ next_rowid db := r ]> (todos db);
              sqlite_sequence :=
                Z.max (sqlite_sequence db) (next_rowid db) |}.
    rewrite getTodoById_row. cbn [todos]. rewrite lookup_insert_eq.
    rewrite decide_True by exact Hr. reflexivity.
  - rewrite Hdb. rewrite getAllTodos_rows in Hl |- *.
    rewrite (select_all_insert_last _ _ _ (sqlite_sequence db))
      by (apply next_rowid_above).
    destruct db as [m s]. cbn [todos sqlite_sequence] in *.
    destruct (decide (Forall _ (select_all _))) as [Hall |]; [| discriminate].
    injection Hl as <-.
    rewrite decide_True.
    + rewrite fmap_app. reflexivity.
    + apply Forall_app. split; [exact Hall |]. apply Forall_singleton. exact Hr.
Qed.

End StoreFacts.

(** ** The commands over the local database *)

Module CommandFacts.
Import JS Effect Todo ProgressBarService DatabaseService DatabaseTable Spec
  Store Commands NumberFacts ProgressFacts DatabaseFacts StoreFacts.

Section Pretty.
Context (pretty : Todo -> jsstring).

Lemma Number_toString_safe (k : Z) :
  safe k -> Number_toString (ofZ k) = Z_toString k.
Proof.
  intros H. apply Number_toString_represented, ofZ_represents.
  unfold safe in H. lia.
Qed.

Lemma list_lines (l : list Todo) (out : terminal) :
  foldl (fun out todo => Console_log (u "---") (Console_log (pretty todo) out))
    out l
  = out ++ (l ≫= fun todo => [pretty todo ++ line_feed; u "---" ++ line_feed]).
Proof.
  revert out. induction l as [| todo l IH]; intros out.
  - cbn. rewrite app_nil_r. reflexivity.
  - cbn [foldl]. rewrite IH. unfold Console_log, display.
    rewrite bind_cons, <- !app_assoc. reflexivity.
Qed.

(** On a table, the [get] command prints the not-found line, with the
    id, and succeeds when no row has the id; prints the header and the
    todo when the row passes the schema; and otherwise fails with the
    decode error and prints nothing, only [TodoNotFound] being caught. *)
Lemma get_command_outcomes (k : Z) (db : database) (out : terminal) :
  (todos db !! k = None -> safe k ->
   getLocalTodoCommand pretty k db out
   = (out ++ [SyncTodos.cross_mark ++ u " Todo " ++ Z_toString k
              ++ u " not found in local database" ++ line_feed],
      Success tt)) /\
  (forall r, todos db !! k = Some r -> readable k r ->
   getLocalTodoCommand pretty k db out
   = (out ++ [floppy_disk ++ u " From Local Database:" ++ line_feed;
              pretty (todo_of_row k r) ++ line_feed],
      Success tt)) /\
  (forall r, todos db !! k = Some r -> ~ readable k r ->
   getLocalTodoCommand pretty k db out
   = (out, Failure (DatabaseService.DatabaseError
                      (SchemaDecodeText k ParseErrorText)))).
Proof.
  unfold getLocalTodoCommand. rewrite getTodoById_row.
  split; [| split].
  - intros -> Hk. rewrite (Number_toString_safe k Hk).
    unfold Console_log, display. rewrite <- !app_assoc. reflexivity.
  - intros r -> Hr. rewrite decide_True by exact Hr.
    unfold Console_log, display. rewrite <- !app_assoc. reflexivity.
  - intros r -> Hr. rewrite decide_False by exact Hr. reflexivity.
Qed.

Lemma list_command_success (db : database) (out : terminal) (l : list Todo) :
  getAllTodos db = Success l ->
  listLocalTodosCommand pretty db out
  = (out ++ (floppy_disk ++ u " All Todos from Local Database:" ++ line_feed)
         :: (l ≫= fun todo => [pretty todo ++ line_feed;
                               u "---" ++ line_feed]),
     Success tt).
Proof.
  intros H. unfold listLocalTodosCommand. rewrite H, list_lines.
  unfold Console_log, display. rewrite <- !app_assoc. reflexivity.
Qed.

(** X12: the [list] command prints the header, then for every row, in
    order of id, the todo and a separator line: one line plus two per
    row; when a row does not pass the schema it fails and prints
    nothing. *)
Theorem list_command_output (db : database) (out : terminal) :
  (forall l, getAllTodos db = Success l ->
     listLocalTodosCommand pretty db out
     = (out ++ (floppy_disk ++ u " All Todos from Local Database:"
                ++ line_feed)
            :: (l ≫= fun todo => [pretty todo ++ line_feed;
                                  u "---" ++ line_feed]),
        Success tt) /\
     length (fst (listLocalTodosCommand pretty db out))
     = (length out + 1 + 2 * size (todos db))%nat) /\
  ((exists k r, todos db !! k = Some r /\ ~ readable k r) ->
   listLocalTodosCommand pretty db out
   = (out, Failure (DatabaseError (FailedToFetchText ParseErrorText)))).
Proof.
  split.
  - intros l Hl. rewrite (list_command_success db out l Hl).
    split; [reflexivity |]. cbn [fst].
    rewrite length_app. cbn [length].
    assert (Hlen : forall l' : list Todo,
              length (l' ≫= fun todo => [pretty todo ++ line_feed;
                                         u "---" ++ line_feed])
              = (2 * length l')%nat).
    { induction l' as [| t l' IH]; [reflexivity |].
      rewrite bind_cons, length_app, IH. cbn [length]. lia. }
    rewrite Hlen. rewrite getAllTodos_rows in Hl.
    destruct (decide _); [| discriminate]. injection Hl as <-.
    rewrite length_fmap, length_select_all. lia.
  - intros H. unfold listLocalTodosCommand.
    rewrite (getAllTodos_bad_row db H). reflexivity.
Qed.

(** On a table, the [create] command with valid data and a key in the
    safe range prints the confirmation and the new todo, and [get] with
    the new id then prints that same todo. *)
Lemma create_then_get_shows_the_todo (now userId : Z) (title : jsstring)
    (completed : option bool) (db : database) (out out' : terminal) :
  safe userId -> valid_title title -> safe (next_rowid db) ->
  let todo := {| Todo.userId := userId; id := next_rowid db; Todo.title := title;
                 Todo.completed := if default false completed
                                   then status_completed else status_pending |} in
  let db' := fst (fst (createTodoCommand pretty now userId title completed db out)) in
  createTodoCommand pretty now userId title completed db out
  = (db', out ++ [check_mark ++ u " Created new todo:" ++ line_feed;
                  pretty todo ++ line_feed], Success tt) /\
  getLocalTodoCommand pretty (next_rowid db) db' out'
  = (out' ++ [floppy_disk ++ u " From Local Database:" ++ line_feed;
              pretty todo ++ line_feed], Success tt).
Proof.
  intros Hu Ht Hid todo db'.
  set (data := {| data_userId := userId; data_title := title;
                  data_completed := Some (default false completed) |}).
  destruct (createTodo_reads_back now data db Hu Ht Hid) as (Hres & Hget).
  cbn [data_completed data default from_option] in Hres, Hget.
  unfold Datatypes.id in Hres, Hget.
  assert (Hcmd : createTodoCommand pretty now userId title completed db out
                 = (fst (createTodo now data db),
                    out ++ [check_mark ++ u " Created new todo:" ++ line_feed;
                            pretty todo ++ line_feed], Success tt)).
  { unfold createTodoCommand. fold data.
    destruct (createTodo now data db) as [db1 res] eqn:E.
    cbn [snd fst] in *. rewrite Hres.
    unfold Console_log, display. rewrite <- !app_assoc. reflexivity. }
  assert (Hdb : db' = fst (createTodo now data db))
    by (subst db'; rewrite Hcmd; reflexivity).
  split; [rewrite Hdb; exact Hcmd |].
  unfold getLocalTodoCommand. rewrite Hdb, Hget.
  unfold Console_log, display. rewrite <- !app_assoc. reflexivity.
Qed.

(** On a table, the [clear] command prints its confirmation; afterwards
    [list] prints the header alone and [get] reports every id as not
    found. *)
Lemma clear_then_list_and_get (db : database) (out out' : terminal) :
  let db' := fst (fst (clearTodosCommand db out)) in
  clearTodosCommand db out
  = (db', out ++ [check_mark ++ u " Cleared all todos" ++ line_feed],
     Success tt) /\
  listLocalTodosCommand pretty db' out'
  = (out' ++ [floppy_disk ++ u " All Todos from Local Database:"
              ++ line_feed], Success tt) /\
  (forall k, safe k ->
     getLocalTodoCommand pretty k db' out'
     = (out' ++ [SyncTodos.cross_mark ++ u " Todo " ++ Z_toString k
                 ++ u " not found in local database" ++ line_feed],
        Success tt)).
Proof.
  intros db'. split; [| split].
  - unfold clearTodosCommand, clearAllTodos, Console_log, display.
    rewrite <- !app_assoc. reflexivity.
  - rewrite (list_command_success db' out' []) by reflexivity. reflexivity.
  - intros k Hk. unfold getLocalTodoCommand. rewrite getTodoById_row.
    subst db'. unfold clearTodosCommand, clearAllTodos. cbn [fst todos].
    rewrite lookup_empty, (Number_toString_safe k Hk).
    unfold Console_log, display. rewrite <- !app_assoc. reflexivity.
Qed.

(** X15: the [init] command prints its confirmation and leaves the same
    database when run again; on a fresh file, [list] then prints the
    five samples. *)
Theorem init_then_list (now now' : Z) (file : option database)
    (out out' : terminal) :
  let db := fst (fst (initDbCommand now file out)) in
  initDbCommand now file out
  = (db, out ++ [check_mark ++ u " Database initialized successfully!"
                 ++ line_feed], Success tt) /\
  fst (fst (initDbCommand now' (Some db) out')) = db /\
  (file = None ->
   listLocalTodosCommand pretty db out'
   = (out' ++ (floppy_disk ++ u " All Todos from Local Database:"
               ++ line_feed)
           :: ([ {| userId := 1; id := 1; title := u "Learn Effect";
                    completed := status_pending |};
                 {| userId := 1; id := 2; title := u "Build a CLI app";
                    completed := status_completed |};
                 {| userId := 2; id := 3; title := u "Master TypeScript";
                    completed := status_pending |};
                 {| userId := 1; id := 4; title := u "Use SQLite with Effect";
                    completed := status_pending |};
                 {| userId := 2; id := 5; title := u "Write documentation";
                    completed := status_completed |} ]
               ≫= fun todo => [pretty todo ++ line_feed;
                               u "---" ++ line_feed]),
      Success tt)).
Proof.
  intros db.
  assert (Hdb : db = fst (initializeDatabase now file)).
  { subst db. unfold initDbCommand.
    destruct (initializeDatabase now file) as [d r] eqn:E.
    assert (r = Success tt) as -> by (injection E as _ <-; reflexivity).
    reflexivity. }
  split; [| split].
  - unfold initDbCommand.
    assert (E : initializeDatabase now file
                = (fst (initializeDatabase now file), Success tt))
      by reflexivity.
    rewrite E, <- Hdb. unfold Console_log, display.
    rewrite <- !app_assoc. reflexivity.
  - unfold initDbCommand.
    assert (E : initializeDatabase now' (Some db)
                = (fst (initializeDatabase now' (Some db)), Success tt))
      by reflexivity.
    rewrite E. cbn [fst]. rewrite Hdb. apply initializeDatabase_again.
  - intros ->. apply list_command_success. rewrite Hdb.
    vm_compute. reflexivity.
Qed.

End Pretty.

End CommandFacts.

(** ** A whole run of [sync] *)

Module SyncRunFacts.
Import JS Effect Todo ProgressBarService DatabaseService ConcurrencySchema
  SyncTodos Spec Store Batch NumberFacts ProgressFacts DatabaseFacts StoreFacts
  SyncFacts.

Lemma seqZ_one (m : Z) : seqZ m 1 = [m].
Proof. unfold seqZ. cbn. f_equal; lia. Qed.

Lemma createSyncProgressMessage_exit (E : Type) (x y : number) :
  createSyncProgressMessage (E := E) x y
  = match createSyncProgressMessage (E := False) x y with
    | Success msg => Success msg
    | Failure _ => Die RangeError
    | Die d => Die d
    end.
Proof. unfold createSyncProgressMessage. destruct (bar x y); reflexivity. Qed.

Lemma progress_line_shown (E : Type) (k n : Z) :
  0 <= k <= n -> 0 < n < 2 ^ 53 ->
  createSyncProgressMessage (E := E) (ofZ k) (ofZ n)
  = Success (progress_line k n).
Proof.
  intros Hk Hn. rewrite createSyncProgressMessage_exit. unfold progress_line.
  destruct (message_valid (ofZ k) (ofZ n) k n) as (f & p & _ & _ & _ & _ & _ & ->);
    [apply ofZ_represents; lia | apply ofZ_represents; lia | lia | lia |].
  reflexivity.
Qed.

Lemma ge_represented (x y : number) (a b : Z) :
  represents x a -> represents y b -> ge x y = (b <=? a).
Proof.
  intros (p & -> & Hp) (q & -> & Hq). cbn [ge].
  destruct (Z.leb_spec b a) as [H | H].
  - apply Qle_bool_iff. rewrite Hp, Hq, <- Zle_Qle. exact H.
  - destruct (Qle_bool q p) eqn:E; [| reflexivity].
    apply Qle_bool_iff in E. rewrite Hp, Hq, <- Zle_Qle in E. lia.
Qed.

Lemma updateProgress_line (E : Type) (k n : Z) (out : terminal) :
  0 <= k <= n -> 0 < n < 2 ^ 53 ->
  updateProgress (E := E) (ofZ k) (ofZ n) out
  = (out ++ (carriage_return ++ progress_line k n)
         :: (if bool_decide (k = n) then [line_feed] else []),
     Success tt).
Proof.
  intros Hk Hn. unfold updateProgress.
  rewrite (progress_line_shown E k n Hk Hn).
  rewrite (ge_represented (ofZ k) (ofZ n) k n)
    by (apply ofZ_represents; lia).
  unfold display. destruct (Z.leb_spec n k) as [H | H].
  - rewrite bool_decide_eq_true_2 by lia. rewrite <- app_assoc. reflexivity.
  - rewrite bool_decide_eq_false_2 by lia. reflexivity.
Qed.


Section Run.
Context (remote : Z -> Exit TodoService.GetTodoByIdError Todo) (now : Z -> Z).

(** The loop over ids that are all fetched, from any count reached. *)
Lemma run_all_fetched (total : Z) (ids : list Z) :
  0 < total < 2 ^ 53 -> all_fetched remote ids ->
  forall st, 0 <= completed st ->
    completed st + Z.of_nat (length ids) <= total ->
    exists db',
      forEach_sequential (syncTodo remote now total) ids st
      = ({| database := db';
            output := output st
                      ++ updates total
                           (seqZ (completed st + 1) (Z.of_nat (length ids)));
            completed := completed st + Z.of_nat (length ids) |},
         Success tt) /\
      stored remote ids db' /\ untouched remote ids (database st) db'.
Proof.
  intros Htotal. induction ids as [| id ids IH] using rev_ind;
    intros Hall st Hc Hlen.
  - exists (database st). split; [| split].
    + cbn [forEach_sequential length]. unfold updates. rewrite seqZ_nil by lia.
      cbn. rewrite app_nil_r, Z.add_0_r. destruct st; reflexivity.
    + intros i t Hi. apply elem_of_nil in Hi. contradiction.
    + intros k _. reflexivity.
  - rewrite length_app in Hlen |- *. cbn [length] in Hlen |- *.
    assert (Hall' : all_fetched remote ids)
      by (intros i Hi; apply Hall, elem_of_app; left; exact Hi).
    rewrite Nat2Z.inj_add in Hlen |- *. change (Z.of_nat 1) with 1 in Hlen |- *.
    assert (Hlen' : completed st + Z.of_nat (length ids) <= total) by lia.
    destruct (IH Hall' st Hc Hlen') as (db1 & Hrun & Hst & Hun).
    destruct (Hall id) as (todo & Hfetch & Hid & Huser & Htitle);
      [apply elem_of_app; right; apply list_elem_of_singleton; reflexivity |].
    set (c1 := completed st + Z.of_nat (length ids)) in *.
    destruct (saveTodo_valid (now c1) todo db1 Hid Huser Htitle)
      as (Hsaved & Hframe).
    destruct (saveTodo_row (now c1) todo db1) as (created & Hrow).
    destruct (saveTodo (now c1) todo db1) as [db2 res] eqn:Esave.
    cbn [fst snd] in Hsaved, Hframe, Hrow. subst res.
    exists db2. split; [| split].
    + rewrite forEach_sequential_app, Hrun. cbn [forEach_sequential].
      unfold syncTodo. cbn [completed database output]. rewrite Hfetch, Esave.
      rewrite (updateProgress_line error (c1 + 1) total) by lia.
      rewrite seqZ_app by lia. unfold updates. rewrite bind_app.
      replace (completed st + 1 + Z.of_nat (length ids)) with (c1 + 1)
        by (subst c1; lia).
      rewrite seqZ_one.
      rewrite bind_cons. change (@nil Z ≫= _) with (@nil jsstring) at 1.
      rewrite app_nil_r, <- app_assoc.
      replace (completed st + (Z.of_nat (length ids) + 1)) with (c1 + 1)
        by (subst c1; lia).
      reflexivity.
    + intros i t Hi Hit.
      destruct (decide (Todo.id t = Todo.id todo)) as [E | E].
      * exists (written_row (now c1) created todo), id, todo.
        rewrite E. split; [exact Hrow |].
        split; [apply elem_of_app; right; apply list_elem_of_singleton;
                reflexivity |].
        split; [exact Hfetch |]. repeat split.
      * apply elem_of_app in Hi as [Hi | Hi].
        -- destruct (Hst i t Hi Hit) as (r & i' & t' & H1 & H2 & H3 & H4).
           exists r, i', t'. rewrite Hframe by exact E.
           split; [exact H1 |].
           split; [apply elem_of_app; left; exact H2 |].
           split; [exact H3 | exact H4].
        -- apply list_elem_of_singleton in Hi. subst i. congruence.
    + intros k Hk. rewrite Hframe.
      * apply Hun. intros i t Hi Hit. apply (Hk i t); [| exact Hit].
        apply elem_of_app. left. exact Hi.
      * intros ->. apply (Hk id todo); [| exact Hfetch | reflexivity].
        apply elem_of_app. right. apply list_elem_of_singleton. reflexivity.
Qed.

(** In a complete run the line feed comes once, after the last update. *)
Lemma updates_full (n : Z) :
  0 < n ->
  updates n (seqZ 1 n)
  = ((fun k => carriage_return ++ progress_line k n) <$> seqZ 1 n)
    ++ [line_feed].
Proof.
  intros Hn.
  assert (E : seqZ 1 n = seqZ 1 (n - 1) ++ [n]).
  { replace (seqZ 1 n) with (seqZ 1 ((n - 1) + 1)) by (f_equal; lia).
    rewrite seqZ_app, seqZ_one by lia. do 2 f_equal. lia. }
  rewrite E.
  unfold updates. rewrite bind_app, fmap_app, bind_cons.
  change (@nil Z ≫= _) with (@nil jsstring) at 1.
  rewrite bool_decide_eq_true_2 by reflexivity.
  rewrite app_nil_r. cbn [fmap list_fmap]. rewrite <- app_assoc. f_equal.
  assert (H : forall l : list Z, Forall (fun k => k <> n) l ->
            (l ≫= fun k => (carriage_return ++ progress_line k n)
                           :: (if bool_decide (k = n) then [line_feed] else []))
            = (fun k => carriage_return ++ progress_line k n) <$> l).
  { induction l as [| k l IHl]; intros Hl; [reflexivity |].
    apply Forall_cons in Hl as [Hk Hl].
    rewrite bind_cons, fmap_cons, (IHl Hl).
    rewrite bool_decide_eq_false_2 by exact Hk. reflexivity. }
  apply H. apply Forall_forall. intros k Hk. apply elem_of_seqZ in Hk. lia.
Qed.

(** On a table, a sequential [sync] of a non-empty list of ids that are
    all fetched succeeds: the counter ends at the number of ids, every
    fetched todo has a row under its own id with the status
    ["completed"], the rows under other keys are untouched, and the
    terminal shows the banner, the initial bar, one updated bar per id,
    a single line feed after the last one, and the success line. *)
Lemma sync_run_stores_every_todo (ids : list Z) (st : state) :
  ids <> [] -> Z.of_nat (length ids) < 2 ^ 32 -> all_fetched remote ids ->
  let n := Z.of_nat (length ids) in
  let st' := fst (syncTodoCommand_sequential remote now ids st) in
  snd (syncTodoCommand_sequential remote now ids st) = Success tt /\
  completed st' = n /\
  stored remote ids (database st') /\
  untouched remote ids (database st) (database st') /\
  output st'
  = output st
    ++ [satellite_antenna ++ u " Syncing " ++ Z_toString n
        ++ u " todo(s) from API (sequential)..." ++ line_feed;
        progress_line 0 n]
    ++ ((fun k => carriage_return ++ progress_line k n) <$> seqZ 1 n)
    ++ [line_feed;
        party_popper ++ u " Successfully synced " ++ Z_toString n
        ++ u " todo(s) to local database!" ++ line_feed].
Proof.
  intros Hne Hlen Hall n st'.
  assert (Hn : 0 < n < 2 ^ 53).
  { subst n. destruct ids; [congruence |]. cbn [length] in *.
    assert (2 ^ 32 = 4294967296) by reflexivity.
    assert (2 ^ 53 = 9007199254740992) by reflexivity. lia. }
  set (st0 := {| database := database st;
                 output := output st
                   ++ [satellite_antenna ++ u " Syncing " ++ Z_toString n
                       ++ u " todo(s) from API (sequential)..." ++ line_feed;
                       progress_line 0 n];
                 completed := 0 |}).
  destruct (run_all_fetched n ids Hn Hall st0 ltac:(reflexivity)
              ltac:(cbn [completed st0]; lia))
    as (db' & Hrun & Hst & Hun).
  cbn [completed output st0] in Hrun.
  assert (Hcmd : syncTodoCommand_sequential remote now ids st
          = (Console_log (party_popper ++ u " Successfully synced "
                          ++ Z_toString n
                          ++ u " todo(s) to local database!")
               {| database := db';
                  output := output st0 ++ updates n (seqZ 1 n);
                  completed := n |},
             Success tt)).
  { unfold syncTodoCommand_sequential.
    rewrite bool_decide_eq_false_2 by exact Hne. cbn zeta. fold n.
    unfold initializeProgress at 1. cbn [completed].
    rewrite (progress_line_shown error 0 n) by lia.
    unfold Console_log at 2 3 4. cbn [database output completed].
    unfold display. rewrite <- !app_assoc.
    change (output st ++ [satellite_antenna ++ u " Syncing " ++ Z_toString n
                ++ u " todo(s) from API (" ++ mode (level 1) ++ u ")..."
                ++ line_feed] ++ [progress_line 0 n])
      with (output st0).
    change (database (Console_log _ st)) with (database st).
    change {| database := database st; output := output st0; completed := 0 |}
      with st0.
    rewrite Hrun. reflexivity. }
  subst st'. rewrite Hcmd. cbn [fst snd].
  unfold Console_log. cbn [database output completed].
  split; [reflexivity |]. split; [reflexivity |]. split; [exact Hst |].
  split; [exact Hun |].
  rewrite (updates_full n) by lia. unfold display. cbn [output st0].
  rewrite <- !app_assoc. reflexivity.
Qed.

End Run.

(** X17: for [0 <= k <= n], [initializeProgress] writes the progress
    line and [updateProgress] writes a carriage return and the progress
    line, followed by a line feed exactly when [k = n]; for [k >= 2 * n]
    both die with the [RangeError] and write nothing. *)
Theorem progress_display_writes (E : Type) (k n : Z) (out : terminal) :
  0 < n < 2 ^ 53 ->
  (0 <= k <= n ->
   initializeProgress (E := E) (ofZ k) (ofZ n) out
   = (out ++ [progress_line k n], Success tt) /\
   updateProgress (E := E) (ofZ k) (ofZ n) out
   = (out ++ (carriage_return ++ progress_line k n)
          :: (if bool_decide (k = n) then [line_feed] else []),
      Success tt)) /\
  (2 * n <= k < 2 ^ 53 ->
   initializeProgress (E := E) (ofZ k) (ofZ n) out = (out, Die RangeError) /\
   updateProgress (E := E) (ofZ k) (ofZ n) out = (out, Die RangeError)).
Proof.
  intros Hn. split.
  - intros Hk. split; [| apply updateProgress_line; assumption].
    unfold initializeProgress. rewrite (progress_line_shown E k n Hk Hn).
    reflexivity.
  - intros Hk.
    assert (Hdie : createSyncProgressMessage (E := E) (ofZ k) (ofZ n)
                   = Die RangeError).
    { unfold createSyncProgressMessage.
      rewrite (bar_overfull (ofZ k) (ofZ n) k n)
        by (first [apply ofZ_represents; lia | lia]).
      reflexivity. }
    unfold initializeProgress, updateProgress. rewrite Hdie.
    split; reflexivity.
Qed.

(** X17 at the last of three items. *)
Lemma progress_display_writes_witness :
  updateProgress (E := False) (ofZ 3) (ofZ 3) []
  = ([carriage_return ++ progress_line 3 3; line_feed], Success tt).
Proof.
  refine (proj2 (proj1 (progress_display_writes False 3 3 [] _) _)).
  - assert (2 ^ 53 = 9007199254740992) by reflexivity. lia.
  - lia.
Defined.

End SyncRunFacts.

(** ** The counter and the progress line under any interleaving *)

Module CounterFacts.
Import JS Effect Todo ProgressBarService ConcurrencySchema SyncTodos Spec Batch
  NumberFacts ProgressFacts SyncFacts SyncRunFacts.

Lemma insert_at_length {A} (l1 l2 : list A) (x y : A) :
  <[ length l1 := y ]> (l1 ++ x :: l2) = l1 ++ y :: l2.
Proof. rewrite insert_app_r_alt by lia. rewrite Nat.sub_diag. reflexivity. Qed.

Lemma reports_next (total c : Z) :
  0 <= c ->
  reports total (c + 1)
  = reports total c ++ [carriage_return ++ progress_line (c + 1) total].
Proof.
  intros Hc. unfold reports. rewrite seqZ_app by lia.
  rewrite fmap_app, seqZ_one. cbn [fmap list_fmap].
  replace (1 + c) with (c + 1) by lia. reflexivity.
Qed.

(** The line [saved] hands to the terminal is the progress line. *)
Lemma saved_line (E : Type) (k n : Z) (msg : jsstring) :
  createSyncProgressMessage (E := E) (ofZ k) (ofZ n) = Success msg ->
  msg = progress_line k n.
Proof.
  rewrite createSyncProgressMessage_exit. unfold progress_line.
  destruct (createSyncProgressMessage (ofZ k) (ofZ n)) as [m | e | d];
    [intros [= ->]; reflexivity | discriminate | discriminate].
Qed.

Section Interleavings.
Context (concurrency : Concurrency) (ids : list Z) (out : terminal) (total : Z).
Context (Htotal : total = Z.of_nat (length ids)).

Lemma fed_kept (l : list phase) (i : nat) (p p' : phase) :
  l !! i = Some p ->
  p <> Finished total -> (p = Terminating total -> p' = Finished total) ->
  (exists j, l !! j = Some (Terminating total) \/ l !! j = Some (Finished total)) ->
  exists j, <[ i := p' ]> l !! j = Some (Terminating total)
            \/ <[ i := p' ]> l !! j = Some (Finished total).
Proof.
  intros Hi Hp Hp' [j Hj]. exists j.
  destruct (decide (i = j)) as [<- | Hne].
  - rewrite list_lookup_insert_eq by (eapply lookup_lt_Some; eassumption).
    rewrite Hi in Hj. destruct Hj as [[= ->] | [= ->]];
      [right; f_equal; apply Hp'; reflexivity | congruence].
  - rewrite list_lookup_insert_ne by exact Hne. exact Hj.
Qed.

Lemma step_reported (s s' : fibers) :
  total < 2 ^ 53 ->
  step concurrency total s s' ->
  counted_once s -> length (phases s) = length ids ->
  reported total out s -> reported total out s'.
Proof using Htotal.
  intros Hbound Hstep Hcount Hlen (feed & Hshown & Hfeed).
  pose proof (step_counted_once concurrency total s s' Hstep Hcount) as Hcount'.
  pose proof (step_length concurrency total s s' Hstep) as Hlen'.
  assert (Hle : forall t : fibers, counted_once t ->
            length (phases t) = length ids -> 0 <= counter t <= total).
  { intros t [H0 Hperm] Hl. split; [exact H0 |].
    pose proof (length_counts t) as Hc. rewrite Hperm, length_seqZ in Hc.
    lia. }
  pose proof (Hle s Hcount Hlen) as Hc.
  assert (Hc' : 0 <= counter s' <= total)
    by (apply Hle; [exact Hcount' | congruence]).
  assert (Hkeep : forall i p p',
            phases s !! i = Some p ->
            p <> Finished total -> (p = Terminating total -> p' = Finished total) ->
            reported total out
              {| phases := <[ i := p' ]> (phases s); counter := counter s;
                 shown := shown s; aborted := aborted s |}).
  { intros i p p' Hi Hp Hp'. exists feed. cbn [shown counter].
    split; [exact Hshown |].
    destruct Hfeed as [-> | (-> & Hct & Hfed)]; [left; reflexivity | right].
    split; [reflexivity |]. split; [exact Hct |].
    unfold fed. cbn [phases]. eapply fed_kept; eassumption. }
  assert (Habort : forall i p p' b,
            phases s !! i = Some p ->
            p <> Finished total -> (p = Terminating total -> p' = Finished total) ->
            reported total out
              {| phases := <[ i := p' ]> (phases s); counter := counter s;
                 shown := shown s; aborted := b |}).
  { intros i p p' b Hi Hp Hp'.
    destruct (Hkeep i p p' Hi Hp Hp') as (f & H1 & H2).
    exists f. split; [exact H1 |]. exact H2. }
  destruct Hstep; unfold set_phase;
    try (eapply Habort; [eassumption | discriminate | discriminate]).
  - (* saved *)
    cbn [counter] in Hc'.
    destruct Hfeed as [-> | (_ & Hct & _)]; [| lia].
    exists []. cbn [shown counter]. split; [| left; reflexivity].
    rewrite Hshown. unfold display. rewrite !app_nil_r.
    rewrite reports_next by lia.
    rewrite (saved_line error _ _ msg H0). rewrite <- app_assoc. reflexivity.
  - (* saved_died *)
    cbn [counter] in Hc'.
    rewrite (progress_line_shown error (counter s + 1) total) in H0 by lia.
    discriminate H0.
  - (* displayed_last *)
    assert (Hn : 1 <= n <= counter s).
    { destruct Hcount as [_ Hperm].
      assert (Hin : n ∈ counts s).
      { apply list_elem_of_omap. exists (Displaying n). split; [| reflexivity].
        eapply list_elem_of_lookup_2. eassumption. }
      rewrite Hperm in Hin. apply elem_of_seqZ in Hin. lia. }
    rewrite (ge_represented (ofZ n) (ofZ total) n total) in H0
      by (apply ofZ_represents; lia).
    apply Z.leb_le in H0.
    assert (n = total) as -> by lia.
    destruct Hfeed as [-> | (_ & _ & j & Hj)].
    + exists [line_feed]. cbn [shown counter]. split.
      * rewrite Hshown. unfold display. rewrite app_nil_r, <- app_assoc.
        reflexivity.
      * right. split; [reflexivity |]. split; [lia |].
        exists i. left. cbn [phases].
        apply list_lookup_insert_eq. eapply lookup_lt_Some; eassumption.
    + exfalso.
      assert (Hnd : NoDup (counts s)).
      { destruct Hcount as [_ Hperm]. rewrite Hperm. apply NoDup_seqZ. }
      destruct Hj as [Hj | Hj];
        pose proof (NoDup_omap_lookup (phases s) i j _ _ total Hnd H Hj
                      eq_refl eq_refl) as ->;
        rewrite H in Hj; discriminate Hj.
  - (* terminated *)
    eapply Habort; [eassumption | discriminate |].
    intros [= ->]. reflexivity.
  - (* interrupted *)
    eapply Habort; [eassumption | | ].
    + destruct H1 as [-> | ->]; discriminate.
    + destruct H1 as [-> | ->]; discriminate.
Qed.

End Interleavings.

Section Sequential.
Context (remote : Z -> Exit TodoService.GetTodoByIdError Todo) (now : Z -> Z)
  (total : Z).

Lemma none_in_flight (done : list phase) (m : nat) :
  Forall settled done ->
  filter (fun p => in_flight p = true) (done ++ replicate m Queued) = [].
Proof.
  intros Hdone. rewrite filter_app.
  assert (H1 : filter (fun p => in_flight p = true) done = []).
  { induction Hdone as [| p l [Hp _] _ IH]; [reflexivity |].
    rewrite filter_cons, decide_False by congruence. exact IH. }
  assert (H2 : filter (fun p => in_flight p = true) (replicate m Queued) = []).
  { induction m as [| m IH]; [reflexivity |]. cbn [replicate].
    rewrite filter_cons, IH. reflexivity. }
  rewrite H1, H2. reflexivity.
Qed.

(** One id, from queued to finished, with no other fiber moving. *)
Lemma syncTodo_steps (id : Z) (st st' : state) (done rest : list phase) :
  Forall settled done -> Forall (fun p => p = Queued) rest ->
  syncTodo remote now total id st = (st', Success tt) ->
  completed st' = completed st + 1 /\
  rtc (step (level 1) total)
    {| phases := done ++ Queued :: rest; counter := completed st;
       shown := output st; aborted := false |}
    {| phases := done ++ Finished (completed st + 1) :: rest;
       counter := completed st'; shown := output st'; aborted := false |}.
Proof using Type.
  intros Hdone Hrest Hrun. unfold syncTodo in Hrun.
  destruct (remote id) as [apiTodo | e | d]; [| discriminate | discriminate].
  destruct (DatabaseService.saveTodo _ apiTodo (database st)) as [db [stored_todo | e | d]];
    [| discriminate | discriminate].
  unfold updateProgress in Hrun.
  destruct (createSyncProgressMessage (E := error) (ofZ (completed st + 1))
              (ofZ total)) as [msg | e | d] eqn:Emsg;
    [| discriminate | discriminate].
  assert (Hstart : rtc (step (level 1) total)
            {| phases := done ++ Queued :: rest; counter := completed st;
               shown := output st; aborted := false |}
            {| phases := done ++ Displaying (completed st + 1) :: rest;
               counter := completed st + 1;
               shown := display (carriage_return ++ msg) (output st);
               aborted := false |}).
  { eapply rtc_l.
    { apply (launch (level 1) total (length done)); cbn [phases aborted].
      - reflexivity.
      - rewrite lookup_app_r by lia. rewrite Nat.sub_diag. reflexivity.
      - intros j Hj. rewrite lookup_app_l by exact Hj. intros Hq.
        apply list_elem_of_lookup_2 in Hq.
        rewrite Forall_forall in Hdone. destruct (Hdone _ Hq) as [_ Hne].
        congruence.
      - cbn [within_limit].
        assert (Hq : rest = replicate (length rest) Queued).
        { clear - Hrest. induction Hrest as [| p l -> _ IH]; [reflexivity |].
          cbn. f_equal. exact IH. }
        change (done ++ Queued :: rest) with (done ++ [Queued] ++ rest).
        rewrite Hq. change ([Queued] ++ replicate (length rest) Queued)
          with (replicate (S (length rest)) Queued).
        rewrite none_in_flight by exact Hdone. cbn. lia. }
    unfold set_phase. cbn [phases counter shown aborted].
    rewrite insert_at_length.
    eapply rtc_l.
    { apply (fetched (level 1) total (length done)). cbn [phases].
      rewrite lookup_app_r by lia. rewrite Nat.sub_diag. reflexivity. }
    unfold set_phase. cbn [phases counter shown aborted].
    rewrite insert_at_length.
    eapply rtc_l; [| apply rtc_refl].
    pose proof (saved (level 1) total (length done) msg
                  {| phases := done ++ Saving :: rest; counter := completed st;
                     shown := output st; aborted := false |}) as Hs.
    cbn [phases counter shown aborted] in Hs.
    rewrite insert_at_length in Hs. apply Hs; [| exact Emsg].
    rewrite lookup_app_r by lia. rewrite Nat.sub_diag. reflexivity. }
  destruct (ge (ofZ (completed st + 1)) (ofZ total)) eqn:Ege;
    injection Hrun as <-; cbn [completed output]; (split; [reflexivity |]);
    (eapply rtc_trans; [exact Hstart |]).
  - eapply rtc_l.
    { pose proof (displayed_last (level 1) total (length done) (completed st + 1)
                    {| phases := done ++ Displaying (completed st + 1) :: rest;
                       counter := completed st + 1;
                       shown := display (carriage_return ++ msg) (output st);
                       aborted := false |}) as Hs.
      cbn [phases counter shown aborted] in Hs.
      rewrite insert_at_length in Hs. apply Hs; [| exact Ege].
      rewrite lookup_app_r by lia. rewrite Nat.sub_diag. reflexivity. }
    eapply rtc_l; [| apply rtc_refl].
    pose proof (terminated (level 1) total (length done) (completed st + 1)
                  {| phases := done ++ Terminating (completed st + 1) :: rest;
                     counter := completed st + 1;
                     shown := display line_feed
                                (display (carriage_return ++ msg) (output st));
                     aborted := false |}) as Hs.
    unfold set_phase in Hs. cbn [phases counter shown aborted] in Hs.
    rewrite insert_at_length in Hs. apply Hs.
    rewrite lookup_app_r by lia. rewrite Nat.sub_diag. reflexivity.
  - eapply rtc_l; [| apply rtc_refl].
    pose proof (displayed (level 1) total (length done) (completed st + 1)
                  {| phases := done ++ Displaying (completed st + 1) :: rest;
                     counter := completed st + 1;
                     shown := display (carriage_return ++ msg) (output st);
                     aborted := false |}) as Hs.
    unfold set_phase in Hs. cbn [phases counter shown aborted] in Hs.
    rewrite insert_at_length in Hs. apply Hs; [| exact Ege].
    rewrite lookup_app_r by lia. rewrite Nat.sub_diag. reflexivity.
Qed.

(** The sequential loop is one of the interleavings: the ids one after
    the other, each from queued to finished. *)
Lemma forEach_sequential_steps (ids : list Z) :
  forall (done : list phase) (st st' : state),
    Forall settled done ->
    forEach_sequential (syncTodo remote now total) ids st = (st', Success tt) ->
    completed st' = completed st + Z.of_nat (length ids) /\
    rtc (step (level 1) total)
      {| phases := done ++ replicate (length ids) Queued;
         counter := completed st; shown := output st; aborted := false |}
      {| phases := done ++ (Finished <$> seqZ (completed st + 1)
                                          (Z.of_nat (length ids)));
         counter := completed st'; shown := output st'; aborted := false |}.
Proof using Type.
  induction ids as [| id ids IH]; intros done st st' Hdone Hrun.
  - cbn in Hrun. injection Hrun as <-. cbn [length replicate].
    rewrite seqZ_nil by lia. cbn [fmap list_fmap]. split; [lia |].
    apply rtc_refl.
  - cbn [forEach_sequential] in Hrun.
    destruct (syncTodo remote now total id st) as [st1 [[] | e | d]] eqn:E1;
      [| discriminate | discriminate].
    destruct (syncTodo_steps id st st1 done (replicate (length ids) Queued)
                Hdone) as [Hc1 Hsteps1]; [| exact E1 |].
    { apply Forall_forall. intros p Hp. apply elem_of_replicate in Hp. tauto. }
    destruct (IH (done ++ [Finished (completed st + 1)]) st1 st') as [Hc Hsteps];
      [| exact Hrun |].
    { apply Forall_app. split; [exact Hdone |].
      apply Forall_singleton. split; [reflexivity | discriminate]. }
    cbn [length replicate]. split; [lia |].
    eapply rtc_trans; [exact Hsteps1 |].
    rewrite <- !app_assoc in Hsteps. cbn [app] in Hsteps.
    rewrite Hc1 in Hsteps |- *.
    replace (Z.of_nat (S (length ids))) with (Z.succ (Z.of_nat (length ids)))
      by lia.
    rewrite (seqZ_cons (completed st + 1)) by lia. cbn [fmap list_fmap].
    replace (Z.pred (Z.succ (Z.of_nat (length ids)))) with (Z.of_nat (length ids))
      by lia.
    replace (Z.succ (completed st + 1)) with (completed st + 1 + 1) by lia.
    exact Hsteps.
Qed.

End Sequential.



End CounterFacts.

(** ** The progress display is monotone *)

Module ProgressOrder.
Import JS Effect ProgressBarService Spec Batch NumberFacts ProgressFacts SyncRunFacts.
Local Open Scope Q_scope.

(** Rounding to the nearest integer, ties to even, is monotone. *)
Lemma round_even_mono (y y' : Q) : y <= y' -> (round_even y <= round_even y')%Z.
Proof.
  intros H. pose proof (Qfloor_resp_le y y' H) as Hf.
  destruct (Z.eq_dec (Qfloor y) (Qfloor y')) as [E | E].
  - unfold round_even. rewrite <- E.
    pose proof (Qfloor_le y) as H1. pose proof (Qlt_floor y) as H2.
    pose proof (Qlt_floor y') as H3.
    rewrite <- E in H3. rewrite inject_Z_plus in H2, H3.
    set (f := Qfloor y) in *. set (F := inject_Z f) in *.
    destruct (y - F ?= 1 # 2) eqn:C; destruct (y' - F ?= 1 # 2) eqn:C';
      try lia;
      first [ apply Qeq_alt in C | apply Qlt_alt in C | apply Qgt_alt in C ];
      first [ apply Qeq_alt in C' | apply Qlt_alt in C' | apply Qgt_alt in C' ];
      try (exfalso; lra); destruct (Z.even f); lia.
  - transitivity (Qfloor y + 1)%Z.
    + apply round_even_le. apply Qlt_le_weak, Qlt_floor.
    + transitivity (Qfloor y'); [lia |]. apply round_even_ge, Qfloor_le.
Qed.

Lemma binary64_pos_normal (q : Q) :
  2 ^ (-1022) <= q -> q < 2 ^ 53 ->
  binary64_pos q
  = Finite (Qred (inject_Z (round_even (q / 2 ^ (ilog2 q - 52)))
                  * 2 ^ (ilog2 q - 52))).
Proof.
  intros Hlo Hhi.
  assert (Hq : 0 < q) by (pose proof (pow2_pos (-1022)); lra).
  pose proof (ilog2_ge q (-1022) Hq Hlo) as Hge.
  destruct (binary64_pos_small q Hq Hhi) as (r & Hr & _).
  unfold binary64_pos in *. rewrite Z.max_l in * by lia.
  destruct (Qle_bool _ _); [discriminate Hr | reflexivity].
Qed.

Lemma ilog2_mono (q q' : Q) : 0 < q -> q <= q' -> (ilog2 q <= ilog2 q')%Z.
Proof.
  intros Hq H. assert (Hq' : 0 < q') by lra.
  destruct (ilog2_spec q Hq) as [H1 _].
  destruct (ilog2_spec q' Hq') as [_ H2].
  assert (Hlt : (ilog2 q < ilog2 q' + 1)%Z); [| lia].
  destruct (Z_lt_le_dec (ilog2 q) (ilog2 q' + 1)) as [L | L]; [exact L |].
  pose proof (pow2_le _ _ L). lra.
Qed.

(** Rounding to binary64 is monotone on the normal numbers below [2^53]. *)
Lemma binary64_pos_mono (q q' : Q) (r r' : Q) :
  2 ^ (-1022) <= q -> q <= q' -> q' < 2 ^ 53 ->
  binary64_pos q = Finite r -> binary64_pos q' = Finite r' -> r <= r'.
Proof.
  intros Hlo Hle Hhi.
  assert (Hq : 0 < q) by (pose proof (pow2_pos (-1022)); lra).
  assert (Hq' : 0 < q') by lra.
  rewrite (binary64_pos_normal q) by lra.
  rewrite (binary64_pos_normal q') by lra.
  intros [= <-] [= <-]. rewrite !Qred_correct.
  pose proof (ilog2_mono q q' Hq Hle) as Hl.
  destruct (ilog2_spec q Hq) as [Hq1 Hq2].
  destruct (ilog2_spec q' Hq') as [Hq1' Hq2'].
  set (l := ilog2 q) in *. set (l' := ilog2 q') in *.
  set (e := (l - 52)%Z). set (e' := (l' - 52)%Z).
  pose proof (pow2_pos e) as He. pose proof (pow2_pos e') as He'.
  assert (Hy : q / 2 ^ e * 2 ^ e == q) by (field; lra).
  assert (Hy' : q' / 2 ^ e' * 2 ^ e' == q') by (field; lra).
  destruct (Z.eq_dec l l') as [E | E].
  - assert (e' = e) as -> by (subst e e'; lia).
    apply Qmult_le_compat_r; [| lra]. rewrite <- Zle_Qle.
    apply round_even_mono.
    apply Qmult_le_r with (z := 2 ^ e); [assumption |].
    rewrite Hy. fold e in Hy'. rewrite Hy'. exact Hle.
  - assert (Hl' : (l + 1 <= l')%Z) by lia.
    apply Qle_trans with (2 ^ (l + 1)).
    + assert (E1 : 2 ^ (l + 1) == inject_Z (2 ^ 53) * 2 ^ e).
      { rewrite pow2_Z by lia. rewrite <- pow2_add. subst e.
        replace (53 + (l - 52))%Z with (l + 1)%Z by lia. reflexivity. }
      rewrite E1. apply Qmult_le_compat_r; [| lra]. rewrite <- Zle_Qle.
      apply round_even_le.
      apply Qmult_le_r with (z := 2 ^ e); [assumption |].
      rewrite Hy, <- E1. lra.
    + apply Qle_trans with (2 ^ l'); [apply pow2_le; exact Hl' |].
      assert (E2 : 2 ^ l' == inject_Z (2 ^ 52) * 2 ^ e').
      { rewrite pow2_Z by lia. rewrite <- pow2_add. subst e'.
        replace (52 + (l' - 52))%Z with l' by lia. reflexivity. }
      rewrite E2. apply Qmult_le_compat_r; [| lra]. rewrite <- Zle_Qle.
      apply round_even_ge.
      apply Qmult_le_r with (z := 2 ^ e'); [assumption |].
      rewrite Hy', <- E2. exact Hq1'.
Qed.

Lemma binary64_positive (q : Q) : 0 < q -> binary64 q = binary64_pos q.
Proof.
  intros H. unfold binary64. apply Qgt_alt in H. rewrite H. reflexivity.
Qed.

Lemma binary64_mono (q q' : Q) (r r' : Q) :
  2 ^ (-1022) <= q -> q <= q' -> q' < 2 ^ 53 ->
  binary64 q = Finite r -> binary64 q' = Finite r' -> r <= r'.
Proof.
  intros Hlo Hle Hhi.
  assert (Hq : 0 < q) by (pose proof (pow2_pos (-1022)); lra).
  rewrite !binary64_positive by lra. apply binary64_pos_mono; assumption.
Qed.


(** [Math.round((c / t) * w)] is monotone in [c]. *)
Lemma scaled_mono (x x' y : number) (c c' t w : Z) :
  represents x c -> represents x' c' -> represents y t ->
  (0 < c <= c')%Z -> (c' <= t)%Z -> (t < 2 ^ 32)%Z -> (0 < w <= 1000)%Z ->
  exists f f' : Z,
    Math_round (mul (div x y) (Finite (inject_Z w))) = Finite (inject_Z f) /\
    Math_round (mul (div x' y) (Finite (inject_Z w))) = Finite (inject_Z f') /\
    (f <= f')%Z.
Proof.
  intros Hx Hx' Hy Hc Hc' Ht Hw.
  destruct (div_unit_interval x y c t Hx Hy ltac:(lia) ltac:(lia))
    as (r & Hr & Hr0 & Hr1 & _ & Hrn).
  destruct (div_unit_interval x' y c' t Hx' Hy ltac:(lia) ltac:(lia))
    as (r' & Hr' & Hr0' & Hr1' & _ & Hrn').
  destruct (Hrn ltac:(lia) Ht) as (Hlow & _).
  destruct (Hrn' ltac:(lia) Ht) as (Hlow' & _).
  assert (Hsmall : 2 ^ (-1022) <= 2 ^ (-33)) by (apply pow2_le; lia).
  assert (Hrr : r <= r').
  { destruct Hx as (a & -> & Ha), Hx' as (a' & -> & Ha'), Hy as (b & -> & Hb).
    cbn [div] in Hr, Hr'.
    assert (Hbpos : 0 < b)
      by (rewrite Hb; change 0 with (inject_Z 0); rewrite <- Zlt_Qlt; lia).
    destruct (Qeq_bool b 0) eqn:E; [apply Qeq_bool_iff in E; lra |].
    assert (Haa : a <= a') by (rewrite Ha, Ha', <- Zle_Qle; lia).
    assert (Ha1 : 1 <= a)
      by (rewrite Ha; change 1 with (inject_Z 1); rewrite <- Zle_Qle; lia).
    assert (Hab : a' <= b) by (rewrite Ha', Hb, <- Zle_Qle; lia).
    assert (Hb32 : b < 2 ^ 32).
    { rewrite Hb. rewrite <- (pow2_Z 32) by lia. rewrite <- Zlt_Qlt. exact Ht. }
    apply (binary64_mono (a / b) (a' / b)); [| | | exact Hr | exact Hr'].
    - apply Qle_trans with (2 ^ (-32)); [apply pow2_le; lia |].
      apply Qle_shift_div_l; [assumption |].
      change (2 ^ (-32)) with (1 # 4294967296).
      change (2 ^ 32) with 4294967296 in Hb32. nra.
    - apply Qmult_le_compat_r; [exact Haa |].
      apply Qlt_le_weak, Qinv_lt_0_compat. exact Hbpos.
    - apply Qle_lt_trans with 1; [| reflexivity].
      apply Qle_shift_div_r; lra. }
  rewrite Hr, Hr'. cbn [mul].
  assert (Hw1 : 1 <= inject_Z w)
    by (change 1 with (inject_Z 1); rewrite <- Zle_Qle; lia).
  assert (Hw2 : inject_Z w <= 1000)
    by (change 1000 with (inject_Z 1000); rewrite <- Zle_Qle; lia).
  set (W := inject_Z w) in *.
  change (2 ^ (-33)) with (1 # 8589934592) in *.
  assert (Hp0 : 0 <= r * W) by nra.
  assert (Hp0' : 0 <= r' * W) by nra.
  assert (Hbig : 1001 < 2 ^ 53) by reflexivity.
  assert (Hp1 : r * W < 2 ^ 53) by nra.
  assert (Hp1' : r' * W < 2 ^ 53) by nra.
  destruct (binary64_small (r * W) Hp0 Hp1) as (s & Hs & _).
  destruct (binary64_small (r' * W) Hp0' Hp1') as (s' & Hs' & _).
  assert (Hss : s <= s').
  { apply (binary64_mono (r * W) (r' * W)); [| | exact Hp1' | exact Hs | exact Hs'].
    - apply Qle_trans with (1 # 8589934592); [exact Hsmall | nra].
    - nra. }
  rewrite Hs, Hs'. cbn [Math_round].
  exists (Qfloor (s + (1 # 2))), (Qfloor (s' + (1 # 2))).
  split; [reflexivity |]. split; [reflexivity |].
  apply Qfloor_resp_le. lra.
Qed.

Local Close Scope Q_scope.

Lemma scaled_at_zero (y : number) (t w : Z) (f : Z) :
  represents y t -> 0 < t -> 0 < w <= 1000 ->
  Math_round (mul (div (ofZ 0) y) (Finite (inject_Z w))) = Finite (inject_Z f) ->
  f = 0.
Proof.
  intros (b & -> & Hb) Ht Hw.
  assert (Hbpos : (0 < b)%Q)
    by (rewrite Hb; change 0%Q with (inject_Z 0); rewrite <- Zlt_Qlt; lia).
  change (ofZ 0) with (Finite 0). cbn [div].
  destruct (Qeq_bool b 0) eqn:E; [apply Qeq_bool_iff in E; lra |].
  assert (E0 : binary64 (0 / b) = Finite 0).
  { unfold binary64. assert ((0 / b ?= 0)%Q = Eq) as ->; [| reflexivity].
    apply Qeq_alt. unfold Qdiv. ring. }
  rewrite E0. cbn [mul].
  assert (E1 : binary64 (0 * inject_Z w) = Finite 0).
  { unfold binary64. assert ((0 * inject_Z w ?= 0)%Q = Eq) as ->; [| reflexivity].
    apply Qeq_alt. ring. }
  rewrite E1. cbn [Math_round]. intros [= H].
  change (Qfloor (0 + (1 # 2))) with 0 in H. symmetry.
  apply inject_Z_injective. rewrite <- H. reflexivity.
Qed.

(** X19: for a fixed total below [2^32], the filled width and the
    percentage are monotone in the completed count: they never decrease
    when the count grows, and stay within [0..30] and [0..100]. *)
Theorem progress_never_goes_back (c c' t : Z) :
  0 <= c <= c' -> c' <= t -> 0 < t < 2 ^ 32 ->
  exists f f' p p' : Z,
    filledWidth (ofZ c) (ofZ t) = Finite (inject_Z f) /\
    filledWidth (ofZ c') (ofZ t) = Finite (inject_Z f') /\
    percentage (ofZ c) (ofZ t) = Finite (inject_Z p) /\
    percentage (ofZ c') (ofZ t) = Finite (inject_Z p') /\
    0 <= f <= f' /\ f' <= 30 /\ 0 <= p <= p' /\ p' <= 100.
Proof.
  intros Hc Hc' Ht.
  assert (H32 : 2 ^ 32 = 4294967296) by reflexivity.
  assert (H53 : 2 ^ 53 = 9007199254740992) by reflexivity.
  assert (Rc : represents (ofZ c) c) by (apply ofZ_represents; lia).
  assert (Rc' : represents (ofZ c') c') by (apply ofZ_represents; lia).
  assert (Rt : represents (ofZ t) t) by (apply ofZ_represents; lia).
  unfold filledWidth, percentage. rewrite barWidth_value, hundred_value.
  destruct (scaled_round (ofZ c) (ofZ t) c t 30 Rc Rt ltac:(lia) ltac:(lia)
              ltac:(lia)) as (f & Hf & Hf30 & _).
  destruct (scaled_round (ofZ c') (ofZ t) c' t 30 Rc' Rt ltac:(lia) ltac:(lia)
              ltac:(lia)) as (f' & Hf' & Hf30' & _).
  destruct (scaled_round (ofZ c) (ofZ t) c t 100 Rc Rt ltac:(lia) ltac:(lia)
              ltac:(lia)) as (p & Hp & Hp100 & _).
  destruct (scaled_round (ofZ c') (ofZ t) c' t 100 Rc' Rt ltac:(lia) ltac:(lia)
              ltac:(lia)) as (p' & Hp' & Hp100' & _).
  exists f, f', p, p'.
  split; [exact Hf |]. split; [exact Hf' |]. split; [exact Hp |].
  split; [exact Hp' |].
  destruct (Z.eq_dec c 0) as [-> | Hne].
  - rewrite (scaled_at_zero (ofZ t) t 30 f Rt) by (first [lia | exact Hf]).
    rewrite (scaled_at_zero (ofZ t) t 100 p Rt) by (first [lia | exact Hp]).
    lia.
  - destruct (scaled_mono (ofZ c) (ofZ c') (ofZ t) c c' t 30 Rc Rc' Rt
                ltac:(lia) ltac:(lia) ltac:(lia) ltac:(lia))
      as (g & g' & Hg & Hg' & Hgg).
    destruct (scaled_mono (ofZ c) (ofZ c') (ofZ t) c c' t 100 Rc Rc' Rt
                ltac:(lia) ltac:(lia) ltac:(lia) ltac:(lia))
      as (h & h' & Hh & Hh' & Hhh).
    rewrite Hf in Hg. rewrite Hf' in Hg'. rewrite Hp in Hh. rewrite Hp' in Hh'.
    apply (f_equal toZ) in Hg, Hg', Hh, Hh'. cbn [toZ] in Hg, Hg', Hh, Hh'.
    rewrite !Qfloor_Z in Hg, Hg', Hh, Hh'. lia.
Qed.

(** X19 from 22 to 23 of 40. *)
Lemma progress_never_goes_back_witness :
  exists f f' p p' : Z,
    filledWidth (ofZ 22) (ofZ 40) = Finite (inject_Z f) /\
    filledWidth (ofZ 23) (ofZ 40) = Finite (inject_Z f') /\
    percentage (ofZ 22) (ofZ 40) = Finite (inject_Z p) /\
    percentage (ofZ 23) (ofZ 40) = Finite (inject_Z p') /\
    0 <= f <= f' /\ f' <= 30 /\ 0 <= p <= p' /\ p' <= 100.
Proof.
  apply (progress_never_goes_back 22 23 40).
  - lia.
  - lia.
  - assert (2 ^ 32 = 4294967296) by reflexivity. lia.
Defined.

End ProgressOrder.

(** ** The schemas, the remote fetch and the banner *)

Module SchemaFacts.
Import JS Effect Todo ProgressBarService ConcurrencySchema Spec Store Batch
  NumberFacts ProgressFacts TodoFacts DatabaseFacts ConcurrencyFacts StoreFacts
  SyncRunFacts.

Lemma Int_safe (v : unknown) (z : Z) : Int v = Some z -> safe z.
Proof.
  destruct v as [| | | x | | |]; try discriminate. unfold Int.
  destruct (isSafeInteger x) eqn:E; [| discriminate]. intros [= <-].
  destruct x as [| | q]; try discriminate. cbn [isSafeInteger toZ] in *.
  apply andb_prop in E as [_ E]. apply Z.leb_le in E. exact E.
Qed.

(** What is decoded satisfies the constraints of the schema. *)
Lemma decodeUnknown_valid :
  (forall input todo, decodeUnknown input = Some todo ->
     safe (userId todo) /\ safe (id todo) /\ valid_title (title todo) /\
     exists props, input = UObject props).
Proof.
  intros input todo H.
  destruct input as [| | | | | props |]; try discriminate H.
  unfold decodeUnknown in H.
  apply bind_Some in H as (uid & Hu & H).
  apply bind_Some in H as (tid & Hi & H).
  apply bind_Some in H as (ttl & Ht & H).
  apply bind_Some in H as (st & _ & H).
  injection H as <-. cbn [userId id title].
  apply bind_Some in Hu as (v1 & _ & Hu).
  apply bind_Some in Hi as (v2 & _ & Hi).
  apply bind_Some in Ht as (v3 & _ & Ht).
  split; [exact (Int_safe v1 uid Hu) |].
  split; [exact (Int_safe v2 tid Hi) |]. split; [| eauto].
  destruct v3 as [| | | | s | |]; try discriminate Ht.
  rewrite TodoTitle_valid in Ht.
  destruct (decide (valid_title s)); [| discriminate]. injection Ht as <-.
  assumption.
Qed.

(** X20: a decoded [Todo] comes from an object, has its [userId] and
    [id] in the safe integer range and a title of 1 to 255 code units;
    an object of integers, a title and a boolean is accepted exactly
    when these conditions hold, whatever the sign of the integers; an
    object that lacks one of the four fields is rejected. *)
Theorem decodeUnknown_accepts_exactly :
  (forall input todo, decodeUnknown input = Some todo ->
     safe (userId todo) /\ safe (id todo) /\ valid_title (title todo) /\
     exists props, input = UObject props) /\
  (forall a b t c,
     (safe a /\ safe b /\ valid_title t ->
      decodeUnknown (todo_object a b t c)
      = Some {| userId := a; id := b; title := t;
                completed := CompletedField_decode c |}) /\
     (~ (safe a /\ safe b /\ valid_title t) ->
      decodeUnknown (todo_object a b t c) = None)) /\
  (forall props name,
     name ∈ [u "userId"; u "id"; u "title"; u "completed"] ->
     get_property name props = None -> decodeUnknown (UObject props) = None).
Proof.
  split; [| split].
  - exact decodeUnknown_valid.
  - intros a b t c. rewrite decode_todo_object. unfold UserId, TodoId.
    rewrite !Int_ofZ, TodoTitle_valid. split.
    + intros (Ha & Hb & Ht). rewrite !decide_True by assumption. reflexivity.
    + intros H. destruct (decide (safe a)); [| reflexivity].
      destruct (decide (safe b)); [| reflexivity].
      destruct (decide (valid_title t)); [tauto | reflexivity].
  - intros props name Hname Hnone. unfold decodeUnknown.
    rewrite !elem_of_cons, elem_of_nil in Hname.
    destruct Hname as [-> | [-> | [-> | [-> | []]]]]; rewrite Hnone;
      cbn [mbind option_bind]; try reflexivity.
    + destruct (_ ≫= UserId); reflexivity.
    + destruct (_ ≫= UserId); cbn [mbind option_bind]; [| reflexivity].
      destruct (_ ≫= TodoId); reflexivity.
    + destruct (_ ≫= UserId); cbn [mbind option_bind]; [| reflexivity].
      destruct (_ ≫= TodoId); cbn [mbind option_bind]; [| reflexivity].
      destruct (_ ≫= TodoTitle); reflexivity.
Qed.

(** *** The concurrency token, padded *)

Lemma trim_start_white (pre s : jsstring) :
  Forall (fun c => is_white_space c = true) pre ->
  trim_start (pre ++ s) = trim_start s.
Proof.
  induction 1 as [| c pre Hc _ IH]; [reflexivity |].
  cbn [app trim_start]. rewrite Hc. exact IH.
Qed.

(** Trimming removes the white space around digits. *)
Lemma trim_padded (pre d post : jsstring) :
  Forall (fun c => is_white_space c = true) pre ->
  Forall (fun c => is_white_space c = true) post ->
  Forall is_digit d ->
  trim (pre ++ d ++ post) = d.
Proof.
  intros Hpre Hpost Hd. unfold trim. rewrite (trim_start_white pre) by exact Hpre.
  assert (Hhead : forall (l rest : jsstring),
            Forall is_digit l -> l <> [] -> trim_start (l ++ rest) = l ++ rest).
  { intros l rest Hl Hne. destruct l as [| c l]; [congruence |].
    apply Forall_cons in Hl as [Hc _]. cbn [app trim_start].
    rewrite (proj1 (digit_facts c Hc)). reflexivity. }
  destruct d as [| c d].
  - cbn [app]. rewrite <- (app_nil_r post) at 1.
    rewrite (trim_start_white post []) by exact Hpost. cbn [trim_start].
    reflexivity.
  - rewrite (Hhead (c :: d) post Hd) by discriminate.
    rewrite reverse_app, (trim_start_white (reverse post))
      by (apply Forall_reverse; exact Hpost).
    rewrite <- (app_nil_r (reverse (c :: d))).
    rewrite Hhead; [rewrite app_nil_r; apply reverse_involutive | |].
    + apply Forall_reverse. exact Hd.
    + intros E. apply (f_equal reverse) in E.
      rewrite reverse_involutive in E. discriminate E.
Qed.

Lemma StringToNumber_trim (s d : jsstring) :
  trim s = d -> trim d = d -> StringToNumber s = StringToNumber d.
Proof. intros H1 H2. unfold StringToNumber. rewrite H1, H2. reflexivity. Qed.

(** X21: the concurrency schema accepts the digits of a positive safe
    integer surrounded by white space, and decodes them to that
    integer. *)
Theorem padded_number_is_accepted (n : Z) (pre post : jsstring) :
  0 < n <= 2 ^ 53 - 1 ->
  Forall (fun c => is_white_space c = true) pre ->
  Forall (fun c => is_white_space c = true) post ->
  decode (UString (pre ++ Z_toString n ++ post)) = Some (level n).
Proof.
  intros Hn Hpre Hpost.
  pose proof (decode_toString n Hn) as Hplain.
  destruct n as [| p |]; try lia.
  change (Z_toString (Z.pos p)) with (uint_units (Pos.to_uint p)) in *.
  pose proof (uint_units_digits (Pos.to_uint p)) as Hd.
  pose proof (uint_units_nonempty _ (DecimalPos.Unsigned.to_uint_nonnil p)) as Hne.
  set (d := uint_units (Pos.to_uint p)) in *.
  set (s := pre ++ d ++ post).
  assert (Htrim : trim s = d) by (apply trim_padded; assumption).
  assert (Hdigit : exists c, c ∈ s /\ is_digit c).
  { destruct d as [| c d']; [congruence |]. exists c. split.
    - subst s. apply elem_of_app. right. apply elem_of_app. left.
      apply elem_of_cons. left. reflexivity.
    - apply Forall_cons in Hd as [Hc _]. exact Hc. }
  assert (Hnot : forall lit, digit_free lit -> s <> lit).
  { intros lit Hlit E. destruct Hdigit as (c & Hc & [D HD]).
    rewrite E in Hc. unfold digit_free in Hlit.
    rewrite Forall_forall in Hlit. rewrite (Hlit c Hc) in HD. discriminate. }
  assert (Hnum : StringToNumber s = StringToNumber d)
    by (apply StringToNumber_trim; [exact Htrim | apply trim_digits; exact Hd]).
  assert (Hplain' : Number_parse d ≫= (fun x => n ← positiveInt x; Some (level n))
                    = Some (level (Z.pos p))).
  { unfold decode in Hplain.
    destruct (bool_decide (d = u "unbounded")) eqn:E.
    - apply bool_decide_eq_true in E. exfalso.
      rewrite E in Hd. apply Forall_cons in Hd as [[D HD] _]. discriminate HD.
    - exact Hplain. }
  unfold decode. rewrite bool_decide_eq_false_2
    by (apply Hnot; repeat constructor).
  cbn [NumberFromString]. unfold Number_parse in *.
  rewrite bool_decide_eq_false_2 by (apply Hnot; repeat constructor).
  rewrite bool_decide_eq_false_2 by (apply Hnot; repeat constructor).
  rewrite bool_decide_eq_false_2 by (apply Hnot; repeat constructor).
  rewrite Htrim, Hnum.
  assert (Hdd : forall lit, digit_free lit -> d <> lit).
  { intros lit Hlit E. rewrite E in Hd. destruct lit as [| c lit]; [congruence |].
    apply Forall_cons in Hd as [[D HD] _]. apply Forall_cons in Hlit as [Hc _].
    rewrite Hc in HD. discriminate. }
  rewrite !bool_decide_eq_false_2 in Hplain'
    by (first [apply Hdd; repeat constructor
              | rewrite (trim_digits d Hd); exact Hne]).
  rewrite bool_decide_eq_false_2 by exact Hne.
  exact Hplain'.
Qed.

(** X21 for a space, the digit 4 and a line feed. *)
Lemma padded_number_is_accepted_witness :
  decode (UString (u " " ++ Z_toString 4 ++ [10%N])) = Some (level 4).
Proof.
  apply (padded_number_is_accepted 4 (u " ") [10%N]).
  - assert (2 ^ 53 = 9007199254740992) by reflexivity. lia.
  - repeat constructor.
  - repeat constructor.
Defined.


(** *** [TodoService.getTodoById] *)

(** X22: a todo returned by [TodoService.getTodoById] comes from a
    response with a status from 200 to 299 whose JSON body passes the
    schema; the id asked for plays no part in it, so the todo may carry
    another id; every failure carries the id asked for, and the call
    never dies. *)
Theorem fetched_todo_passed_the_schema (id : Z) (r : TodoFetch.fetched) :
  (forall todo, TodoFetch.getTodoById id r = Success todo ->
     safe (Todo.id todo) /\ safe (userId todo) /\ valid_title (title todo) /\
     (exists status json,
        r = TodoFetch.Response status (Some json) /\ 200 <= status < 300 /\
        decodeUnknown json = Some todo) /\
     forall id', TodoFetch.getTodoById id' r = Success todo) /\
  (forall e, TodoFetch.getTodoById id r = Failure e ->
     TodoService.error_id e = id) /\
  (forall d, TodoFetch.getTodoById id r <> Die d).
Proof.
  unfold TodoFetch.getTodoById, TodoFetch.statusOk.
  destruct r as [| status [json |]].
  - split; [discriminate |]. split; [intros e [= <-]; reflexivity | discriminate].
  - destruct (Z.leb_spec 200 status) as [H1 | H1];
      destruct (Z.ltb_spec status 300) as [H2 | H2]; cbn [andb];
      try (split; [discriminate |];
           split; [intros e [= <-]; reflexivity | discriminate]).
    destruct (decodeUnknown json) as [t |] eqn:E;
      [| split; [discriminate |];
         split; [intros e [= <-]; reflexivity | discriminate]].
    split; [| split; discriminate].
    intros todo [= <-].
    destruct (decodeUnknown_valid json t E) as (Hu & Hi & Ht & _).
    split; [exact Hi |]. split; [exact Hu |]. split; [exact Ht |].
    split; [| intros id'; reflexivity].
    exists status, json. split; [reflexivity |]. split; [lia | exact E].
  - destruct ((200 <=? status) && (status <? 300));
      (split; [discriminate |];
       split; [intros e [= <-]; reflexivity | discriminate]).
Qed.

(** *** The banner of [sync] *)

Lemma uint_units_inj (d d' : uint) : uint_units d = uint_units d' -> d = d'.
Proof.
  revert d'. induction d; intros d' H; destruct d'; cbn [uint_units] in H;
    try reflexivity; try discriminate H;
    injection H as H; f_equal; apply IHd; exact H.
Qed.

Lemma uint_units_no_minus (d : uint) (rest : jsstring) :
  uint_units d <> u "-" ++ rest.
Proof. destruct d; discriminate. Qed.

(** Different integers print differently. *)
Lemma Z_toString_inj (n m : Z) : Z_toString n = Z_toString m -> n = m.
Proof.
  intros H. rewrite <- (DecimalZ.of_to n), <- (DecimalZ.of_to m). f_equal.
  unfold Z_toString in H.
  destruct (Z.to_int n) as [d | d], (Z.to_int m) as [d' | d'].
  - f_equal. apply uint_units_inj. exact H.
  - exfalso. exact (uint_units_no_minus _ _ H).
  - exfalso. symmetry in H. exact (uint_units_no_minus _ _ H).
  - f_equal. apply uint_units_inj. injection H as H. exact H.
Qed.

Lemma mode_parallel (n : Z) :
  n <> 1 -> SyncTodos.mode (level n) = u "parallel (" ++ Z_toString n ++ u ")".
Proof. intros H. destruct n as [| [p | p |] | p]; try reflexivity. congruence. Qed.

(** X23: the description of the concurrency in the banner of [sync]
    determines the concurrency: ["sequential"] for 1 only, ["unbounded"]
    for the literal only, and different levels give different
    descriptions. *)
Theorem mode_names_the_concurrency (c c' : Concurrency) :
  (SyncTodos.mode c = SyncTodos.mode c' -> c = c') /\
  (SyncTodos.mode c = u "sequential" <-> c = level 1) /\
  (SyncTodos.mode c = u "unbounded" <-> c = unbounded).
Proof.
  assert (Hcases : forall c0,
            (c0 = level 1 /\ SyncTodos.mode c0 = u "sequential") \/
            (c0 = unbounded /\ SyncTodos.mode c0 = u "unbounded") \/
            (exists n, n <> 1 /\ c0 = level n /\
               SyncTodos.mode c0 = u "parallel (" ++ Z_toString n ++ u ")")).
  { intros [| n]; [right; left; split; reflexivity |].
    destruct (Z.eq_dec n 1) as [-> | Hn]; [left; split; reflexivity |].
    right. right. exists n. split; [exact Hn |]. split; [reflexivity |].
    apply mode_parallel. exact Hn. }
  split; [| split].
  - destruct (Hcases c) as [[-> ->] | [[-> ->] | (n & Hn & -> & ->)]];
      destruct (Hcases c') as [[-> ->] | [[-> ->] | (n' & Hn' & -> & ->)]];
      try reflexivity; try discriminate.
    intros H. apply app_inv_head in H. apply app_inv_tail in H.
    apply Z_toString_inj in H. congruence.
  - destruct (Hcases c) as [[-> ->] | [[-> ->] | (n & Hn & -> & ->)]];
      (split; [try reflexivity; discriminate | try reflexivity; congruence]).
  - destruct (Hcases c) as [[-> ->] | [[-> ->] | (n & Hn & -> & ->)]];
      (split; [try reflexivity; discriminate | try reflexivity; discriminate]).
Qed.

End SchemaFacts.

(** ** The methods, the commands and the batch on the file *)

Module FileFacts.
Import JS Effect Todo ProgressBarService DatabaseService ConcurrencySchema Spec
  Store Batch NumberFacts ProgressFacts DatabaseFacts StoreFacts CommandFacts
  SyncFacts SyncRunFacts.

(** *** The methods *)

(** X1: on a file without the table [getTodoById] fails with the
    [DatabaseError] of its query.  On a table it fails with
    [TodoNotFound], carrying the id, exactly when no row has that id; a
    stored row is returned as the [Todo] of its columns, under the id
    asked for, when the columns pass the schema; otherwise the lookup
    fails with the schema decode error. *)
Theorem getTodoById_outcomes (k : Z) (f : DatabaseFile.file) :
  match f with
  | None =>
      DatabaseFile.getTodoById k None
      = Failure (DatabaseError (QueryErrorText SqlErrorText))
  | Some db =>
      match todos db !! k with
      | None => DatabaseFile.getTodoById k (Some db) = Failure (TodoNotFound k)
      | Some r =>
          (readable k r ->
           DatabaseFile.getTodoById k (Some db) = Success (todo_of_row k r)) /\
          (~ readable k r ->
           DatabaseFile.getTodoById k (Some db)
           = Failure (DatabaseError (SchemaDecodeText k ParseErrorText)))
      end
  end.
Proof.
  destruct f as [db |]; [| reflexivity].
  cbn [DatabaseFile.getTodoById]. rewrite getTodoById_row.
  destruct (todos db !! k) as [r |]; [| reflexivity].
  split; intros H; [rewrite decide_True | rewrite decide_False]; auto.
Qed.

(** The row [createTodo] inserts under a key outside the safe range does
    not pass the schema. *)
Lemma createTodo_unsafe_key (now : Z) (data : createData) (db : database) :
  ~ safe (next_rowid db) ->
  snd (createTodo now data db)
  = Failure (DatabaseError
               (FailedToCreateText
                  (SchemaDecodeText (next_rowid db) ParseErrorText))) /\
  exists r, todos (fst (createTodo now data db)) !! next_rowid db = Some r /\
            ~ readable (next_rowid db) r.
Proof.
  intros Hid. unfold createTodo, insert_row. cbn [fst snd].
  rewrite getTodoById_row. cbn [todos]. rewrite lookup_insert_eq.
  split.
  - rewrite decide_False; [reflexivity |]. intros (H & _). exact (Hid H).
  - eexists. split; [reflexivity |]. intros (H & _). exact (Hid H).
Qed.



(** X4: [getAllTodos] fails on a file without the table; on a table it
    fails as soon as one stored row does not pass the schema, and
    succeeds when every row does. *)
Theorem getAllTodos_outcomes (f : DatabaseFile.file) :
  (DatabaseFile.getAllTodos f
   = Failure (DatabaseTable.DatabaseError
                (DatabaseTable.FailedToFetchText SqlErrorText))
   <-> f = None) /\
  (DatabaseFile.getAllTodos f
   = Failure (DatabaseTable.DatabaseError
                (DatabaseTable.FailedToFetchText ParseErrorText))
   <-> exists db k r, f = Some db /\ todos db !! k = Some r /\ ~ readable k r) /\
  ((exists l, DatabaseFile.getAllTodos f = Success l)
   <-> exists db, f = Some db /\
         forall k r, todos db !! k = Some r -> readable k r).
Proof.
  destruct f as [db |]; cbn [DatabaseFile.getAllTodos].
  - destruct (getAllTodos_fails_on_one_bad_row db) as [Hbad Hgood].
    split; [| split].
    + split; [| discriminate]. rewrite getAllTodos_rows.
      destruct (decide _); discriminate.
    + rewrite Hbad. split.
      * intros (k & r & H). exists db, k, r. tauto.
      * intros (db' & k & r & [= <-] & H). exists k, r. exact H.
    + rewrite Hgood. split.
      * intros H. exists db. tauto.
      * intros (db' & [= <-] & H). exact H.
  - split; [| split].
    + tauto.
    + split; [discriminate | intros (db & k & r & [=] & _)].
    + split; [intros [l [=]] | intros (db & [=] & _)].
Qed.

(** X7: on a file without the table [clearAllTodos] fails.  On a table
    it succeeds; afterwards every lookup fails with [TodoNotFound] and
    the listing is empty; the key counter is kept, so when it was at or
    above every stored key the next created todo gets an id above every
    id deleted. *)
Theorem clearAllTodos_outcomes (f : DatabaseFile.file) :
  match f with
  | None =>
      DatabaseFile.clearAllTodos None
      = (None, Failure (DatabaseError (FailedToClearText SqlErrorText)))
  | Some db =>
      exists db',
        DatabaseFile.clearAllTodos (Some db) = (Some db', Success tt) /\
        (forall k,
           DatabaseFile.getTodoById k (Some db') = Failure (TodoNotFound k)) /\
        DatabaseFile.getAllTodos (Some db') = Success [] /\
        sqlite_sequence db' = sqlite_sequence db /\
        (consistent db ->
         forall k r, todos db !! k = Some r -> k < next_rowid db')
  end.
Proof.
  destruct f as [db |]; [| reflexivity].
  exists {| todos := ∅; sqlite_sequence := sqlite_sequence db |}.
  split; [reflexivity |]. split; [| split; [| split]].
  - intros k. cbn [DatabaseFile.getTodoById]. rewrite getTodoById_row.
    cbn [todos]. rewrite lookup_empty. reflexivity.
  - reflexivity.
  - reflexivity.
  - intros H k r Hk. specialize (H k r Hk).
    unfold next_rowid. cbn [todos sqlite_sequence]. lia.
Qed.

(** X8: on a file without the table [saveTodo] fails and writes
    nothing.  On a table, [saveTodo] of a todo that passes the schema
    succeeds and returns the todo as read back from the table: the same
    ids and title, and the status ["completed"] whatever the status of
    the todo saved, the conditional on [todo.completed] testing a
    non-empty string; no other row changes. *)
Theorem saveTodo_outcomes (now : Z) (todo : Todo) (f : DatabaseFile.file) :
  safe (id todo) -> safe (userId todo) -> valid_title (title todo) ->
  match f with
  | None =>
      DatabaseFile.saveTodo now todo None
      = (None, Failure (DatabaseError
                          (FailedToSaveText (id todo) SqlErrorText)))
  | Some db =>
      let saved := {| userId := userId todo; id := id todo;
                      title := title todo; completed := status_completed |} in
      exists db',
        DatabaseFile.saveTodo now todo (Some db) = (Some db', Success saved) /\
        DatabaseFile.getTodoById (id todo) (Some db') = Success saved /\
        (forall k, k <> id todo -> todos db' !! k = todos db !! k)
  end.
Proof.
  intros Hid Hu Ht. destruct f as [db |]; [| reflexivity].
  intros saved. exists (fst (saveTodo now todo db)).
  destruct (saveTodo_valid now todo db Hid Hu Ht) as [Hres Hframe].
  split; [| split; [| exact Hframe]].
  - unfold DatabaseFile.saveTodo, DatabaseFile.on_table.
    destruct (saveTodo now todo db) as [db1 res]. cbn [fst snd] in *.
    rewrite Hres. reflexivity.
  - cbn [DatabaseFile.getTodoById].
    destruct (saveTodo_row now todo db) as (created & Hrow).
    rewrite getTodoById_row, Hrow.
    rewrite decide_True by (split; [| split]; assumption).
    reflexivity.
Qed.

(** X8 at a pending todo: it is stored and returned as completed. *)
Lemma saveTodo_outcomes_witness :
  safe (id pending_todo) /\ safe (userId pending_todo) /\
  valid_title (title pending_todo) /\
  exists db',
    DatabaseFile.saveTodo 3 pending_todo (Some empty_database)
    = (Some db', Success {| userId := 1; id := 9; title := u "later";
                            completed := status_completed |}).
Proof.
  assert (H1 : safe (id pending_todo)) by (unfold safe; simpl; lia).
  assert (H2 : safe (userId pending_todo)) by (unfold safe; simpl; lia).
  assert (H3 : valid_title (title pending_todo))
    by (unfold valid_title; simpl; lia).
  split; [exact H1 |]. split; [exact H2 |]. split; [exact H3 |].
  destruct (saveTodo_outcomes 3 pending_todo (Some empty_database) H1 H2 H3)
    as (db' & Hsave & _).
  exists db'. exact Hsave.
Defined.

(** X24: saving the same [Todo] twice leaves the file as saving it once
    does, [updated_at] apart: the second call returns what the first
    returned, and the file shows the same rows and the same key counter.
    On a file without the table both calls fail and nothing is written;
    on a table the first call overwrites the row of the id, keeping its
    [created_at], or inserts the row under the id supplied. *)
Theorem saveTodo_twice_on_file (now1 now2 : Z) (todo : Todo)
    (f : DatabaseFile.file) :
  let '(f1, r1) := DatabaseFile.saveTodo now1 todo f in
  let '(f2, r2) := DatabaseFile.saveTodo now2 todo f1 in
  r2 = r1 /\
  visible f2 = visible f1 /\
  (f = None -> f1 = None) /\
  (forall db r, f = Some db -> todos db !! id todo = Some r ->
     exists db1, f1 = Some db1 /\
       todos db1
       = <[ id todo := written_row now1 (created_at r) todo ]> (todos db)) /\
  (forall db, f = Some db -> todos db !! id todo = None ->
     exists db1, f1 = Some db1 /\
       todos db1 = <[ id todo := written_row now1 now1 todo ]> (todos db)).
Proof.
  destruct f as [db |].
  - pose proof (saveTodo_twice now1 now2 todo db) as H.
    unfold DatabaseFile.saveTodo, DatabaseFile.on_table.
    destruct (saveTodo now1 todo db) as [db1 r1].
    destruct (saveTodo now2 todo db1) as [db2 r2].
    destruct H as (H1 & H2 & H3 & H4 & H5).
    split; [exact H1 |]. split; [| split; [discriminate | split]].
    + unfold visible. cbn [fmap option_fmap option_map]. rewrite H2, H3.
      reflexivity.
    + intros db' r [= <-] Hr. exists db1. split; [reflexivity | exact (H4 r Hr)].
    + intros db' [= <-] Hr. exists db1. split; [reflexivity | exact (H5 Hr)].
  - cbn. split; [reflexivity |]. split; [reflexivity |].
    split; [reflexivity |]. split; [intros db r [=] | intros db [=]].
Qed.

(** X10: when the listing succeeds, a todo created with valid data is
    appended to it as long as its key is in the safe range: the listing
    afterwards is the listing before followed by the new todo.  Once the
    key is outside the safe range, the row the failed creation leaves
    makes the listing fail. *)
Theorem created_todo_comes_last (now : Z) (data : createData)
    (f : DatabaseFile.file) (l : list Todo) :
  safe (data_userId data) -> valid_title (data_title data) ->
  DatabaseFile.getAllTodos f = Success l ->
  exists db, f = Some db /\
    (safe (next_rowid db) ->
     exists todo,
       snd (DatabaseFile.createTodo now data f) = Success todo /\
       DatabaseFile.getAllTodos (fst (DatabaseFile.createTodo now data f))
       = Success (l ++ [todo])) /\
    (~ safe (next_rowid db) ->
     DatabaseFile.getAllTodos (fst (DatabaseFile.createTodo now data f))
     = Failure (DatabaseTable.DatabaseError
                  (DatabaseTable.FailedToFetchText ParseErrorText))).
Proof.
  intros Hu Ht Hl. destruct f as [db |]; [| discriminate Hl].
  exists db. split; [reflexivity |].
  assert (E : DatabaseFile.createTodo now data (Some db)
              = (Some (fst (createTodo now data db)),
                 snd (createTodo now data db))) by reflexivity.
  rewrite E. cbn [fst snd DatabaseFile.getAllTodos] in *. split.
  - intros Hid. exact (created_todo_is_listed_last now data db l Hu Ht Hid Hl).
  - intros Hid. apply getAllTodos_bad_row.
    destruct (createTodo_unsafe_key now data db Hid) as (_ & r & Hr & Hbad).
    exists (next_rowid db), r. split; assumption.
Qed.

(** X10 for a sixth todo after the samples. *)
Lemma created_todo_comes_last_witness :
  exists todo,
    snd (DatabaseFile.createTodo 1
           {| data_userId := 3; data_title := u "sixth";
              data_completed := None |}
           (fst (DatabaseFile.initializeDatabase 0 None))) = Success todo /\
    DatabaseFile.getAllTodos
      (fst (DatabaseFile.createTodo 1
              {| data_userId := 3; data_title := u "sixth";
                 data_completed := None |}
              (fst (DatabaseFile.initializeDatabase 0 None))))
    = Success
        ([ {| userId := 1; id := 1; title := u "Learn Effect";
              completed := status_pending |};
           {| userId := 1; id := 2; title := u "Build a CLI app";
              completed := status_completed |};
           {| userId := 2; id := 3; title := u "Master TypeScript";
              completed := status_pending |};
           {| userId := 1; id := 4; title := u "Use SQLite with Effect";
              completed := status_pending |};
           {| userId := 2; id := 5; title := u "Write documentation";
              completed := status_completed |} ] ++ [todo]).
Proof.
  destruct (created_todo_comes_last 1
              {| data_userId := 3; data_title := u "sixth";
                 data_completed := None |}
              (fst (DatabaseFile.initializeDatabase 0 None))
              [ {| userId := 1; id := 1; title := u "Learn Effect";
                   completed := status_pending |};
                {| userId := 1; id := 2; title := u "Build a CLI app";
                   completed := status_completed |};
                {| userId := 2; id := 3; title := u "Master TypeScript";
                   completed := status_pending |};
                {| userId := 1; id := 4; title := u "Use SQLite with Effect";
                   completed := status_pending |};
                {| userId := 2; id := 5; title := u "Write documentation";
                   completed := status_completed |} ])
    as (db & Hdb & Hsafe & _).
  - unfold safe. simpl. lia.
  - unfold valid_title. simpl. lia.
  - vm_compute. reflexivity.
  - apply Hsafe. injection Hdb as <-. unfold safe. vm_compute. discriminate.
Defined.

(** *** The commands *)

Section Pretty.
Context (pretty : Todo -> jsstring).

(** X11: on a file without the table the [get] command fails with the
    error of the query and prints nothing.  On a table it prints the
    not-found line, with the id, and succeeds when no row has the id;
    prints the header and the todo when the row passes the schema; and
    otherwise fails with the decode error and prints nothing, only
    [TodoNotFound] being caught. *)
Theorem get_command_on_file (k : Z) (f : DatabaseFile.file) (out : terminal) :
  match f with
  | None =>
      FileCommands.getLocalTodoCommand pretty k None out
      = (out, Failure (DatabaseError (QueryErrorText SqlErrorText)))
  | Some db =>
      (todos db !! k = None -> safe k ->
       FileCommands.getLocalTodoCommand pretty k (Some db) out
       = (out ++ [SyncTodos.cross_mark ++ u " Todo " ++ Z_toString k
                  ++ u " not found in local database" ++ line_feed],
          Success tt)) /\
      (forall r, todos db !! k = Some r -> readable k r ->
       FileCommands.getLocalTodoCommand pretty k (Some db) out
       = (out ++ [Commands.floppy_disk ++ u " From Local Database:"
                  ++ line_feed;
                  pretty (todo_of_row k r) ++ line_feed],
          Success tt)) /\
      (forall r, todos db !! k = Some r -> ~ readable k r ->
       FileCommands.getLocalTodoCommand pretty k (Some db) out
       = (out, Failure (DatabaseError (SchemaDecodeText k ParseErrorText))))
  end.
Proof using Type.
  destruct f as [db |]; [| reflexivity].
  change (FileCommands.getLocalTodoCommand pretty k (Some db) out)
    with (Commands.getLocalTodoCommand pretty k db out).
  exact (get_command_outcomes pretty k db out).
Qed.

(** X13: on a file without the table the [create] command fails and
    prints nothing.  On a table, with valid data and the next key in the
    safe range, it prints the confirmation and the new todo, and [get]
    with the new id then prints that same todo. *)
Theorem create_then_get_on_file (now userId : Z) (title : jsstring)
    (completed : option bool) (f : DatabaseFile.file) (out out' : terminal) :
  safe userId -> valid_title title ->
  match f with
  | None =>
      FileCommands.createTodoCommand pretty now userId title completed None out
      = (None, out, Failure (DatabaseError (FailedToCreateText SqlErrorText)))
  | Some db =>
      safe (next_rowid db) ->
      let todo := {| Todo.userId := userId; id := next_rowid db;
                     Todo.title := title;
                     Todo.completed := if default false completed
                                       then status_completed
                                       else status_pending |} in
      exists db',
        FileCommands.createTodoCommand pretty now userId title completed
          (Some db) out
        = (Some db', out ++ [Commands.check_mark ++ u " Created new todo:"
                             ++ line_feed;
                             pretty todo ++ line_feed], Success tt) /\
        FileCommands.getLocalTodoCommand pretty (next_rowid db) (Some db') out'
        = (out' ++ [Commands.floppy_disk ++ u " From Local Database:"
                    ++ line_feed;
                    pretty todo ++ line_feed], Success tt)
  end.
Proof using Type.
  intros Hu Ht. destruct f as [db |]; [| reflexivity].
  intros Hid todo.
  destruct (create_then_get_shows_the_todo pretty now userId title completed
              db out out' Hu Ht Hid) as [Hcreate Hget].
  cbv zeta in Hcreate, Hget.
  exists (fst (fst (Commands.createTodoCommand pretty now userId title
                      completed db out))).
  split; [| exact Hget].
  unfold FileCommands.createTodoCommand, DatabaseFile.createTodo,
    DatabaseFile.on_table.
  unfold Commands.createTodoCommand in Hcreate |- *.
  destruct (createTodo now _ db) as [db1 [t | e | d]]; cbn [fst] in *;
    [| discriminate Hcreate | discriminate Hcreate].
  injection Hcreate as Hout. f_equal. f_equal. exact Hout.
Qed.

(** X14: on a file without the table the [clear] command fails and
    prints nothing.  On a table it prints its confirmation; afterwards
    [list] prints the header alone and [get] reports every id as not
    found. *)
Theorem clear_then_list_and_get_on_file (f : DatabaseFile.file)
    (out out' : terminal) :
  match f with
  | None =>
      FileCommands.clearTodosCommand None out
      = (None, out, Failure (DatabaseError (FailedToClearText SqlErrorText)))
  | Some db =>
      exists db',
        FileCommands.clearTodosCommand (Some db) out
        = (Some db', out ++ [Commands.check_mark ++ u " Cleared all todos"
                             ++ line_feed], Success tt) /\
        FileCommands.listLocalTodosCommand pretty (Some db') out'
        = (out' ++ [Commands.floppy_disk ++ u " All Todos from Local Database:"
                    ++ line_feed], Success tt) /\
        (forall k, safe k ->
           FileCommands.getLocalTodoCommand pretty k (Some db') out'
           = (out' ++ [SyncTodos.cross_mark ++ u " Todo " ++ Z_toString k
                       ++ u " not found in local database" ++ line_feed],
              Success tt))
  end.
Proof using Type.
  destruct f as [db |]; [| reflexivity].
  destruct (clear_then_list_and_get pretty db out out') as (Hclear & Hlist & Hget).
  cbv zeta in Hclear, Hlist, Hget.
  exists (fst (fst (Commands.clearTodosCommand db out))).
  split; [| split].
  - unfold FileCommands.clearTodosCommand, DatabaseFile.clearAllTodos,
      DatabaseFile.on_table.
    unfold Commands.clearTodosCommand in Hclear |- *.
    destruct (clearAllTodos db) as [db1 [[] | e | d]]; cbn [fst] in *;
      [reflexivity | discriminate Hclear | discriminate Hclear].
  - exact Hlist.
  - exact Hget.
Qed.

End Pretty.

(** X13 on the empty table, printing a todo as its title. *)
Lemma create_then_get_on_file_witness :
  safe 7 /\ valid_title (u "note") /\
  exists db',
    FileCommands.createTodoCommand title 0 7 (u "note") None
      (Some empty_database) []
    = (Some db', [Commands.check_mark ++ u " Created new todo:" ++ line_feed;
                  u "note" ++ line_feed], Success tt) /\
    FileCommands.getLocalTodoCommand title 1 (Some db') []
    = ([Commands.floppy_disk ++ u " From Local Database:" ++ line_feed;
        u "note" ++ line_feed], Success tt).
Proof.
  assert (Hu : safe 7) by (unfold safe; simpl; lia).
  assert (Ht : valid_title (u "note")) by (unfold valid_title; simpl; lia).
  split; [exact Hu |]. split; [exact Ht |].
  exact (create_then_get_on_file title 0 7 (u "note") None
           (Some empty_database) [] [] Hu Ht
           ltac:(unfold safe; vm_compute; discriminate)).
Defined.

(** *** The batch *)

Section Run.
Context (remote : Z -> Exit TodoService.GetTodoByIdError Todo) (now : Z -> Z).

(** On a file that holds the table, [syncTodo] is the [syncTodo] of
    [SyncTodos]. *)
Lemma syncTodo_on_table (total id : Z) (st : SyncTodos.state) :
  SyncFile.syncTodo remote now total id (SyncFile.on_table st)
  = (SyncFile.on_table (fst (SyncTodos.syncTodo remote now total id st)),
     snd (SyncTodos.syncTodo remote now total id st)).
Proof using Type.
  unfold SyncFile.syncTodo, SyncTodos.syncTodo, SyncFile.on_table.
  cbn [SyncFile.file SyncFile.output SyncFile.completed].
  destruct (remote id) as [apiTodo | e | d]; [| reflexivity | reflexivity].
  unfold DatabaseFile.saveTodo, DatabaseFile.on_table.
  destruct (saveTodo _ apiTodo (SyncTodos.database st)) as [db [t | e | d]];
    [| reflexivity | reflexivity].
  destruct (updateProgress _ _ (SyncTodos.output st)) as [out shown].
  reflexivity.
Qed.

Lemma forEach_sequential_on_table (total : Z) (ids : list Z) :
  forall st : SyncTodos.state,
    SyncFile.forEach_sequential (SyncFile.syncTodo remote now total) ids
      (SyncFile.on_table st)
    = (SyncFile.on_table
         (fst (SyncTodos.forEach_sequential
                 (SyncTodos.syncTodo remote now total) ids st)),
       snd (SyncTodos.forEach_sequential
              (SyncTodos.syncTodo remote now total) ids st)).
Proof using Type.
  induction ids as [| id ids IH]; intros st; [reflexivity |].
  cbn [SyncFile.forEach_sequential SyncTodos.forEach_sequential].
  rewrite syncTodo_on_table.
  destruct (SyncTodos.syncTodo remote now total id st) as [st1 [[] | e | d]];
    cbn [fst snd]; [apply IH | reflexivity | reflexivity].
Qed.

Lemma syncTodoCommand_on_table (ids : list Z) (st : SyncTodos.state) :
  SyncFile.syncTodoCommand_sequential remote now ids (SyncFile.on_table st)
  = (SyncFile.on_table
       (fst (SyncTodos.syncTodoCommand_sequential remote now ids st)),
     snd (SyncTodos.syncTodoCommand_sequential remote now ids st)).
Proof using Type.
  unfold SyncFile.syncTodoCommand_sequential,
    SyncTodos.syncTodoCommand_sequential.
  destruct (bool_decide (ids = [])); [reflexivity |].
  cbn zeta.
  cbn [SyncFile.completed SyncFile.output SyncFile.file SyncFile.Console_log
       SyncFile.on_table SyncTodos.completed SyncTodos.output
       SyncTodos.database SyncTodos.Console_log].
  destruct (initializeProgress _ _ _) as [out [[] | e | d]];
    [| reflexivity | reflexivity].
  pose proof (forEach_sequential_on_table (Z.of_nat (length ids)) ids
                {| SyncTodos.database := SyncTodos.database st;
                   SyncTodos.output := out; SyncTodos.completed := 0 |}) as H.
  unfold SyncFile.on_table in H.
  cbn [SyncTodos.database SyncTodos.output SyncTodos.completed] in H.
  rewrite H.
  destruct (SyncTodos.forEach_sequential _ ids _) as [st1 [[] | e | d]];
    reflexivity.
Qed.

(** X16: a sequential [sync] of a non-empty list of ids that are all
    fetched.  On a file without the table it shows the banner and the
    initial bar, then fails at the first id with the error of the write,
    nothing being counted or stored.  On a table it succeeds: the
    counter ends at the number of ids, every fetched todo has a row
    under its own id with the status ["completed"], the rows under other
    keys are untouched, and the terminal shows the banner, the initial
    bar, one updated bar per id, a single line feed after the last one,
    and the success line. *)
Theorem sync_run_on_file (ids : list Z) (st : SyncFile.state) :
  ids <> [] -> Z.of_nat (length ids) < 2 ^ 32 -> all_fetched remote ids ->
  let n := Z.of_nat (length ids) in
  let banner :=
    [SyncTodos.satellite_antenna ++ u " Syncing " ++ Z_toString n
     ++ u " todo(s) from API (sequential)..." ++ line_feed;
     progress_line 0 n] in
  match SyncFile.file st with
  | None =>
      exists id todo,
        head ids = Some id /\ remote id = Success todo /\
        SyncFile.syncTodoCommand_sequential remote now ids st
        = ({| SyncFile.file := None;
              SyncFile.output := SyncFile.output st ++ banner;
              SyncFile.completed := 0 |},
           Failure (SyncTodos.StoreError
                      (DatabaseError
                         (FailedToSaveText (Todo.id todo) SqlErrorText))))
  | Some db =>
      exists db',
        SyncFile.syncTodoCommand_sequential remote now ids st
        = ({| SyncFile.file := Some db';
              SyncFile.output :=
                SyncFile.output st ++ banner ++ reports n n
                ++ [line_feed;
                    SyncTodos.party_popper ++ u " Successfully synced "
                    ++ Z_toString n ++ u " todo(s) to local database!"
                    ++ line_feed];
              SyncFile.completed := n |},
           Success tt) /\
        stored remote ids db' /\ untouched remote ids db db'
  end.
Proof using Type.
  intros Hne Hlen Hall n banner.
  assert (Hn : 0 < n < 2 ^ 53).
  { subst n. destruct ids; [congruence |]. cbn [length] in *.
    assert (2 ^ 32 = 4294967296) by reflexivity.
    assert (2 ^ 53 = 9007199254740992) by reflexivity. lia. }
  destruct st as [[db |] out c]; cbn [SyncFile.file SyncFile.output].
  - pose proof (sync_run_stores_every_todo remote now ids
                  {| SyncTodos.database := db; SyncTodos.output := out;
                     SyncTodos.completed := c |} Hne Hlen Hall)
      as (Hres & Hc & Hst & Hun & Hout).
    cbv zeta in Hres, Hc, Hst, Hun, Hout.
    cbn [SyncTodos.database SyncTodos.output] in Hun, Hout.
    pose proof (syncTodoCommand_on_table ids
                  {| SyncTodos.database := db; SyncTodos.output := out;
                     SyncTodos.completed := c |}) as Hfile.
    unfold SyncFile.on_table at 1 in Hfile.
    cbn [SyncTodos.database SyncTodos.output SyncTodos.completed] in Hfile.
    destruct (SyncTodos.syncTodoCommand_sequential remote now ids _)
      as [st' res]. cbn [fst snd] in *.
    exists (SyncTodos.database st'). split; [| split; assumption].
    rewrite Hfile, Hres. unfold SyncFile.on_table. rewrite Hc, Hout.
    fold n. reflexivity.
  - destruct ids as [| id ids]; [congruence |].
    destruct (Hall id) as (todo & Hfetch & _); [apply elem_of_cons; auto |].
    exists id, todo. split; [reflexivity |]. split; [exact Hfetch |].
    unfold SyncFile.syncTodoCommand_sequential.
    rewrite bool_decide_eq_false_2 by exact Hne. cbn zeta. fold n.
    cbn [SyncFile.completed SyncFile.output SyncFile.file SyncFile.Console_log].
    unfold initializeProgress.
    rewrite (progress_line_shown SyncTodos.error 0 n) by lia.
    cbn [SyncFile.forEach_sequential]. unfold SyncFile.syncTodo.
    rewrite Hfetch. cbn [SyncFile.file SyncFile.output SyncFile.completed].
    unfold display. rewrite <- !app_assoc. reflexivity.
Qed.

End Run.

(** X16 for the ids 1 and 2, without the table and on the empty table. *)
Lemma sync_run_on_file_witness :
  snd (SyncFile.syncTodoCommand_sequential always_found (fun _ => 0) [1; 2]
         {| SyncFile.file := None; SyncFile.output := [];
            SyncFile.completed := 0 |})
  = Failure (SyncTodos.StoreError
               (DatabaseError (FailedToSaveText 1 SqlErrorText))) /\
  snd (SyncFile.syncTodoCommand_sequential always_found (fun _ => 0) [1; 2]
         (SyncFile.on_table initial_state))
  = Success tt.
Proof.
  assert (H : all_fetched always_found [1; 2]).
  { intros id Hid. eexists. split; [reflexivity |]. cbn [Todo.id userId title].
    assert (2 ^ 53 = 9007199254740992) by reflexivity.
    unfold safe, valid_title.
    rewrite !elem_of_cons, elem_of_nil in Hid.
    split; [lia |]. split; [lia |]. cbn. lia. }
  split.
  - destruct (sync_run_on_file always_found (fun _ => 0) [1; 2]
                {| SyncFile.file := None; SyncFile.output := [];
                   SyncFile.completed := 0 |}
                ltac:(discriminate) ltac:(reflexivity) H)
      as (id & todo & Hid & Hfetch & Hrun).
    injection Hid as <-. injection Hfetch as <-.
    rewrite Hrun. reflexivity.
  - destruct (sync_run_on_file always_found (fun _ => 0) [1; 2]
                (SyncFile.on_table initial_state)
                ltac:(discriminate) ltac:(reflexivity) H)
      as (db' & Hrun & _).
    rewrite Hrun. reflexivity.
Defined.

End FileFacts.
